(** * Nutrient extraction (robotoff/insights/ocr/nutrient.py) and batched
      insertion (robotoff/models.py): a shallow embedding and its properties.

    Python [str] values are sequences of Unicode code points; they are
    modelled as [list N].  String literals of the source are written as Rocq
    strings (UTF-8 bytes) and decoded with [u]. *)

From Stdlib Require Import List NArith ZArith Arith Bool String Ascii Lia.
Import ListNotations.

Set Implicit Arguments.
Set Warnings "-notation-for-abbreviation".
Set Warnings "-unused-pattern-matching-variable".

(** ** Python strings *)

Definition str := list N.

Definition bytes_of_string (s : string) : list N :=
  map (fun a => N_of_ascii a) (list_ascii_of_string s).

(** UTF-8 decoding of a byte sequence into code points (well-formed input;
    a stray byte is kept as it is). *)
Fixpoint utf8_decode (fuel : nat) (bs : list N) : list N :=
  match fuel with
  | O => []
  | S f =>
    match bs with
    | [] => []
    | b0 :: r0 =>
      if (b0 <? 128)%N then b0 :: utf8_decode f r0
      else if (b0 <? 224)%N then
        match r0 with
        | b1 :: r1 =>
          ((b0 - 192) * 64 + (b1 - 128))%N :: utf8_decode f r1
        | _ => [b0]
        end
      else if (b0 <? 240)%N then
        match r0 with
        | b1 :: b2 :: r2 =>
          ((b0 - 224) * 4096 + (b1 - 128) * 64 + (b2 - 128))%N
            :: utf8_decode f r2
        | _ => b0 :: r0
        end
      else
        match r0 with
        | b1 :: b2 :: b3 :: r3 =>
          ((b0 - 240) * 262144 + (b1 - 128) * 4096
           + (b2 - 128) * 64 + (b3 - 128))%N :: utf8_decode f r3
        | _ => b0 :: r0
        end
    end
  end.

Definition u (s : string) : str :=
  let bs := bytes_of_string s in utf8_decode (List.length bs) bs.

Definition str_eqb (a b : str) : bool :=
  if list_eq_dec N.eq_dec a b then true else false.

(** [sep.join(parts)] *)
Fixpoint join (sep : str) (parts : list str) : str :=
  match parts with
  | [] => []
  | [p] => p
  | p :: rest => p ++ sep ++ join sep rest
  end.

(** [s.replace(old, new)] for one-character [old] and [new]. *)
Definition replace_char (old new : N) (s : str) : str :=
  map (fun c => if (c =? old)%N then new else c) s.

(** [template.format(a, b, ...)] for templates whose only fields are the
    automatically numbered [{}]; a field with no argument left is an
    [IndexError] in Python and [None] here. *)
Fixpoint format (template : str) (args : list str) : option str :=
  match template with
  | [] => Some []
  | c :: rest =>
    match c, rest with
    | 123%N, 125%N :: rest' =>
      match args with
      | a :: args' => option_map (app a) (format rest' args')
      | [] => None
      end
    | _, _ => option_map (cons c) (format rest args)
    end
  end.

(** ** Exceptions

    Fallible code returns [result]: [inl] carries the exception raised. *)

Inductive exn :=
| KeyError (key : str)
| ReError (pattern : str)
| IndexError
| AttributeError
| ZeroDivisionError.

Definition result (A : Type) := (exn + A)%type.

Definition ret {A} (a : A) : result A := inr a.
Definition raise {A} (e : exn) : result A := inl e.
Definition bind {A B} (x : result A) (f : A -> result B) : result B :=
  match x with
  | inl e => inl e
  | inr a => f a
  end.

Notation "x <- c1 ;; c2" := (bind c1 (fun x => c2))
  (at level 61, c1 at next level, right associativity).

(** A [for] loop whose body may raise: the accumulator is threaded through
    the items, the first exception ends the loop. *)
Fixpoint foldM {A S} (body : S -> A -> result S) (items : list A) (s : S)
  : result S :=
  match items with
  | [] => ret s
  | x :: rest => s' <- body s x ;; foldM body rest s'
  end.

(** ** Dictionaries

    A Python [dict] keeps its keys in insertion order and that order is what
    [items()] iterates: an association list with distinct keys. *)

Definition dict (V : Type) := list (str * V).

Fixpoint dict_get {V} (k : str) (d : dict V) : option V :=
  match d with
  | [] => None
  | (k', v) :: rest => if str_eqb k' k then Some v else dict_get k rest
  end.

Definition keys {V} (d : dict V) : list str := map fst d.

(** [d[k]], a [KeyError] when [k] is absent. *)
Definition getitem {V} (d : dict V) (k : str) : result V :=
  match dict_get k d with
  | Some v => ret v
  | None => raise (KeyError k)
  end.

(** [d.setdefault(k, default)], for its effect on [d]. *)
Definition setdefault {V} (k : str) (default : V) (d : dict V) : dict V :=
  match dict_get k d with
  | Some _ => d
  | None => d ++ [(k, default)]
  end.

(** The list stored under [k] is mutated in place by [d[k].append(x)]. *)
Fixpoint update {V} (k : str) (f : V -> V) (d : dict V) : dict V :=
  match d with
  | [] => []
  | (k', v) :: rest =>
    if str_eqb k' k then (k', f v) :: rest else (k', v) :: update k f rest
  end.

Definition getitem_append {X} (d : dict (list X)) (k : str) (x : X)
  : result (dict (list X)) :=
  _ <- getitem d k ;; ret (update k (fun l => l ++ [x]) d).

(** ** Regular expressions: the part of Python's [re] syntax the module uses *)

Inductive citem :=
| CChar (c : N)
| CRange (lo hi : N)
| CWord.

Definition cset := list citem.

Inductive Pattern :=
| Eps
| Chr (c : N)
| Cls (cs : cset)
| Cat (r1 r2 : Pattern)
| Alt (r1 r2 : Pattern)
| Opt (r : Pattern)
| Star (r : Pattern)
| Plus (r : Pattern)
| Grp (n : nat) (r : Pattern)
| NotBehind (cs : cset)
| NotAhead (cs : cset).

Fixpoint seq (rs : list Pattern) : Pattern :=
  match rs with
  | [] => Eps
  | [r] => r
  | r :: rest => Cat r (seq rest)
  end.

Fixpoint union (rs : list Pattern) : Pattern :=
  match rs with
  | [] => Eps
  | [r] => r
  | r :: rest => Alt r (union rest)
  end.

Definition literal (s : str) : Pattern := seq (map Chr s).

Fixpoint groups (r : Pattern) : list nat :=
  match r with
  | Cat a b | Alt a b => groups a ++ groups b
  | Opt a | Star a | Plus a => groups a
  | Grp n a => n :: groups a
  | _ => []
  end.

(** *** Parsing (re.compile)

    Supported: literals, escaped punctuation, [|], [?], [*], [+], capturing
    groups, [(?:...)], classes of characters, ranges and [\w], [\w] itself,
    and the two negative lookarounds over a single character set.  Anything
    else yields [None]. *)

Definition is_special (c : N) : bool :=
  existsb (N.eqb c) [36; 41; 42; 43; 46; 63; 91; 92; 93; 94; 123; 124; 125]%N.

Definition is_quantifier (c : N) : bool :=
  existsb (N.eqb c) [42; 43; 63; 123]%N.

Definition as_cset (r : Pattern) : option cset :=
  match r with
  | Chr c => Some [CChar c]
  | Cls cs => Some cs
  | _ => None
  end.

(** The text after an opening bracket, up to the closing one. *)
Fixpoint parse_class (s : str) (acc : cset) : option (cset * str) :=
  match s with
  | [] => None
  | 93%N :: rest => Some (rev acc, rest)
  | 92%N :: 119%N :: rest => parse_class rest (CWord :: acc)
  | 92%N :: _ => None
  | c :: 45%N :: 93%N :: rest => Some (rev (CChar 45 :: CChar c :: acc), rest)
  | _ :: 45%N :: 92%N :: _ => None
  | c :: 45%N :: d :: rest =>
    if (c <=? d)%N then parse_class rest (CRange c d :: acc) else None
  | c :: rest => parse_class rest (CChar c :: acc)
  end.

(** A greedy quantifier after an atom; lazy and possessive forms and
    repeated quantifiers are not supported. *)
Definition parse_quant (a : Pattern) (s : str) : option (Pattern * str) :=
  match s with
  | q :: rest =>
    let next_is_quant :=
      match rest with
      | c :: _ => is_quantifier c
      | [] => false
      end in
    if (q =? 63)%N then if next_is_quant then None else Some (Opt a, rest)
    else if (q =? 42)%N then if next_is_quant then None else Some (Star a, rest)
    else if (q =? 43)%N then if next_is_quant then None else Some (Plus a, rest)
    else Some (a, s)
  | [] => Some (a, s)
  end.

Fixpoint parse_alt (fuel : nat) (s : str) (g : nat) {struct fuel}
  : option (Pattern * str * nat) :=
  match fuel with
  | O => None
  | S f =>
    match parse_seq f s g with
    | Some (items, 124%N :: rest, g1) =>
      match parse_alt f rest g1 with
      | Some (r2, rest2, g2) => Some (Alt (seq items) r2, rest2, g2)
      | None => None
      end
    | Some (items, rest, g1) => Some (seq items, rest, g1)
    | None => None
    end
  end
with parse_seq (fuel : nat) (s : str) (g : nat) {struct fuel}
  : option (list Pattern * str * nat) :=
  match fuel with
  | O => None
  | S f =>
    match s with
    | [] => Some ([], s, g)
    | 124%N :: _ => Some ([], s, g)
    | 41%N :: _ => Some ([], s, g)
    | _ =>
      match parse_atom f s g with
      | Some (a, rest, g1) =>
        match parse_quant a rest with
        | Some (a', rest') =>
          match parse_seq f rest' g1 with
          | Some (items, rest2, g2) => Some (a' :: items, rest2, g2)
          | None => None
          end
        | None => None
        end
      | None => None
      end
    end
  end
with parse_atom (fuel : nat) (s : str) (g : nat) {struct fuel}
  : option (Pattern * str * nat) :=
  match fuel with
  | O => None
  | S f =>
    match s with
    | 40%N :: 63%N :: 58%N :: rest =>
      match parse_alt f rest g with
      | Some (r, 41%N :: rest', g1) => Some (r, rest', g1)
      | _ => None
      end
    | 40%N :: 63%N :: 60%N :: 33%N :: rest =>
      match parse_alt f rest g with
      | Some (r, 41%N :: rest', g1) =>
        match as_cset r with
        | Some cs => Some (NotBehind cs, rest', g1)
        | None => None
        end
      | _ => None
      end
    | 40%N :: 63%N :: 33%N :: rest =>
      match parse_alt f rest g with
      | Some (r, 41%N :: rest', g1) =>
        match as_cset r with
        | Some cs => Some (NotAhead cs, rest', g1)
        | None => None
        end
      | _ => None
      end
    | 40%N :: 63%N :: _ => None
    | 40%N :: rest =>
      match parse_alt f rest (S g) with
      | Some (r, 41%N :: rest', g1) => Some (Grp (S g) r, rest', g1)
      | _ => None
      end
    | 91%N :: 93%N :: _ => None
    | 91%N :: 94%N :: _ => None
    | 91%N :: rest =>
      match parse_class rest [] with
      | Some (cs, rest') => Some (Cls cs, rest', g)
      | None => None
      end
    | 92%N :: 119%N :: rest => Some (Cls [CWord], rest, g)
    | 92%N :: c :: rest =>
      if is_special c then Some (Chr c, rest, g) else None
    | c :: rest => if is_special c then None else Some (Chr c, rest, g)
    | [] => None
    end
  end.

Definition re_compile (pattern : str) : result Pattern :=
  match parse_alt (3 * List.length pattern + 3) pattern 0 with
  | Some (r, [], _) => ret r
  | _ => raise (ReError pattern)
  end.


(** *** Matching

    The searched text is held as a zipper: the characters before the
    current position, nearest first, and the characters from it on.  A
    capture records the offsets of the last text its group matched. *)

Definition caps := list (nat * (nat * nat)).

Fixpoint cap_get (n : nat) (c : caps) : option (nat * nat) :=
  match c with
  | [] => None
  | (n', v) :: rest => if Nat.eqb n' n then Some v else cap_get n rest
  end.

Definition cap_set (n : nat) (v : nat * nat) (c : caps) : caps := (n, v) :: c.

Definition cont (A : Type) := str -> str -> caps -> option A.

Section StarLoop.
Variable A : Type.
Variable step : str -> str -> caps -> cont A -> option A.
Variable k : cont A.

(** Greedy repetition: one more iteration first, the continuation when that
    fails.  An iteration has to consume a character, so the number of
    characters left bounds the iterations. *)
Fixpoint star_loop (n : nat) (p s : str) (c : caps) : option A :=
  match n with
  | O => k p s c
  | S n' =>
    match step p s c
            (fun p1 s1 c1 =>
               if List.length s1 <? List.length s
               then star_loop n' p1 s1 c1 else None) with
    | Some x => Some x
    | None => k p s c
    end
  end.
End StarLoop.

(** s[a:b] for offsets within the usual bounds (Python clamps the others
    the same way). *)
Definition slice (s : str) (a b : nat) : str := firstn (b - a) (skipn a s).

(** A match object: the searched string, the span of the whole match and
    the spans of the groups that took part in it. *)
Record Match := {
  m_string : str;
  m_start : nat;
  m_end : nat;
  m_caps : caps
}.

Definition span (mo : Match) : nat * nat := (m_start mo, m_end mo).

(** [mo.group(n)]; [None] for a group that did not take part (and for a
    group the pattern does not have, where Python raises). *)
Definition group (mo : Match) (n : nat) : option str :=
  match n with
  | O => Some (slice (m_string mo) (m_start mo) (m_end mo))
  | _ =>
    match cap_get n (m_caps mo) with
    | Some (a, b) => Some (slice (m_string mo) a b)
    | None => None
    end
  end.

Definition group0 (mo : Match) : str :=
  slice (m_string mo) (m_start mo) (m_end mo).

Section Matcher.

(** The Unicode database behind [\w]: [str.isalnum] on one code point. *)
Variable unicode_isalnum : N -> bool.

Definition is_word (c : N) : bool := unicode_isalnum c || (c =? 95)%N.

Definition in_citem (c : N) (i : citem) : bool :=
  match i with
  | CChar x => (c =? x)%N
  | CRange lo hi => (lo <=? c)%N && (c <=? hi)%N
  | CWord => is_word c
  end.

Definition in_cset (cs : cset) (c : N) : bool := existsb (in_citem c) cs.

(** Backtracking matcher in continuation-passing style: alternatives are
    tried in order, quantifiers are greedy. *)
Fixpoint exec (A : Type) (r : Pattern) (p s : str) (c : caps) (k : cont A)
  {struct r} : option A :=
  match r with
  | Eps => k p s c
  | Chr x =>
    match s with
    | y :: s' => if (y =? x)%N then k (y :: p) s' c else None
    | [] => None
    end
  | Cls cs =>
    match s with
    | y :: s' => if in_cset cs y then k (y :: p) s' c else None
    | [] => None
    end
  | Cat r1 r2 => exec r1 p s c (fun p1 s1 c1 => exec r2 p1 s1 c1 k)
  | Alt r1 r2 =>
    match exec r1 p s c k with
    | Some x => Some x
    | None => exec r2 p s c k
    end
  | Opt r1 =>
    match exec r1 p s c k with
    | Some x => Some x
    | None => k p s c
    end
  | Star r1 => star_loop (exec (A:=A) r1) k (List.length s) p s c
  | Plus r1 =>
    exec r1 p s c
         (fun p1 s1 c1 => star_loop (exec (A:=A) r1) k (List.length s1) p1 s1 c1)
  | Grp n r1 =>
    exec r1 p s c
         (fun p1 s1 c1 =>
            k p1 s1 (cap_set n (List.length p, List.length p1) c1))
  | NotBehind cs =>
    match p with
    | y :: _ => if in_cset cs y then None else k p s c
    | [] => k p s c
    end
  | NotAhead cs =>
    match s with
    | y :: _ => if in_cset cs y then None else k p s c
    | [] => k p s c
    end
  end.

(** One attempt at the current position.  [must_advance] refuses an empty
    match there (the attempt right after an empty match). *)
Definition try_at (r : Pattern) (text : str) (must_advance : bool)
           (p s : str) : option Match :=
  exec r p s []
       (fun p1 _ c1 =>
          if must_advance && (List.length p1 =? List.length p) then None
          else Some {| m_string := text; m_start := List.length p;
                       m_end := List.length p1; m_caps := c1 |}).

(** The scan behind [finditer]: leftmost match from the current position,
    then on from its end.  [skip] counts the positions still inside the
    last match. *)
Fixpoint scan (r : Pattern) (text : str) (p s : str) (skip : nat) {struct s}
  : list Match :=
  let next k :=
    match s with
    | [] => []
    | x :: s' => scan r text (x :: p) s' k
    end in
  match skip with
  | S k => next k
  | O =>
    match try_at r text false p s with
    | None => next 0
    | Some mo =>
      match m_end mo - m_start mo with
      | S k => mo :: next k
      | O =>
        mo :: match try_at r text true p s with
              | Some mo' => mo' :: next (m_end mo' - m_start mo' - 1)
              | None => next 0
              end
      end
    end
  end.

Definition finditer (r : Pattern) (text : str) : list Match :=
  scan r text [] text 0.

(** Two patterns find the same spans in every text. *)
Definition same_matches (r1 r2 : Pattern) : Prop :=
  forall text, map span (finditer r1 text) = map span (finditer r2 text).

(** What one successful path of [exec] does, as a relation: from the
    position [(p, s)] with captures [c], the pattern consumes text up to
    [(p', s')] and leaves the captures [c']. *)
Inductive rmatch : Pattern -> str -> str -> caps -> str -> str -> caps -> Prop :=
| RM_Eps p s c : rmatch Eps p s c p s c
| RM_Chr x p s c : rmatch (Chr x) p (x :: s) c (x :: p) s c
| RM_Cls cs x p s c :
    in_cset cs x = true -> rmatch (Cls cs) p (x :: s) c (x :: p) s c
| RM_Cat r1 r2 p s c p1 s1 c1 p2 s2 c2 :
    rmatch r1 p s c p1 s1 c1 -> rmatch r2 p1 s1 c1 p2 s2 c2 ->
    rmatch (Cat r1 r2) p s c p2 s2 c2
| RM_AltL r1 r2 p s c p1 s1 c1 :
    rmatch r1 p s c p1 s1 c1 -> rmatch (Alt r1 r2) p s c p1 s1 c1
| RM_AltR r1 r2 p s c p1 s1 c1 :
    rmatch r2 p s c p1 s1 c1 -> rmatch (Alt r1 r2) p s c p1 s1 c1
| RM_OptSome r p s c p1 s1 c1 :
    rmatch r p s c p1 s1 c1 -> rmatch (Opt r) p s c p1 s1 c1
| RM_OptNone r p s c : rmatch (Opt r) p s c p s c
| RM_StarNil r p s c : rmatch (Star r) p s c p s c
| RM_StarCons r p s c p1 s1 c1 p2 s2 c2 :
    rmatch r p s c p1 s1 c1 -> rmatch (Star r) p1 s1 c1 p2 s2 c2 ->
    rmatch (Star r) p s c p2 s2 c2
| RM_Plus r p s c p1 s1 c1 p2 s2 c2 :
    rmatch r p s c p1 s1 c1 -> rmatch (Star r) p1 s1 c1 p2 s2 c2 ->
    rmatch (Plus r) p s c p2 s2 c2
| RM_Grp n r p s c p1 s1 c1 :
    rmatch r p s c p1 s1 c1 ->
    rmatch (Grp n r) p s c p1 s1
           (cap_set n (List.length p, List.length p1) c1)
| RM_NotBehind cs p s c :
    (forall y p0, p = y :: p0 -> in_cset cs y = false) ->
    rmatch (NotBehind cs) p s c p s c
| RM_NotAhead cs p s c :
    (forall y s0, s = y :: s0 -> in_cset cs y = false) ->
    rmatch (NotAhead cs) p s c p s c.

(** The whole of [w] is a text of the pattern: [^r$] on a text without
    line breaks. *)
Definition fullmatch (r : Pattern) (w : str) : Prop :=
  exists c, rmatch r [] w [] (rev w) [] c.

(** [mo] reports a match of [r] somewhere in [text]. *)
Definition match_of (r : Pattern) (text : str) (mo : Match) : Prop :=
  exists p0 s0 p1 s1,
    rev p0 ++ s0 = text
    /\ rmatch r p0 s0 [] p1 s1 (m_caps mo)
    /\ m_start mo = List.length p0
    /\ m_end mo = List.length p1
    /\ m_string mo = text.

(** No attempt succeeds from the current position on, even were the
    assertion on the preceding character dropped. *)
Fixpoint never_matches (r' : Pattern) (text : str) (p s : str) : Prop :=
  try_at r' text false p s = None
  /\ match s with
     | [] => True
     | x :: s' => never_matches r' text (x :: p) s'
     end.

End Matcher.

(** An ASCII digit, the only kind [[0-9]] matches. *)
Definition is_digit (c : N) : bool := ((48 <=? c) && (c <=? 57))%N.

(** Digits, at least one, then at most one separator out of [seps], then
    digits again: with [seps] the comma and the dot this is a text of
    [[0-9]+[,.]?[0-9]*], with the dot alone a text of [^[0-9]+\.?[0-9]*$]. *)
Definition number_shape (seps : list N) (w : str) : Prop :=
  exists ip sep fp,
    w = ip ++ sep ++ fp
    /\ ip <> []
    /\ Forall (fun x => is_digit x = true) ip
    /\ (sep = [] \/ exists x, sep = [x] /\ In x seps)
    /\ Forall (fun x => is_digit x = true) fp.

(** The pattern ends with the assertion that no character of [cs] follows. *)
Fixpoint ends_with_not_ahead (cs : cset) (r : Pattern) : Prop :=
  match r with
  | Cat _ r2 => ends_with_not_ahead cs r2
  | NotAhead cs' => cs' = cs
  | _ => False
  end.

Definition digit : cset := [CRange 48 57].

(** [[0-9]+[,.]?[0-9]*] *)
Definition number_pattern : Pattern :=
  Cat (Plus (Cls digit))
      (Cat (Opt (Cls [CChar 44; CChar 46])) (Star (Cls digit))).

(** [[0-9]+\.?[0-9]*] *)
Definition decimal_pattern : Pattern :=
  Cat (Plus (Cls digit)) (Cat (Opt (Chr 46)) (Star (Cls digit))).

(** The two shapes of matcher, over the union of the mention fragments and
    the union of the unit tokens.  In a value matcher the mention is
    followed by an optional space, then by an optional separator that may
    have one space after it, then by the number. *)
Definition value_matcher (mentions units : Pattern) : Pattern :=
  seq [NotBehind [CWord];
       Grp 1 mentions;
       Opt (Chr 32);
       Opt (Cat (Cls [CChar 58; CChar 45]) (Opt (Chr 32)));
       Grp 2 number_pattern;
       Opt (Chr 32);
       Grp 3 units;
       NotAhead [CWord]].

Definition mention_matcher (mentions : Pattern) : Pattern :=
  seq [NotBehind [CWord]; Grp 1 mentions; NotAhead [CWord]].

(** The value pattern in the words of the specification, where the mention
    is "followed by an optional separator (':' or '-', optionally surrounded
    by spaces)".  The separator with the spaces around it is optional as a
    whole in [spec_separator_unit]; in [spec_separator_free] the separator
    and each of the two spaces are optional on their own. *)
Definition spec_separator_unit : Pattern :=
  Opt (seq [Opt (Chr 32); Cls [CChar 58; CChar 45]; Opt (Chr 32)]).

Definition spec_separator_free : Pattern :=
  seq [Opt (Chr 32); Opt (Cls [CChar 58; CChar 45]); Opt (Chr 32)].

Definition spec_value_matcher (separator mentions units : Pattern) : Pattern :=
  seq [NotBehind [CWord];
       Grp 1 mentions;
       separator;
       Grp 2 number_pattern;
       Opt (Chr 32);
       Grp 3 units;
       NotAhead [CWord]].

(** ** robotoff/insights/ocr/nutrient.py *)

Definition EXTRACTOR_VERSION : str := u "1".

Definition NutrientMentionType := (str * list str)%type.

Definition NUTRIENT_MENTION : dict (list NutrientMentionType) := [
  (u "energy", [
     (u "[ée]nergie", [u "fr"; u "de"]);
     (u "valeurs? [ée]nerg[ée]tiques?", [u "fr"]);
     (u "energy", [u "en"]);
     (u "calories", [u "fr"; u "en"]);
     (u "energia", [u "es"]);
     (u "valor energ[ée]tico", [u "es"])]);
  (u "saturated_fat", [
     (u "mati[èe]res? grasses? satur[ée]s?", [u "fr"]);
     (u "acides? gras satur[ée]s?", [u "fr"]);
     (u "dont satur[ée]s?", [u "fr"]);
     (u "saturated fat", [u "en"]);
     (u "of which saturates", [u "en"]);
     (u "verzadigde vetzuren", [u "nl"]);
     (u "waarvan verzadigde", [u "nl"]);
     (u "gesättigte fettsäuren", [u "de"]);
     (u "[aá]cidos grasos saturados", [u "es"])]);
  (u "trans_fat", [
     (u "mati[èe]res? grasses? trans", [u "fr"]);
     (u "trans fat", [u "en"])]);
  (u "fat", [
     (u "mati[èe]res? grasses?", [u "fr"]);
     (u "graisses?", [u "fr"]);
     (u "lipides?", [u "fr"]);
     (u "total fat", [u "en"]);
     (u "vetten", [u "nl"]);
     (u "fett", [u "de"]);
     (u "grasas", [u "es"]);
     (u "l[íi]pidos", [u "es"])]);
  (u "sugar", [
     (u "sucres?", [u "fr"]);
     (u "sugars?", [u "en"]);
     (u "suikers?", [u "nl"]);
     (u "zucker", [u "de"]);
     (u "az[úu]cares", [u "es"])]);
  (u "carbohydrate", [
     (u "total carbohydrate", [u "en"]);
     (u "glucids?", [u "fr"]);
     (u "glucides?", [u "en"]);
     (u "koolhydraten", [u "nl"]);
     (u "koolhydraat", [u "nl"]);
     (u "kohlenhydrate", [u "de"]);
     (u "hidratos de carbono", [u "es"])]);
  (u "protein", [
     (u "prot[ée]ines?", [u "fr"]);
     (u "protein", [u "en"]);
     (u "eiwitten", [u "nl"]);
     (u "eiweiß", [u "de"]);
     (u "prote[íi]nas", [u "es"])]);
  (u "salt", [
     (u "sel", [u "fr"]);
     (u "salt", [u "en"]);
     (u "zout", [u "nl"]);
     (u "salz", [u "de"]);
     (u "sal", [u "es"])]);
  (u "fiber", [
     (u "fibres?", [u "en"; u "fr"]);
     (u "fibers?", [u "en"]);
     (u "fibres? alimentaires?", [u "fr"]);
     (u "(?:voedings)?vezels?", [u "nl"]);
     (u "ballaststoffe", [u "de"]);
     (u "fibra(?: alimentaria)?", [u "es"])]);
  (u "nutrition_values", [
     (u "informations? nutritionnelles?(?: moyennes?)?", [u "fr"]);
     (u "valeurs? nutritionnelles?(?: moyennes?)?", [u "fr"]);
     (u "analyse moyenne pour", [u "fr"]);
     (u "valeurs? nutritives?", [u "fr"]);
     (u "valeurs? moyennes?", [u "fr"]);
     (u "nutrition facts?", [u "en"]);
     (u "gemiddelde waarden per", [u "nl"])])
].

Definition NUTRIENT_UNITS : dict (list str) := [
  (u "energy", [u "kj"; u "kcal"]);
  (u "saturated_fat", [u "g"]);
  (u "trans_fat", [u "g"]);
  (u "fat", [u "g"]);
  (u "sugar", [u "g"]);
  (u "carbohydrate", [u "g"]);
  (u "protein", [u "g"]);
  (u "salt", [u "g"]);
  (u "fiber", [u "g"])
].

Definition compile_format (template : str) (args : list str) : result Pattern :=
  match format template args with
  | Some pattern => re_compile pattern
  | None => raise IndexError
  end.

Definition generate_nutrient_regex
           (nutrient_mentions : list NutrientMentionType) (units : list str)
  : result Pattern :=
  let nutrient_names := map fst nutrient_mentions in
  let nutrient_names_str := join (u "|") nutrient_names in
  let units_str := join (u "|") units in
  compile_format
    (u "(?<!\w)({}) ?(?:[:-] ?)?([0-9]+[,.]?[0-9]*) ?({})(?!\w)")
    [nutrient_names_str; units_str].

Definition generate_nutrient_mention_regex
           (nutrient_mentions : list NutrientMentionType) : result Pattern :=
  let nutrient_names := map fst nutrient_mentions in
  let nutrient_names_str := join (u "|") nutrient_names in
  compile_format (u "(?<!\w)({})(?!\w)") [nutrient_names_str].

(** Modelled from the spec: [OCRField] and [OCRRegex] of
    robotoff/insights/ocr/dataclass.py, which is missing.  This design uses
    exactly one view of the OCR text, the contiguous full-text
    reconstruction; a compiled matcher carries the field selector and the
    case-normalisation flag. *)
Inductive OCRField := full_text_contiguous.

Record OCRRegex := {
  regex : Pattern;
  field : OCRField;
  lowercase : bool
}.

(** [d[k] = v] *)
Definition setitem {V} (k : str) (v : V) (d : dict V) : dict V :=
  match dict_get k d with
  | Some _ => update k (fun _ => v) d
  | None => d ++ [(k, v)]
  end.

(** The two module-level dict comprehensions, run when the module is
    imported; an exception there aborts the import. *)
Definition values_regex_table
           (mention : dict (list NutrientMentionType))
           (units_catalog : dict (list str)) : result (dict OCRRegex) :=
  foldM (fun table (item : str * list str) =>
           let (nutrient, units) := item in
           nutrient_mentions <- getitem mention nutrient ;;
           r <- generate_nutrient_regex nutrient_mentions units ;;
           ret (setitem nutrient
                        {| regex := r; field := full_text_contiguous;
                           lowercase := true |} table))
        units_catalog [].

Definition mentions_regex_table
           (mention : dict (list NutrientMentionType))
  : result (dict OCRRegex) :=
  foldM (fun table nutrient =>
           nutrient_mentions <- getitem mention nutrient ;;
           r <- generate_nutrient_mention_regex nutrient_mentions ;;
           ret (setitem nutrient
                        {| regex := r; field := full_text_contiguous;
                           lowercase := true |} table))
        (keys mention) [].

Record Tables := {
  values_regex : dict OCRRegex;
  mentions_regex : dict OCRRegex
}.

Definition module_init
           (mention : dict (list NutrientMentionType))
           (units_catalog : dict (list str)) : result Tables :=
  v <- values_regex_table mention units_catalog ;;
  m <- mentions_regex_table mention ;;
  ret {| values_regex := v; mentions_regex := m |}.

(** The two tables as the import leaves them: the comprehensions do not
    raise on the tables of the source. *)
Definition NUTRIENT_VALUES_REGEX : dict OCRRegex :=
  Eval vm_compute in
    match values_regex_table NUTRIENT_MENTION NUTRIENT_UNITS with
    | inr table => table
    | inl _ => []
    end.

Definition NUTRIENT_MENTIONS_REGEX : dict OCRRegex :=
  Eval vm_compute in
    match mentions_regex_table NUTRIENT_MENTION with
    | inr table => table
    | inl _ => []
    end.

(** The compiled value matcher of "salt", and the same kind's matcher put
    together from the words of the specification. *)
Definition salt_value_regex : Pattern :=
  match dict_get (u "salt") NUTRIENT_VALUES_REGEX with
  | Some ocr_regex => regex ocr_regex
  | None => Eps
  end.

Definition salt_mention_regex : Pattern :=
  match dict_get (u "salt") NUTRIENT_MENTIONS_REGEX with
  | Some ocr_regex => regex ocr_regex
  | None => Eps
  end.

Definition salt_in_spec_words (separator : Pattern) : Pattern :=
  spec_value_matcher
    separator
    (union (map literal [u "sel"; u "salt"; u "zout"; u "salz"; u "sal"]))
    (union (map literal [u "g"])).

(** The JSON objects of the output. *)
Record ValueMatch := {
  vm_raw : str;
  vm_nutrient : str;
  vm_value : str;
  vm_unit : option str
}.

Record MentionMatch := {
  mm_raw : str;
  mm_span : list nat
}.

(** The envelope: the per-kind mapping under its key ("nutrients" or
    "mentions") and the extractor version. *)
Record Envelope (V : Type) := {
  payload_key : str;
  payload : dict (list V);
  version : str
}.

Section Extraction.

Variable unicode_isalnum : N -> bool.

(** The text source adapter [get_text(content, ocr_regex)] of
    robotoff/insights/ocr/dataclass.py, taken as a parameter: the text to
    search, or nothing. *)
Variable Content : Type.
Variable get_text : Content -> OCRRegex -> option str.

Definition value_entry (regex_code : str)
           (nutrients : dict (list ValueMatch)) (mo : Match)
  : result (dict (list ValueMatch)) :=
  number <- match group mo 2 with
            | Some g => ret g
            | None => raise AttributeError
            end ;;
  let value := replace_char 44 46 number in
  let unit := group mo 3 in
  let nutrients := setdefault regex_code [] nutrients in
  getitem_append nutrients regex_code
                 {| vm_raw := group0 mo; vm_nutrient := regex_code;
                    vm_value := value; vm_unit := unit |}.

Definition find_values_in (table : dict OCRRegex) (content : Content)
  : result (list (Envelope ValueMatch)) :=
  nutrients <-
    foldM (fun nutrients (item : str * OCRRegex) =>
             let (regex_code, ocr_regex) := item in
             match get_text content ocr_regex with
             | None => ret nutrients
             | Some [] => ret nutrients
             | Some text =>
               foldM (value_entry regex_code)
                     (finditer unicode_isalnum (regex ocr_regex) text)
                     nutrients
             end)
          table [] ;;
  match nutrients with
  | [] => ret []
  | _ => ret [{| payload_key := u "nutrients"; payload := nutrients;
                 version := EXTRACTOR_VERSION |}]
  end.

Definition find_nutrient_values (content : Content)
  : result (list (Envelope ValueMatch)) :=
  find_values_in NUTRIENT_VALUES_REGEX content.

Definition mention_entry (regex_code : str)
           (nutrients : dict (list MentionMatch)) (mo : Match)
  : result (dict (list MentionMatch)) :=
  let nutrients := setdefault regex_code [] nutrients in
  getitem_append nutrients regex_code
                 {| mm_raw := group0 mo;
                    mm_span := [fst (span mo); snd (span mo)] |}.

Definition find_mentions_in (table : dict OCRRegex) (content : Content)
  : result (list (Envelope MentionMatch)) :=
  nutrients <-
    foldM (fun nutrients (item : str * OCRRegex) =>
             let (regex_code, ocr_regex) := item in
             match get_text content ocr_regex with
             | None => ret nutrients
             | Some [] => ret nutrients
             | Some text =>
               foldM (mention_entry regex_code)
                     (finditer unicode_isalnum (regex ocr_regex) text)
                     nutrients
             end)
          table [] ;;
  match nutrients with
  | [] => ret []
  | _ => ret [{| payload_key := u "mentions"; payload := nutrients;
                 version := EXTRACTOR_VERSION |}]
  end.

Definition find_nutrient_mentions (content : Content)
  : result (list (Envelope MentionMatch)) :=
  find_mentions_in NUTRIENT_MENTIONS_REGEX content.

End Extraction.

(** The ASCII part of the Unicode database, to run the extraction on
    examples. *)
Definition ascii_isalnum (c : N) : bool :=
  ((48 <=? c) && (c <=? 57) || (65 <=? c) && (c <=? 90)
   || (97 <=? c) && (c <=? 122))%N.

(** [s.lower()] on ASCII letters. *)
Definition ascii_lower (s : str) : str :=
  map (fun c => if ((65 <=? c) && (c <=? 90))%N then (c + 32)%N else c) s.

(** Modelled from the spec: [get_text] on a raw string, which is missing
    with robotoff/insights/ocr/dataclass.py.  A raw string is used
    directly, whatever the field selector, in lower case when the matcher
    asks for it. *)
Definition str_get_text (content : str) (ocr_regex : OCRRegex) : option str :=
  Some (if lowercase ocr_regex then ascii_lower content else content).

Definition run_values := find_nutrient_values ascii_isalnum str_get_text.
Definition run_mentions := find_nutrient_mentions ascii_isalnum str_get_text.

(** ** What the two functions compute, stated directly

    The definitions below do not come from the source; the properties are
    stated and proved with them. *)

Section Accumulate.

Variable X : Type.

(** [d.setdefault(k, []); d[k].append(x)] *)
Definition add_entry (k : str) (x : X) (d : dict (list X)) : dict (list X) :=
  update k (fun l => l ++ [x]) (setdefault k [] d).

Definition add_entries (k : str) (xs : list X) (d : dict (list X))
  : dict (list X) :=
  fold_left (fun d x => add_entry k x d) xs d.

(** The mapping the loop over the kinds builds: each kind of the table, in
    the order of the table, with its matches, the kinds without a match
    left out. *)
Variable found : str -> OCRRegex -> list X.

Definition collect (table : dict OCRRegex) : dict (list X) :=
  flat_map (fun item : str * OCRRegex =>
              match found (fst item) (snd item) with
              | [] => []
              | l => [(fst item, l)]
              end) table.

End Accumulate.

(** A matcher of the value family: the value pattern, the second group
    being the number whatever the units are. *)
Definition value_shaped (r : Pattern) : Prop :=
  exists a us, r = value_matcher a us /\ ~ In 2 (groups us).

(** A matcher of the mention family. *)
Definition mention_shaped (r : Pattern) : Prop :=
  exists a, r = mention_matcher a.

(** A matcher fenced by the two word-boundary assertions. *)
Definition fenced (r : Pattern) : Prop :=
  (exists r', r = Cat (NotBehind [CWord]) r')
  /\ ends_with_not_ahead [CWord] r.

Section Found.

Variable unicode_isalnum : N -> bool.
Variable Content : Type.
Variable get_text : Content -> OCRRegex -> option str.

(** The matches the loop body sees for one matcher: those found in the
    text the adapter returns, none when it returns no text or an empty
    one. *)
Definition matches_in (content : Content) (ocr_regex : OCRRegex)
  : list Match :=
  match get_text content ocr_regex with
  | None => []
  | Some [] => []
  | Some text => finditer unicode_isalnum (regex ocr_regex) text
  end.

(** The entries built from a match. *)
Definition value_of (regex_code : str) (mo : Match) : ValueMatch :=
  {| vm_raw := group0 mo;
     vm_nutrient := regex_code;
     vm_value := replace_char 44 46 (match group mo 2 with
                                     | Some g => g
                                     | None => []
                                     end);
     vm_unit := group mo 3 |}.

Definition mention_of (mo : Match) : MentionMatch :=
  {| mm_raw := group0 mo; mm_span := [m_start mo; m_end mo] |}.

Definition values_found (content : Content) (k : str) (r : OCRRegex)
  : list ValueMatch := map (value_of k) (matches_in content r).

Definition mentions_found (content : Content) (k : str) (r : OCRRegex)
  : list MentionMatch := map mention_of (matches_in content r).

(** Zero or one envelope. *)
Definition assemble {V} (key : str) (d : dict (list V)) : list (Envelope V) :=
  match d with
  | [] => []
  | _ => [{| payload_key := key; payload := d;
             version := EXTRACTOR_VERSION |}]
  end.

End Found.

(** Example data: what the extraction returns on the label "Sel 0,1g", and
    the match of "sel" in "du sel fin". *)
Definition salt_value : ValueMatch :=
  {| vm_raw := u "sel 0,1g"; vm_nutrient := u "salt";
     vm_value := u "0.1"; vm_unit := Some (u "g") |}.

Definition salt_values_envelope : Envelope ValueMatch :=
  {| payload_key := u "nutrients";
     payload := [(u "salt", [salt_value])];
     version := u "1" |}.

Definition salt_mention : MentionMatch :=
  {| mm_raw := u "sel"; mm_span := [0; 3] |}.

Definition salt_mentions_envelope : Envelope MentionMatch :=
  {| payload_key := u "mentions";
     payload := [(u "salt", [salt_mention])];
     version := u "1" |}.

Definition sel_in_du_sel_fin : Match :=
  {| m_string := u "du sel fin"; m_start := 3; m_end := 6;
     m_caps := [(1, (3, 6))] |}.

(** What find_nutrient_mentions returns on "Sel fin, sel gris": two
    mentions of salt, in the order of the text. *)
Definition sel_fin_sel_gris : list MentionMatch :=
  [{| mm_raw := u "sel"; mm_span := [0; 3] |};
   {| mm_raw := u "sel"; mm_span := [9; 12] |}].

Definition sel_fin_sel_gris_envelope : Envelope MentionMatch :=
  {| payload_key := u "mentions";
     payload := [(u "salt", sel_fin_sel_gris)];
     version := u "1" |}.

(** ** robotoff/models.py: batch_insert

    [model_cls.insert_many(inserts).execute()] submits one chunk of rows to
    the database; the effect is modelled as the log of the chunks submitted
    so far. *)

Section BatchInsert.

Variable Item : Type.

Record batch_state := {
  rows : Z;
  inserts : list Item;
  submitted : list (list Item)
}.

(** One turn of the loop; [rows % batch_size] raises for a zero divisor. *)
Definition batch_step (batch_size : Z) (st : batch_state) (item : Item)
  : result batch_state :=
  let inserts := inserts st ++ [item] in
  let rows := (rows st + 1)%Z in
  if (batch_size =? 0)%Z then raise ZeroDivisionError
  else if (rows mod batch_size =? 0)%Z then
    ret {| rows := rows; inserts := [];
           submitted := submitted st ++ [inserts] |}
  else
    ret {| rows := rows; inserts := inserts; submitted := submitted st |}.

(** Returns the row count, and the chunks submitted, in order. *)
Definition batch_insert (data : list Item) (batch_size : Z)
  : result (Z * list (list Item)) :=
  st <- foldM (batch_step batch_size) data
              {| rows := 0; inserts := []; submitted := [] |} ;;
  match inserts st with
  | [] => ret (rows st, submitted st)
  | _ => ret (rows st, submitted st ++ [inserts st])
  end.

(** What holds between two turns of the loop, [consumed] being the items
    taken so far. *)
Record batch_inv (batch_size : Z) (st : batch_state)
       (consumed : list Item) : Prop := {
  inv_rows : rows st = Z.of_nat (List.length consumed);
  inv_items : List.concat (submitted st) ++ inserts st = consumed;
  inv_full :
    Forall (fun c => Z.of_nat (List.length c) = batch_size) (submitted st);
  inv_pending :
    Z.of_nat (List.length (inserts st)) = (rows st mod batch_size)%Z
}.

End BatchInsert.

(** A run that starts [d] rows later, [d] a multiple of the batch size,
    with [pre] already submitted, goes through the same steps. *)
Definition shifted {Item} (d : Z) (pre : list (list Item))
           (st st' : batch_state Item) : Prop :=
  rows st' = (rows st + d)%Z
  /\ inserts st' = inserts st
  /\ submitted st' = pre ++ submitted st.

(** ** robotoff/models.py: ProductInsight *)

(** [d.update(other)], which is also what [**other] does inside a dict
    display: a key already there keeps its place and takes the new value,
    a new key goes to the end. *)
Definition dict_update {V} (d other : dict V) : dict V :=
  fold_left (fun acc (kv : str * V) => setitem (fst kv) (snd kv) acc) other d.

(** A dict display [{k1: v1, k2: v2, ...}]: the entries are stored from
    left to right. *)
Definition dict_display {V} (items : list (str * V)) : dict V :=
  dict_update [] items.

(** [k in ks] *)
Definition has_key (ks : list str) (k : str) : bool := existsb (str_eqb k) ks.

(** JSON values, as the fields of a row and the serialised rows hold them.
    Floating-point numbers are carried, never computed with. *)
Set Warnings "-register-all".

Section JSONValues.

Variable Float : Type.

Inductive JSON :=
| JNull
| JBool (b : bool)
| JInt (n : Z)
| JFloat (x : Float)
| JStr (s : str)
| JArr (items : list JSON)
| JObj (members : list (str * JSON)).

End JSONValues.

Arguments JNull {Float}.
Arguments JBool {Float} b.
Arguments JInt {Float} n.
Arguments JStr {Float} s.

Module ProductInsight.

Section Model.

Variable Float : Type.

(** The values of the UUID and date-time fields, with [str(uuid)] and
    [datetime.isoformat()]. *)
Variable UUID : Type.
Variable datetime : Type.
Variable uuid_str : UUID -> str.
Variable isoformat : datetime -> str.

(** A row; a field declared [null=True] may hold [None]. *)
Record t := {
  id : UUID;
  barcode : str;
  type : str;
  data : JSON Float;
  timestamp : option datetime;
  completed_at : option datetime;
  annotation : option Z;
  latent : bool;
  countries : JSON Float;
  brands : JSON Float;
  process_after : option datetime;
  value_tag : option str;
  value : option str;
  source_image : option str;
  automatic_processing : bool;
  server_domain : option str;
  server_type : option str;
  unique_scans_n : Z;
  reserved_barcode : bool
}.

(** A value or [None]. *)
Definition nullable {A} (f : A -> JSON Float) (x : option A) : JSON Float :=
  match x with
  | Some a => f a
  | None => JNull
  end.

Definition iso (d : datetime) : JSON Float := JStr (isoformat d).

(** [**self.data] on a value that is no mapping. *)
Inductive error := TypeError.

(** The five entries the short form starts from. *)
Definition short_entries (self : t) : list (str * JSON Float) :=
  [(u "id", JStr (uuid_str (id self)));
   (u "type", JStr (type self));
   (u "barcode", JStr (barcode self));
   (u "countries", countries self);
   (u "source_image", nullable JStr (source_image self))].

Definition full_entries (self : t) : list (str * JSON Float) :=
  [(u "id", JStr (uuid_str (id self)));
   (u "barcode", JStr (barcode self));
   (u "type", JStr (type self));
   (u "data", data self);
   (u "timestamp", nullable iso (timestamp self));
   (u "completed_at", nullable iso (completed_at self));
   (u "annotation", nullable JInt (annotation self));
   (u "countries", countries self);
   (u "brands", brands self);
   (u "process_after", nullable iso (process_after self));
   (u "value_tag", nullable JStr (value_tag self));
   (u "value", nullable JStr (value self));
   (u "source_image", nullable JStr (source_image self));
   (u "automatic_processing", JBool (automatic_processing self));
   (u "server_domain", nullable JStr (server_domain self));
   (u "server_type", nullable JStr (server_type self));
   (u "unique_scans_n", JInt (unique_scans_n self));
   (u "latent", JBool (latent self))].

Definition serialize (self : t) (full : bool)
  : (error + dict (JSON Float))%type :=
  if full then inr (dict_display (full_entries self))
  else
    match data self with
    | JObj members => inr (dict_update (dict_display (short_entries self))
                                       members)
    | _ => inl TypeError
    end.

End Model.

Section Create.

(** The values of the fields of a row, and [cls.create( **values)], which
    inserts the row and returns it. *)
Variable V : Type.
Variable Row : Type.
Variable create : dict V -> Row.

(** [latent_data] is [latent_insight.__data__]. *)
Definition create_from_latent (latent_data : dict V) (kwargs : dict V)
  : Row :=
  let updated_values := dict_update (dict_update [] latent_data) kwargs in
  create updated_values.

End Create.

End ProductInsight.

(** Example data: a row whose data has a "type" of its own, with UUIDs and
    dates held as their texts. *)
Definition example_insight : ProductInsight.t unit str str :=
  {| ProductInsight.id := u "0b5d";
     ProductInsight.barcode := u "3017620422003";
     ProductInsight.type := u "nutrient";
     ProductInsight.data :=
       JObj [(u "type", JStr (u "label")); (u "version", JStr (u "1"))];
     ProductInsight.timestamp := None;
     ProductInsight.completed_at := None;
     ProductInsight.annotation := Some 1%Z;
     ProductInsight.latent := false;
     ProductInsight.countries := JArr [JStr (u "en:france")];
     ProductInsight.brands := JNull;
     ProductInsight.process_after := None;
     ProductInsight.value_tag := None;
     ProductInsight.value := None;
     ProductInsight.source_image := Some (u "/301/1.jpg");
     ProductInsight.automatic_processing := false;
     ProductInsight.server_domain := None;
     ProductInsight.server_type := None;
     ProductInsight.unique_scans_n := 0%Z;
     ProductInsight.reserved_barcode := false |}.

(** ** Further notions about patterns and matches *)

(** A pattern without groups and without assertions on the neighbouring
    characters: what it matches does not depend on where the text sits. *)
Fixpoint plain (r : Pattern) : bool :=
  match r with
  | Eps | Chr _ | Cls _ => true
  | Cat a b | Alt a b => plain a && plain b
  | Opt a | Star a | Plus a => plain a
  | Grp _ _ | NotBehind _ | NotAhead _ => false
  end.

(** The least number of characters a match of the pattern takes. *)
Fixpoint min_len (r : Pattern) : nat :=
  match r with
  | Eps => 0
  | Chr _ | Cls _ => 1
  | Cat a b => min_len a + min_len b
  | Alt a b => Nat.min (min_len a) (min_len b)
  | Opt _ | Star _ => 0
  | Plus a => min_len a
  | Grp _ a => min_len a
  | NotBehind _ | NotAhead _ => 0
  end.

Section Consumes.

Variable unicode_isalnum : N -> bool.

(** Somewhere in some text, a match of [r] takes exactly the word [w]. *)
Definition consumes (r : Pattern) (w : str) : Prop :=
  exists p s c c', rmatch unicode_isalnum r p (w ++ s) c (rev w ++ p) s c'.

End Consumes.

(** Matches listed from left to right, none starting before [lo] or before
    the end of the one listed before it. *)
Fixpoint ordered_from (lo : nat) (l : list Match) : Prop :=
  match l with
  | [] => True
  | mo :: rest =>
    lo <= m_start mo /\ m_start mo <= m_end mo
    /\ ordered_from (m_end mo) rest
  end.

(** Mention entries whose spans are non-empty, lie between [lo] and [hi],
    and follow one another without overlap. *)
Fixpoint spans_from (lo hi : nat) (l : list MentionMatch) : Prop :=
  match l with
  | [] => True
  | mm :: rest =>
    exists a b, mm_span mm = [a; b]
                /\ lo <= a /\ a < b /\ b <= hi
                /\ spans_from b hi rest
  end.

(** ** The import of the module, whatever [re.compile] accepts

    The two generating functions and the two module-level comprehensions
    once more, with [re.compile] taken as a parameter: the compiled object
    is opaque, and which patterns compile, and with which exception the
    others are refused, is left to the parameter.  What is proved of the
    import with these definitions does not depend on the syntax of
    regular expressions. *)

Module WithCompile.

Section Tables.

Variable Compiled : Type.
Variable re_compile : str -> result Compiled.

Definition compile_format (template : str) (args : list str)
  : result Compiled :=
  match format template args with
  | Some pattern => re_compile pattern
  | None => raise IndexError
  end.

Definition generate_nutrient_regex
           (nutrient_mentions : list NutrientMentionType) (units : list str)
  : result Compiled :=
  let nutrient_names := map fst nutrient_mentions in
  let nutrient_names_str := join (u "|") nutrient_names in
  let units_str := join (u "|") units in
  compile_format
    (u "(?<!\w)({}) ?(?:[:-] ?)?([0-9]+[,.]?[0-9]*) ?({})(?!\w)")
    [nutrient_names_str; units_str].

Definition generate_nutrient_mention_regex
           (nutrient_mentions : list NutrientMentionType) : result Compiled :=
  let nutrient_names := map fst nutrient_mentions in
  let nutrient_names_str := join (u "|") nutrient_names in
  compile_format (u "(?<!\w)({})(?!\w)") [nutrient_names_str].

Record OCRRegex := {
  regex : Compiled;
  field : OCRField;
  lowercase : bool
}.

Definition values_regex_table
           (mention : dict (list NutrientMentionType))
           (units_catalog : dict (list str)) : result (dict OCRRegex) :=
  foldM (fun table (item : str * list str) =>
           let (nutrient, units) := item in
           nutrient_mentions <- getitem mention nutrient ;;
           r <- generate_nutrient_regex nutrient_mentions units ;;
           ret (setitem nutrient
                        {| regex := r; field := full_text_contiguous;
                           lowercase := true |} table))
        units_catalog [].

Definition mentions_regex_table
           (mention : dict (list NutrientMentionType))
  : result (dict OCRRegex) :=
  foldM (fun table nutrient =>
           nutrient_mentions <- getitem mention nutrient ;;
           r <- generate_nutrient_mention_regex nutrient_mentions ;;
           ret (setitem nutrient
                        {| regex := r; field := full_text_contiguous;
                           lowercase := true |} table))
        (keys mention) [].

Record Tables := {
  values_regex : dict OCRRegex;
  mentions_regex : dict OCRRegex
}.

Definition module_init
           (mention : dict (list NutrientMentionType))
           (units_catalog : dict (list str)) : result Tables :=
  v <- values_regex_table mention units_catalog ;;
  m <- mentions_regex_table mention ;;
  ret {| values_regex := v; mentions_regex := m |}.

(** The entry one turn of each comprehension builds. *)
Definition value_entry_of (mention : dict (list NutrientMentionType))
           (item : str * list str) : result OCRRegex :=
  nutrient_mentions <- getitem mention (fst item) ;;
  r <- generate_nutrient_regex nutrient_mentions (snd item) ;;
  ret {| regex := r; field := full_text_contiguous; lowercase := true |}.

Definition mention_entry_of (mention : dict (list NutrientMentionType))
           (nutrient : str) : result OCRRegex :=
  nutrient_mentions <- getitem mention nutrient ;;
  r <- generate_nutrient_mention_regex nutrient_mentions ;;
  ret {| regex := r; field := full_text_contiguous; lowercase := true |}.

End Tables.

End WithCompile.

(** With the parser of this file for [re.compile], an entry and the two
    tables as they are held above. *)
Definition as_OCRRegex (r : WithCompile.OCRRegex Pattern) : OCRRegex :=
  {| regex := WithCompile.regex r;
     field := WithCompile.field r;
     lowercase := WithCompile.lowercase r |}.

Definition as_table (table : dict (WithCompile.OCRRegex Pattern))
  : dict OCRRegex :=
  map (fun kv => (fst kv, as_OCRRegex (snd kv))) table.

Definition as_Tables (t : WithCompile.Tables Pattern) : Tables :=
  {| values_regex := as_table (WithCompile.values_regex t);
     mentions_regex := as_table (WithCompile.mentions_regex t) |}.

(** Example data: a [re.compile] that takes every pattern and keeps its
    text, a mention dictionary with a fragment in a syntax the parser of
    this file does not read, and two unit catalogs, the second with a kind
    the mention dictionary does not list. *)
Definition accept_all (pattern : str) : result str := ret pattern.

Definition mention_s_l : dict (list NutrientMentionType) :=
  [(u "salt", [(u "s.l", [u "fr"])]); (u "fiber", [(u "fibres?", [u "fr"])])].

Definition units_salt : dict (list str) := [(u "salt", [u "g"])].

Definition units_salt_zinc : dict (list str) :=
  [(u "salt", [u "g"]); (u "zinc", [u "mg"])].

Definition tables_s_l : WithCompile.Tables str :=
  Eval vm_compute in
    match WithCompile.module_init accept_all mention_s_l units_salt with
    | inr t => t
    | inl _ => {| WithCompile.values_regex := [];
                  WithCompile.mentions_regex := [] |}
    end.

Section Comprehension.

Variable A V : Type.
Variable key : A -> str.
Variable build : A -> result V.

(** One turn of a dict comprehension: the entry of [item] is built and
    stored under its key. *)
Definition comprehension (table : dict V) (item : A) : result (dict V) :=
  v <- build item ;; ret (setitem (key item) v table).

End Comprehension.

(** ** The two functions over a store of Python objects

    [find_nutrient_values] and [find_nutrient_mentions] once more, this
    time with the objects they create and mutate held in a store: the dict
    [nutrients], created by the call, and the lists under its keys, each
    created as the default of [setdefault] and extended in place by
    [append].  A call starts from the store as the earlier calls and the
    rest of the program left it, and hands back references into the store
    it leaves.  The entries, literal dicts that nothing changes once they
    are built, are held by value. *)

Inductive entry :=
| Value (vm : ValueMatch)
| Mention (mm : MentionMatch).

Module Store.

Definition ref := nat.

Inductive object :=
| Dict (items : dict ref)
| PyList (items : list entry).

(** The store: the objects created so far, a reference being the rank of
    its object. *)
Definition store := list object.

(** A statement: from a store, an exception or a value and the store it
    leaves. *)
Definition M (A : Type) := store -> result (A * store).

Definition pure {A} (a : A) : M A := fun s => ret (a, s).

Definition fail {A} (e : exn) : M A := fun _ => raise e.

Definition lift {A} (x : result A) : M A := fun s => a <- x ;; ret (a, s).

Definition and_then {A B} (m : M A) (f : A -> M B) : M B :=
  fun s => p <- m s ;; f (fst p) (snd p).

Notation "x <~ c1 ;; c2" := (and_then c1 (fun x => c2))
  (at level 61, c1 at next level, right associativity).

Fixpoint for_each {A} (body : A -> M unit) (items : list A)
  : M unit :=
  match items with
  | [] => pure tt
  | x :: rest => _ <~ body x ;; for_each body rest
  end.

(** A new object, at the end of the store. *)
Definition new (o : object) : M ref :=
  fun s => ret (List.length s, s ++ [o]).

Definition load (r : ref) : M object :=
  fun s => match nth_error s r with
           | Some o => ret (o, s)
           | None => raise AttributeError
           end.

Fixpoint replace_nth (r : ref) (o : object) (s : store) : store :=
  match s, r with
  | [], _ => []
  | _ :: rest, 0 => o :: rest
  | x :: rest, S r' => x :: replace_nth r' o rest
  end.

Definition save (r : ref) (o : object) : M unit :=
  fun s => ret (tt, replace_nth r o s).

(** [d.setdefault(k, default)], for its effect on the dict at [d].  An
    object of the other kind has no such method. *)
Definition dict_setdefault (d : ref) (k : str) (default : ref)
  : M unit :=
  o <~ load d ;;
  match o with
  | Dict items =>
    match dict_get k items with
    | Some _ => pure tt
    | None => save d (Dict (items ++ [(k, default)]))
    end
  | PyList _ => fail AttributeError
  end.

(** [d[k]], a reference to the object stored under [k]. *)
Definition dict_getitem (d : ref) (k : str) : M ref :=
  o <~ load d ;;
  match o with
  | Dict items => lift (getitem items k)
  | PyList _ => fail AttributeError
  end.

(** [l.append(x)]: the list at [l] is extended in place. *)
Definition list_append (l : ref) (x : entry) : M unit :=
  o <~ load l ;;
  match o with
  | PyList items => save l (PyList (items ++ [x]))
  | Dict _ => fail AttributeError
  end.

(** [not d] *)
Definition dict_is_empty (d : ref) : M bool :=
  o <~ load d ;;
  match o with
  | Dict [] => pure true
  | Dict _ => pure false
  | PyList _ => fail AttributeError
  end.

(** The envelope returned, its mapping by reference. *)
Record Envelope := {
  payload_key : str;
  payload : ref;
  version : str
}.

Section Extraction.

Variable unicode_isalnum : N -> bool.
Variable Content : Type.
Variable get_text : Content -> OCRRegex -> option str.

Definition value_entry (regex_code : str) (nutrients : ref) (mo : Match)
  : M unit :=
  number <~ lift (match group mo 2 with
                  | Some g => ret g
                  | None => raise AttributeError
                  end) ;;
  let value := replace_char 44 46 number in
  let unit := group mo 3 in
  default <~ new (PyList []) ;;
  _ <~ dict_setdefault nutrients regex_code default ;;
  l <~ dict_getitem nutrients regex_code ;;
  list_append l (Value {| vm_raw := group0 mo; vm_nutrient := regex_code;
                          vm_value := value; vm_unit := unit |}).

Definition find_values_in (table : dict OCRRegex) (content : Content)
  : M (list Envelope) :=
  nutrients <~ new (Dict []) ;;
  _ <~ for_each (fun item : str * OCRRegex =>
                   let (regex_code, ocr_regex) := item in
                   match get_text content ocr_regex with
                   | None => pure tt
                   | Some [] => pure tt
                   | Some text =>
                     for_each (value_entry regex_code nutrients)
                              (finditer unicode_isalnum (regex ocr_regex)
                                        text)
                   end)
                table ;;
  empty <~ dict_is_empty nutrients ;;
  if empty : bool
  then pure []
  else pure [{| payload_key := u "nutrients"; payload := nutrients;
                version := EXTRACTOR_VERSION |}].

Definition find_nutrient_values (content : Content) : M (list Envelope) :=
  find_values_in NUTRIENT_VALUES_REGEX content.

Definition mention_entry (regex_code : str) (nutrients : ref) (mo : Match)
  : M unit :=
  default <~ new (PyList []) ;;
  _ <~ dict_setdefault nutrients regex_code default ;;
  l <~ dict_getitem nutrients regex_code ;;
  list_append l (Mention {| mm_raw := group0 mo;
                            mm_span := [fst (span mo); snd (span mo)] |}).

Definition find_mentions_in (table : dict OCRRegex) (content : Content)
  : M (list Envelope) :=
  nutrients <~ new (Dict []) ;;
  _ <~ for_each (fun item : str * OCRRegex =>
                   let (regex_code, ocr_regex) := item in
                   match get_text content ocr_regex with
                   | None => pure tt
                   | Some [] => pure tt
                   | Some text =>
                     for_each (mention_entry regex_code nutrients)
                              (finditer unicode_isalnum (regex ocr_regex)
                                        text)
                   end)
                table ;;
  empty <~ dict_is_empty nutrients ;;
  if empty : bool
  then pure []
  else pure [{| payload_key := u "mentions"; payload := nutrients;
                version := EXTRACTOR_VERSION |}].

Definition find_nutrient_mentions (content : Content) : M (list Envelope) :=
  find_mentions_in NUTRIENT_MENTIONS_REGEX content.

End Extraction.

(** What a reference holds, read out of a store: the list at [l], the
    mapping at [d] with the list under each key, and a returned sequence of
    envelopes, each with its mapping. *)
Definition read_list (s : store) (l : ref) : option (list entry) :=
  match nth_error s l with
  | Some (PyList items) => Some items
  | _ => None
  end.

Fixpoint read_items (s : store) (items : dict ref)
  : option (dict (list entry)) :=
  match items with
  | [] => Some []
  | (k, l) :: rest =>
    match read_list s l, read_items s rest with
    | Some xs, Some d => Some ((k, xs) :: d)
    | _, _ => None
    end
  end.

Definition read_dict (s : store) (d : ref) : option (dict (list entry)) :=
  match nth_error s d with
  | Some (Dict items) => read_items s items
  | _ => None
  end.

End Store.

Definition read_envelope (s : Store.store) (env : Store.Envelope)
  : option (Envelope entry) :=
  match Store.read_dict s (Store.payload env) with
  | Some d => Some {| payload_key := Store.payload_key env;
                      payload := d;
                      version := Store.version env |}
  | None => None
  end.

Fixpoint read (s : Store.store) (out : list Store.Envelope)
  : option (list (Envelope entry)) :=
  match out with
  | [] => Some []
  | env :: rest =>
    match read_envelope s env, read s rest with
    | Some e, Some l => Some (e :: l)
    | _, _ => None
    end
  end.

(** An envelope of the first embedding, its entries as they are held in
    the store. *)
Definition entries_of {V} (inj : V -> entry) (d : dict (list V))
  : dict (list entry) :=
  map (fun kv => (fst kv, map inj (snd kv))) d.

Definition envelope_of {V} (inj : V -> entry) (env : Envelope V)
  : Envelope entry :=
  {| payload_key := payload_key env;
     payload := entries_of inj (payload env);
     version := version env |}.

(** The dict at [d] holds the mapping [m] in the store [s]: key by key in
    the same order, each key with a list of its own, the dict and the lists
    created after the first [n0] objects of the store. *)
Definition holds {V} (inj : V -> entry) (n0 : nat) (s : Store.store)
           (d : Store.ref) (m : dict (list V)) : Prop :=
  n0 <= d
  /\ exists items,
       nth_error s d = Some (Store.Dict items)
       /\ Forall2 (fun (it : str * Store.ref) (kv : str * list V) =>
                     fst it = fst kv
                     /\ n0 <= snd it
                     /\ nth_error s (snd it)
                        = Some (Store.PyList (map inj (snd kv))))
                  items m
       /\ NoDup (map snd items).

(** A store in which a first call has already run, on another label. *)
Definition store_after_a_call : Store.store :=
  Eval vm_compute in
    match Store.find_nutrient_values ascii_isalnum str_get_text
                                     (u "Sucre: 5 g, sucres 3g") [] with
    | inr (_, s) => s
    | inl _ => []
    end.

(** * Properties *)

Lemma str_eqb_eq (a b : str) : str_eqb a b = true <-> a = b.
Proof.
  unfold str_eqb. destruct (list_eq_dec N.eq_dec a b); split; congruence.
Qed.

Lemma str_eqb_refl (a : str) : str_eqb a a = true.
Proof. now apply str_eqb_eq. Qed.

Example format_demo :
  format (u "a{}b{}c") [u "X"; u "éY"] = Some (u "aXbéYc")
  /\ u "é" = [233%N] /\ join (u "|") [u "kj"; u "kcal"] = u "kj|kcal".
Proof. repeat split; reflexivity. Qed.

Example re_compile_demo :
  re_compile (u "(?<!\w)(sel|a[ée]s?) ?(?:[:-] ?)?([0-9]+)(?!\w)")
  = ret (Cat (NotBehind [CWord])
          (Cat (Grp 1 (Alt (literal (u "sel"))
                           (Cat (Chr 97) (Cat (Cls [CChar 233; CChar 101])
                                              (Opt (Chr 115))))))
          (Cat (Opt (Chr 32))
          (Cat (Opt (Cat (Cls [CChar 58; CChar 45]) (Opt (Chr 32))))
          (Cat (Grp 2 (Plus (Cls [CRange 48 57])))
               (NotAhead [CWord])))))).
Proof. reflexivity. Qed.

(** The scenarios of the specification, on raw strings. *)
Example scenario_values :
  run_values (u "Energie 250kcal Proteines 5g Sel 0,1g")
  = ret [{| payload_key := u "nutrients";
            payload :=
              [(u "energy",
                [{| vm_raw := u "energie 250kcal"; vm_nutrient := u "energy";
                    vm_value := u "250"; vm_unit := Some (u "kcal") |}]);
               (u "protein",
                [{| vm_raw := u "proteines 5g"; vm_nutrient := u "protein";
                    vm_value := u "5"; vm_unit := Some (u "g") |}]);
               (u "salt",
                [{| vm_raw := u "sel 0,1g"; vm_nutrient := u "salt";
                    vm_value := u "0.1"; vm_unit := Some (u "g") |}])];
            version := u "1" |}].
Proof. vm_compute. reflexivity. Qed.

Example scenario_mentions :
  run_mentions (u "Energie 250kcal Proteines 5g Sel 0,1g")
  = ret [{| payload_key := u "mentions";
            payload :=
              [(u "energy", [{| mm_raw := u "energie"; mm_span := [0; 7] |}]);
               (u "protein",
                [{| mm_raw := u "proteines"; mm_span := [16; 25] |}]);
               (u "salt", [{| mm_raw := u "sel"; mm_span := [29; 32] |}])];
            version := u "1" |}].
Proof. vm_compute. reflexivity. Qed.

Example scenario_nothing :
  run_values (u "") = ret [] /\ run_mentions (u "") = ret []
  /\ run_mentions (u "conseil d'utilisation") = ret []
  /\ run_values (u "478 kcal") = ret [].
Proof. repeat split; vm_compute; reflexivity. Qed.

(** ** batch_insert *)

Section BatchInsertProps.

Variable Item : Type.
Variable batch_size : Z.
Hypothesis batch_size_pos : (0 < batch_size)%Z.

Lemma mod_succ_zero (n : Z) :
  (0 <= n)%Z -> ((n + 1) mod batch_size = 0)%Z ->
  (n mod batch_size + 1 = batch_size)%Z.
Proof.
  intros Hn H0.
  pose proof (Z.div_mod n batch_size ltac:(lia)) as E1.
  pose proof (Z.div_mod (n + 1) batch_size ltac:(lia)) as E2.
  pose proof (Z.mod_pos_bound n batch_size batch_size_pos) as B1.
  rewrite H0 in E2.
  assert (Hq : ((n + 1) / batch_size - n / batch_size = 1)%Z) by nia.
  nia.
Qed.

Lemma mod_succ_nonzero (n : Z) :
  (0 <= n)%Z -> ((n + 1) mod batch_size <> 0)%Z ->
  ((n + 1) mod batch_size = n mod batch_size + 1)%Z.
Proof.
  intros Hn H0.
  pose proof (Z.div_mod n batch_size ltac:(lia)) as E1.
  pose proof (Z.div_mod (n + 1) batch_size ltac:(lia)) as E2.
  pose proof (Z.mod_pos_bound n batch_size batch_size_pos) as B1.
  pose proof (Z.mod_pos_bound (n + 1) batch_size batch_size_pos) as B2.
  assert (Hq : ((n + 1) / batch_size - n / batch_size = 0)%Z) by nia.
  nia.
Qed.

Lemma batch_step_inv (st : batch_state Item) consumed item :
  batch_inv batch_size st consumed ->
  exists st', batch_step batch_size st item = ret st'
              /\ batch_inv batch_size st' (consumed ++ [item]).
Proof.
  intros [Hr Hi Hf Hp]. unfold batch_step.
  destruct (Z.eqb_spec batch_size 0) as [E|_]; [lia|].
  assert (Hn : (0 <= rows st)%Z) by lia.
  destruct (Z.eqb_spec ((rows st + 1) mod batch_size) 0) as [E|E].
  - eexists; split; [reflexivity|].
    pose proof (mod_succ_zero Hn E) as Hfull.
    constructor; simpl.
    + rewrite Hr, length_app; simpl; lia.
    + rewrite concat_app; simpl. rewrite !app_nil_r, app_assoc.
      now rewrite Hi.
    + apply Forall_app; split; [assumption|].
      constructor; [|constructor]. rewrite length_app; simpl; lia.
    + now rewrite E.
  - eexists; split; [reflexivity|].
    pose proof (mod_succ_nonzero Hn E) as Hnext.
    constructor; simpl.
    + rewrite Hr, length_app; simpl; lia.
    + now rewrite app_assoc, Hi.
    + assumption.
    + rewrite length_app; simpl; lia.
Qed.

Lemma batch_loop_inv data : forall (st : batch_state Item) consumed,
  batch_inv batch_size st consumed ->
  exists st', foldM (batch_step batch_size) data st = ret st'
              /\ batch_inv batch_size st' (consumed ++ data).
Proof.
  induction data as [|item data IH]; intros st consumed Hinv; simpl.
  - exists st; split; [reflexivity|]. now rewrite app_nil_r.
  - destruct (batch_step_inv item Hinv) as (st1 & E1 & Hinv1).
    rewrite E1; simpl.
    destruct (IH _ _ Hinv1) as (st2 & E2 & Hinv2).
    exists st2; split; [assumption|]. now rewrite <- app_assoc in Hinv2.
Qed.

End BatchInsertProps.

(** C10: for a finite sequence of items and a positive batch size,
    batch_insert returns the number of items, and the chunks it submits,
    in order, concatenate to the input (every item once, in input order);
    every chunk has between 1 and batch_size items, every chunk but the
    last is full, and the last one holds the remainder when the item count
    is not a multiple of batch_size. *)
Theorem batch_insert_submits_all (Item : Type) (data : list Item)
        (batch_size : Z) :
  (0 < batch_size)%Z ->
  exists chunks,
    batch_insert data batch_size = ret (Z.of_nat (List.length data), chunks)
    /\ List.concat chunks = data
    /\ Forall (fun c => (0 < Z.of_nat (List.length c) <= batch_size)%Z) chunks
    /\ (forall front last, chunks = front ++ [last] ->
        Forall (fun c => Z.of_nat (List.length c) = batch_size) front
        /\ Z.of_nat (List.length last)
           = (if (Z.of_nat (List.length data) mod batch_size =? 0)%Z
              then batch_size
              else Z.of_nat (List.length data) mod batch_size)%Z).
Proof.
  intros Hpos.
  assert (Hinit : batch_inv batch_size
                            {| rows := 0; inserts := []; submitted := [] |}
                            (@nil Item)).
  { constructor; simpl.
    - reflexivity.
    - reflexivity.
    - constructor.
    - now rewrite Z.mod_0_l by lia. }
  destruct (batch_loop_inv Hpos data Hinit) as (st & Erun & [Hr Hi Hf Hp]).
  simpl in Hr, Hi. unfold batch_insert. rewrite Erun; simpl.
  pose proof (Z.mod_pos_bound (rows st) batch_size Hpos) as Hb.
  assert (Hfull : Forall (fun c => (0 < Z.of_nat (List.length c)
                                    <= batch_size)%Z) (submitted st)).
  { eapply Forall_impl; [|exact Hf]. simpl; intros c Hc; lia. }
  destruct (inserts st) as [|x pending] eqn:Ein.
  - exists (submitted st). rewrite app_nil_r in Hi. simpl in Hp.
    split; [now rewrite Hr|]. split; [assumption|]. split; [assumption|].
    intros front last E. rewrite E in Hf. apply Forall_app in Hf.
    destruct Hf as [Hfront Hlast]. split; [assumption|].
    apply Forall_inv in Hlast.
    rewrite <- Hr, <- Hp. simpl. exact Hlast.
  - exists (submitted st ++ [x :: pending]).
    assert (Hlen : Z.of_nat (List.length (x :: pending)) <> 0%Z)
      by (simpl; lia).
    split; [now rewrite Hr|]. split.
    { rewrite concat_app; simpl. now rewrite app_nil_r. }
    split.
    { apply Forall_app; split; [assumption|].
      constructor; [|constructor]. lia. }
    intros front last E. apply app_inj_tail in E. destruct E as [<- <-].
    split; [assumption|].
    rewrite <- Hr. destruct (Z.eqb_spec (rows st mod batch_size) 0); lia.
Qed.

Lemma batch_insert_submits_all_witness :
  exists chunks,
    batch_insert [1; 2; 3; 4; 5]%nat 2 = ret (5%Z, chunks)
    /\ List.concat chunks = [1; 2; 3; 4; 5]%nat
    /\ Forall (fun c => (0 < Z.of_nat (List.length c) <= 2)%Z) chunks
    /\ (forall front last, chunks = front ++ [last] ->
        Forall (fun c => Z.of_nat (List.length c) = 2%Z) front
        /\ Z.of_nat (List.length last) = 1%Z).
Proof.
  apply (@batch_insert_submits_all nat [1; 2; 3; 4; 5]%nat 2%Z). lia.
Defined.

(** ** The matcher *)

Ltac list_norm :=
  repeat first [rewrite rev_app_distr | rewrite <- app_assoc
               | rewrite length_app | rewrite length_rev | progress simpl].

Section MatcherProps.

Variable unicode_isalnum : N -> bool.

Notation in_cset := (in_cset unicode_isalnum).
Notation is_word := (is_word unicode_isalnum).
Notation exec := (exec unicode_isalnum).
Notation rmatch := (rmatch unicode_isalnum).
Notation try_at := (try_at unicode_isalnum).
Notation scan := (scan unicode_isalnum).
Notation finditer := (finditer unicode_isalnum).
Notation match_of := (match_of unicode_isalnum).
Notation never_matches := (never_matches unicode_isalnum).
Notation fullmatch := (fullmatch unicode_isalnum).

Section Soundness.

Variable A : Type.

Lemma star_loop_sound r (k : cont A) :
  (forall p s c (k0 : cont A) x,
      exec r p s c k0 = Some x ->
      exists p' s' c', rmatch r p s c p' s' c' /\ k0 p' s' c' = Some x) ->
  forall n p s c x,
    star_loop (exec (A:=A) r) k n p s c = Some x ->
    exists p' s' c', rmatch (Star r) p s c p' s' c' /\ k p' s' c' = Some x.
Proof.
  intros IH. induction n as [|n IHn]; intros p s c x H; simpl in H.
  - exists p, s, c. split; [apply RM_StarNil | assumption].
  - match type of H with
    | match ?e with _ => _ end = _ => destruct e as [y|] eqn:E
    end.
    + inversion H; subst y; clear H.
      apply IH in E. destruct E as (p1 & s1 & c1 & Hr & Hk).
      destruct (List.length s1 <? List.length s); [|discriminate].
      apply IHn in Hk. destruct Hk as (p2 & s2 & c2 & Hs & Hk).
      exists p2, s2, c2. split; [|assumption].
      eapply RM_StarCons; eassumption.
    + exists p, s, c. split; [apply RM_StarNil | assumption].
Qed.

Lemma exec_sound r : forall p s c (k : cont A) x,
  exec r p s c k = Some x ->
  exists p' s' c', rmatch r p s c p' s' c' /\ k p' s' c' = Some x.
Proof.
  induction r as [|x|cs|r1 IH1 r2 IH2|r1 IH1 r2 IH2|r IH|r IH|r IH|n r IH|cs|cs];
    intros p s c k y H; simpl in H.
  - exists p, s, c. split; [constructor | assumption].
  - destruct s as [|z s]; [discriminate|].
    destruct (N.eqb_spec z x); [subst z | discriminate].
    exists (x :: p), s, c. split; [constructor | assumption].
  - destruct s as [|z s]; [discriminate|].
    destruct (in_cset cs z) eqn:E; [|discriminate].
    exists (z :: p), s, c. split; [now constructor | assumption].
  - apply IH1 in H. destruct H as (p1 & s1 & c1 & H1 & H).
    apply IH2 in H. destruct H as (p2 & s2 & c2 & H2 & H).
    exists p2, s2, c2. split; [|assumption]. econstructor; eassumption.
  - destruct (exec r1 p s c k) as [z|] eqn:E.
    + inversion H; subst z. apply IH1 in E.
      destruct E as (p1 & s1 & c1 & H1 & Hk).
      exists p1, s1, c1. split; [now apply RM_AltL | assumption].
    + apply IH2 in H. destruct H as (p1 & s1 & c1 & H1 & Hk).
      exists p1, s1, c1. split; [now apply RM_AltR | assumption].
  - destruct (exec r p s c k) as [z|] eqn:E.
    + inversion H; subst z. apply IH in E.
      destruct E as (p1 & s1 & c1 & H1 & Hk).
      exists p1, s1, c1. split; [now apply RM_OptSome | assumption].
    + exists p, s, c. split; [apply RM_OptNone | assumption].
  - eapply star_loop_sound; eassumption.
  - apply IH in H. destruct H as (p1 & s1 & c1 & H1 & H).
    eapply star_loop_sound in H; [|exact IH]. destruct H as (p2 & s2 & c2 & H2 & H).
    exists p2, s2, c2. split; [|assumption]. econstructor; eassumption.
  - apply IH in H. destruct H as (p1 & s1 & c1 & H1 & H).
    eexists p1, s1, _. split; [|eassumption]. now constructor.
  - exists p, s, c. destruct p as [|z p].
    + split; [|assumption]. constructor. intros; discriminate.
    + destruct (in_cset cs z) eqn:E; [discriminate|].
      split; [|assumption]. constructor. intros ? ? Heq.
      now inversion Heq; subst.
  - exists p, s, c. destruct s as [|z s].
    + split; [|assumption]. constructor. intros; discriminate.
    + destruct (in_cset cs z) eqn:E; [discriminate|].
      split; [|assumption]. constructor. intros ? ? Heq.
      now inversion Heq; subst.
Qed.

End Soundness.

(** A match consumes a word [w]: it moves from the text ahead to the text
    behind, and the text as a whole stays what it was. *)
Lemma rmatch_word r p s c p' s' c' :
  rmatch r p s c p' s' c' -> exists w, p' = rev w ++ p /\ s = w ++ s'.
Proof.
  induction 1;
    try (exists (@nil N); split; reflexivity);
    try (exists [x]; split; reflexivity);
    try assumption.
  all: destruct IHrmatch1 as (w1 & -> & ->);
    destruct IHrmatch2 as (w2 & -> & ->);
    exists (w1 ++ w2); rewrite rev_app_distr, <- !app_assoc; split; reflexivity.
Qed.

Lemma rmatch_caps_other n r p s c p' s' c' :
  rmatch r p s c p' s' c' -> ~ In n (groups r) ->
  cap_get n c' = cap_get n c.
Proof.
  induction 1; simpl; intros Hn; try reflexivity;
    try (rewrite in_app_iff in Hn);
    try (rewrite IHrmatch2, IHrmatch1 by tauto; reflexivity);
    try (apply IHrmatch; tauto).
  - destruct (Nat.eqb_spec n0 n); [exfalso; tauto|]. apply IHrmatch; tauto.
Qed.

Lemma rmatch_caps_same r p s c p' s' c' :
  rmatch r p s c p' s' c' -> groups r = [] -> c' = c.
Proof.
  induction 1; simpl; intros Hg; try reflexivity;
    try (apply app_eq_nil in Hg; destruct Hg as [Hg1 Hg2]);
    try (rewrite IHrmatch2, IHrmatch1 by assumption; reflexivity);
    try (apply IHrmatch; assumption).
  discriminate.
Qed.

Lemma rmatch_cat_inv r1 r2 p s c p2 s2 c2 :
  rmatch (Cat r1 r2) p s c p2 s2 c2 ->
  exists p1 s1 c1,
    rmatch r1 p s c p1 s1 c1 /\ rmatch r2 p1 s1 c1 p2 s2 c2.
Proof. inversion 1; subst; eauto. Qed.

Lemma rmatch_grp_inv n r p s c p1 s1 c' :
  rmatch (Grp n r) p s c p1 s1 c' ->
  exists c1, rmatch r p s c p1 s1 c1
             /\ c' = cap_set n (List.length p, List.length p1) c1.
Proof. inversion 1; subst; eauto. Qed.

Lemma rmatch_not_behind_inv cs p s c p' s' c' :
  rmatch (NotBehind cs) p s c p' s' c' ->
  p' = p /\ s' = s /\ c' = c
  /\ (forall y p0, p = y :: p0 -> in_cset cs y = false).
Proof. inversion 1; subst; auto. Qed.

Lemma rmatch_not_ahead_inv cs p s c p' s' c' :
  rmatch (NotAhead cs) p s c p' s' c' ->
  p' = p /\ s' = s /\ c' = c
  /\ (forall y s0, s = y :: s0 -> in_cset cs y = false).
Proof. inversion 1; subst; auto. Qed.

Lemma rmatch_ends_with_not_ahead cs r p s c p' s' c' :
  rmatch r p s c p' s' c' -> ends_with_not_ahead cs r ->
  forall y s0, s' = y :: s0 -> in_cset cs y = false.
Proof.
  induction 1; simpl; intros He; try contradiction.
  - now apply IHrmatch2.
  - subst cs0. assumption.
Qed.

Lemma in_cset_word y : in_cset [CWord] y = is_word y.
Proof. unfold in_cset; simpl. now rewrite orb_false_r. Qed.

Lemma in_cset_digit y : in_cset digit y = is_digit y.
Proof. unfold in_cset, is_digit; simpl. now rewrite orb_false_r. Qed.

Lemma rmatch_star_cls cs p s c p' s' c' :
  rmatch (Star (Cls cs)) p s c p' s' c' ->
  c' = c
  /\ exists w, p' = rev w ++ p /\ s = w ++ s'
               /\ Forall (fun x => in_cset cs x = true) w.
Proof.
  intros H. remember (Star (Cls cs)) as r eqn:Er.
  induction H; inversion Er; subst.
  - split; [reflexivity|]. exists []. repeat split. constructor.
  - inversion H; subst.
    destruct (IHrmatch2 eq_refl) as (-> & w & -> & -> & Hw).
    split; [reflexivity|]. exists (x :: w). simpl.
    rewrite <- app_assoc. repeat split. now constructor.
Qed.

Lemma rmatch_number p s c p' s' c' :
  rmatch number_pattern p s c p' s' c' ->
  c' = c
  /\ exists w, p' = rev w ++ p /\ s = w ++ s' /\ number_shape [44; 46]%N w.
Proof.
  unfold number_pattern. intros H.
  apply rmatch_cat_inv in H. destruct H as (p1 & s1 & c1 & Hip & H).
  apply rmatch_cat_inv in H. destruct H as (p2 & s2 & c2 & Hsep & Hfp).
  inversion Hip as [| | | | | | | | | |? ? ? ? pa sa ca ? ? ? Hd Hds| | |];
    subst; clear Hip.
  inversion Hd; subst; clear Hd.
  apply rmatch_star_cls in Hds. destruct Hds as (-> & wi & -> & -> & Hwi).
  apply rmatch_star_cls in Hfp. destruct Hfp as (-> & wf & -> & E2 & Hwf).
  assert (Hdig : forall l, Forall (fun y => in_cset digit y = true) l ->
                           Forall (fun y => is_digit y = true) l).
  { intros l Hl. eapply Forall_impl; [|exact Hl].
    intros a Ha. now rewrite <- in_cset_digit. }
  inversion Hsep as [| | | | | |? ? ? ? ? ? ? Hc| | | | | | |]; subst; clear Hsep.
  - inversion Hc; subst; clear Hc.
    split; [reflexivity|].
    exists ((x :: wi) ++ [x0] ++ wf). split; [|split].
    + list_norm. reflexivity.
    + list_norm. reflexivity.
    + exists (x :: wi), [x0], wf. repeat split.
      * discriminate.
      * constructor; [now rewrite <- in_cset_digit | now apply Hdig].
      * right. exists x0. split; [reflexivity|].
        unfold in_cset in H1; simpl in H1.
        rewrite orb_false_r in H1. apply orb_true_iff in H1.
        destruct H1 as [E|E]; apply N.eqb_eq in E; subst; simpl; auto.
      * now apply Hdig.
  - split; [reflexivity|].
    exists ((x :: wi) ++ [] ++ wf). split; [|split].
    + list_norm. reflexivity.
    + list_norm. reflexivity.
    + exists (x :: wi), [], wf. repeat split.
      * discriminate.
      * constructor; [now rewrite <- in_cset_digit | now apply Hdig].
      * now left.
      * now apply Hdig.
Qed.

Lemma rmatch_digits ws : forall p s c,
  Forall (fun x => is_digit x = true) ws ->
  rmatch (Star (Cls digit)) p (ws ++ s) c (rev ws ++ p) s c.
Proof.
  induction ws as [|x ws IH]; intros p s c Hws; simpl.
  - apply RM_StarNil.
  - inversion Hws as [|? ? Hx Hws']; subst.
    rewrite <- app_assoc. simpl.
    eapply RM_StarCons; [|apply IH; assumption].
    constructor. now rewrite in_cset_digit.
Qed.

(** A decimal string is a text of [[0-9]+\.?[0-9]*]. *)
Lemma number_shape_fullmatch w :
  number_shape [46]%N w -> fullmatch decimal_pattern w.
Proof.
  intros (ip & sep & fp & -> & Hne & Hip & Hsep & Hfp).
  destruct ip as [|x ip]; [contradiction|].
  inversion Hip as [|? ? Hx Hip']; subst.
  assert (Hplus : forall s,
             rmatch (Plus (Cls digit)) [] ((x :: ip) ++ s) []
                    (rev ip ++ [x]) s []).
  { intros s. simpl. eapply RM_Plus.
    - constructor. now rewrite in_cset_digit.
    - now apply rmatch_digits. }
  assert (Hstar : forall p,
             rmatch (Star (Cls digit)) p fp [] (rev fp ++ p) [] []).
  { intros p. rewrite <- (app_nil_r fp) at 1. now apply rmatch_digits. }
  exists []. unfold decimal_pattern.
  destruct Hsep as [->|(y & -> & [<-|[]])].
  - replace (rev ((x :: ip) ++ [] ++ fp)) with (rev fp ++ rev ip ++ [x])
      by (list_norm; reflexivity).
    eapply RM_Cat; [apply Hplus|].
    eapply RM_Cat; [apply RM_OptNone|]. apply Hstar.
  - replace (rev ((x :: ip) ++ [46%N] ++ fp))
      with (rev fp ++ 46%N :: rev ip ++ [x])
      by (list_norm; reflexivity).
    eapply RM_Cat; [apply Hplus|].
    eapply RM_Cat; [apply RM_OptSome; apply RM_Chr|]. apply Hstar.
Qed.

(** *** Match objects *)

Lemma try_at_match_of r text b p s mo :
  rev p ++ s = text ->
  try_at r text b p s = Some mo -> match_of r text mo.
Proof.
  intros Et H. unfold try_at in H. apply exec_sound in H.
  destruct H as (p1 & s1 & c1 & Hr & Hk).
  destruct (b && (List.length p1 =? List.length p)); [discriminate|].
  inversion Hk; subst mo; clear Hk.
  exists p, s, p1, s1. simpl. auto.
Qed.

Lemma scan_eq r text p s skip :
  scan r text p s skip =
  match skip with
  | S k =>
    match s with [] => [] | x :: s' => scan r text (x :: p) s' k end
  | O =>
    match try_at r text false p s with
    | None =>
      match s with [] => [] | x :: s' => scan r text (x :: p) s' 0 end
    | Some mo =>
      match m_end mo - m_start mo with
      | S k =>
        mo :: match s with [] => [] | x :: s' => scan r text (x :: p) s' k end
      | O =>
        mo :: match try_at r text true p s with
              | Some mo' =>
                mo' :: match s with
                       | [] => []
                       | x :: s' =>
                         scan r text (x :: p) s' (m_end mo' - m_start mo' - 1)
                       end
              | None =>
                match s with
                | [] => []
                | x :: s' => scan r text (x :: p) s' 0
                end
              end
      end
    end
  end.
Proof. destruct s; reflexivity. Qed.

Lemma scan_sound r text : forall s p skip mo,
  rev p ++ s = text ->
  In mo (scan r text p s skip) -> match_of r text mo.
Proof.
  induction s as [|x s IH]; intros p skip mo Et Hin;
    rewrite scan_eq in Hin.
  - destruct skip; [|contradiction].
    destruct (try_at r text false p []) as [m0|] eqn:E0; [|contradiction].
    destruct (m_end m0 - m_start m0).
    + destruct Hin as [<-|Hin]; [exact (@try_at_match_of _ _ _ _ _ _ Et E0)|].
      destruct (try_at r text true p []) as [m1|] eqn:E1; [|contradiction].
      destruct Hin as [<-|[]]. exact (@try_at_match_of _ _ _ _ _ _ Et E1).
    + destruct Hin as [<-|[]]. exact (@try_at_match_of _ _ _ _ _ _ Et E0).
  - assert (Et' : rev (x :: p) ++ s = text)
      by (simpl; rewrite <- app_assoc; exact Et).
    destruct skip; [|exact (IH _ _ _ Et' Hin)].
    destruct (try_at r text false p (x :: s)) as [m0|] eqn:E0;
      [|exact (IH _ _ _ Et' Hin)].
    destruct (m_end m0 - m_start m0).
    + destruct Hin as [<-|Hin]; [exact (@try_at_match_of _ _ _ _ _ _ Et E0)|].
      destruct (try_at r text true p (x :: s)) as [m1|] eqn:E1;
        [|exact (IH _ _ _ Et' Hin)].
      destruct Hin as [<-|Hin]; [exact (@try_at_match_of _ _ _ _ _ _ Et E1)|].
      exact (IH _ _ _ Et' Hin).
    + destruct Hin as [<-|Hin]; [exact (@try_at_match_of _ _ _ _ _ _ Et E0)|].
      exact (IH _ _ _ Et' Hin).
Qed.

Lemma finditer_sound r text mo :
  In mo (finditer r text) -> match_of r text mo.
Proof. apply scan_sound. reflexivity. Qed.

Lemma slice_middle (a w b : str) :
  slice (a ++ w ++ b) (List.length a) (List.length a + List.length w) = w.
Proof.
  unfold slice. rewrite skipn_app, skipn_all, Nat.sub_diag. simpl.
  replace (List.length a + List.length w - List.length a)
    with (List.length w) by lia.
  rewrite firstn_app, firstn_all, Nat.sub_diag. simpl. apply app_nil_r.
Qed.

(** The span of a match lies within the text and [group(0)] is the text
    it covers. *)
Lemma match_of_span r text mo :
  match_of r text mo ->
  exists before w after,
    text = before ++ w ++ after
    /\ m_start mo = List.length before
    /\ m_end mo = List.length before + List.length w
    /\ group0 mo = w.
Proof.
  intros (p0 & s0 & p1 & s1 & Et & Hr & Hs & He & Hstr).
  destruct (rmatch_word Hr) as (w & -> & ->).
  exists (rev p0), w, s1. unfold group0. rewrite Hstr, Hs, He, <- Et.
  list_norm. repeat split; try lia.
  rewrite <- (length_rev p0), Nat.add_comm. apply slice_middle.
Qed.

Lemma match_of_boundaries r' r text mo :
  r = Cat (NotBehind [CWord]) r' ->
  ends_with_not_ahead [CWord] r ->
  match_of r text mo ->
  (forall i y, m_start mo = S i -> nth_error text i = Some y ->
               is_word y = false)
  /\ (forall y, nth_error text (m_end mo) = Some y -> is_word y = false).
Proof.
  intros Er Hend (p0 & s0 & p1 & s1 & Et & Hr & Hs & He & Hstr).
  pose proof (rmatch_ends_with_not_ahead [CWord] Hr Hend) as Hahead.
  destruct (rmatch_word Hr) as (w & E1 & E0).
  subst r. apply rmatch_cat_inv in Hr.
  destruct Hr as (pa & sa & ca & Hb & _).
  apply rmatch_not_behind_inv in Hb. destruct Hb as (_ & _ & _ & Hbehind).
  split.
  - intros i y Hi Hn. destruct p0 as [|z p0]; [simpl in Hs; lia|].
    rewrite <- in_cset_word.
    assert (y = z); [|subst; now apply (Hbehind z p0)].
    rewrite <- Et in Hn. simpl in Hn, Hs. rewrite <- app_assoc in Hn.
    assert (i = List.length (rev p0)) by (rewrite length_rev; lia). subst i.
    rewrite nth_error_app2, Nat.sub_diag in Hn by lia. simpl in Hn.
    congruence.
  - intros y Hn. rewrite <- in_cset_word.
    destruct s1 as [|z s1].
    + exfalso. rewrite <- Et, E0, He, E1 in Hn.
      assert (Hlen : List.length (rev p0 ++ w ++ []) <= List.length (rev w ++ p0))
        by (list_norm; lia).
      apply nth_error_None in Hlen. congruence.
    + assert (y = z); [|subst; now apply (Hahead z s1)].
      rewrite <- Et, E0, He, E1 in Hn.
      rewrite app_assoc in Hn.
      assert (El : List.length (rev w ++ p0) = List.length (rev p0 ++ w))
        by (list_norm; lia).
      rewrite El, nth_error_app2, Nat.sub_diag in Hn by lia. simpl in Hn.
      congruence.
Qed.

(** In a match of the value pattern the second group took part, and its
    text is a number. *)
Lemma value_match_group2 a us text mo :
  ~ In 2 (groups us) ->
  match_of (value_matcher a us) text mo ->
  exists num, group mo 2 = Some num /\ number_shape [44; 46]%N num.
Proof.
  intros Hg (p0 & s0 & p1 & s1 & Et & Hr & Hs & He & Hstr).
  unfold value_matcher in Hr; simpl in Hr.
  apply rmatch_cat_inv in Hr. destruct Hr as (pa & sa & ca & Hnb & Hr).
  apply rmatch_not_behind_inv in Hnb. destruct Hnb as (-> & -> & -> & _).
  apply rmatch_cat_inv in Hr. destruct Hr as (pb & sb & cb & Hg1 & Hr).
  apply rmatch_cat_inv in Hr. destruct Hr as (pc & sc & cc & Ho1 & Hr).
  apply rmatch_cat_inv in Hr. destruct Hr as (pd & sd & cd & Ho2 & Hr).
  apply rmatch_cat_inv in Hr. destruct Hr as (pe & se & ce & Hg2 & Hr).
  apply rmatch_cat_inv in Hr. destruct Hr as (pf & sf & cf & Ho3 & Hr).
  apply rmatch_cat_inv in Hr. destruct Hr as (pg & sg & cg & Hg3 & Hna).
  apply rmatch_not_ahead_inv in Hna. destruct Hna as (_ & _ & Ec & _).
  assert (Hpre : rmatch (Cat (Grp 1 a) (Cat (Opt (Chr 32))
                   (Opt (Cat (Cls [CChar 58; CChar 45]) (Opt (Chr 32))))))
                   p0 s0 [] pd sd cd)
    by (repeat (econstructor; try eassumption)).
  destruct (rmatch_word Hpre) as (w & Epd & Es0).
  apply rmatch_grp_inv in Hg2. destruct Hg2 as (c2 & Hnum & Ece).
  apply rmatch_number in Hnum.
  destruct Hnum as (_ & num & Epe & Esd & Hshape).
  apply rmatch_grp_inv in Hg3. destruct Hg3 as (c3 & Hus & Ecg).
  assert (Hcap : cap_get 2 (m_caps mo)
                 = Some (List.length pd, List.length pe)).
  { rewrite Ec, Ecg. simpl.
    rewrite (rmatch_caps_other 2 Hus Hg).
    rewrite (rmatch_caps_other 2 Ho3) by (simpl; tauto).
    rewrite Ece. reflexivity. }
  exists num. split; [|assumption].
  unfold group. rewrite Hcap, Hstr, <- Et, Es0, Esd, Epe, Epd.
  f_equal. rewrite app_assoc.
  replace (List.length (rev w ++ p0)) with (List.length (rev p0 ++ w))
    by (list_norm; lia).
  replace (List.length (rev num ++ rev w ++ p0))
    with (List.length (rev p0 ++ w) + List.length num)
    by (list_norm; lia).
  apply slice_middle.
Qed.

(** *** Texts without a match *)

Lemma try_at_not_behind cs r' text b p s :
  try_at (Cat (NotBehind cs) r') text b p s
  = match p with
    | y :: _ => if in_cset cs y then None else try_at r' text b p s
    | [] => try_at r' text b p s
    end.
Proof. unfold try_at. simpl. destruct p; reflexivity. Qed.

Lemma scan_never cs r' text : forall s p,
  never_matches r' text p s ->
  scan (Cat (NotBehind cs) r') text p s 0 = [].
Proof.
  induction s as [|x s IH]; intros p [Hnone Hrest];
    rewrite scan_eq, try_at_not_behind, Hnone.
  - destruct p as [|y p]; [reflexivity|]. now destruct (in_cset cs y).
  - assert (E : scan (Cat (NotBehind cs) r') text (x :: p) s 0 = [])
      by now apply IH.
    destruct p as [|y p]; [assumption|]. now destruct (in_cset cs y).
Qed.

End MatcherProps.

Lemma ret_inj {A} (a b : A) : ret a = ret b -> a = b.
Proof. unfold ret. congruence. Qed.

Lemma bind_ret_inv {A B} (x : result A) (f : A -> result B) (b : B) :
  bind x f = ret b -> exists a, x = ret a /\ f a = ret b.
Proof.
  destruct x as [e|a]; simpl; [discriminate|]. intros H. exists a. auto.
Qed.

Lemma bind_raise_inv {A B} (x : result A) (f : A -> result B) (e : exn) :
  bind x f = raise e ->
  x = raise e \/ exists a, x = ret a /\ f a = raise e.
Proof.
  destruct x as [e0|a]; simpl; intros H.
  - left. unfold raise in *. congruence.
  - right. exists a. auto.
Qed.

(** ** The tables built when the module is imported *)

Lemma dict_get_None {V} (k : str) (d : dict V) :
  ~ In k (keys d) -> dict_get k d = None.
Proof.
  induction d as [|[k' v] d IH]; simpl; intros Hn; [reflexivity|].
  destruct (str_eqb k' k) eqn:E.
  - apply str_eqb_eq in E. tauto.
  - apply IH. tauto.
Qed.

Lemma values_regex_table_ok :
  values_regex_table NUTRIENT_MENTION NUTRIENT_UNITS
  = ret NUTRIENT_VALUES_REGEX.
Proof. vm_compute. reflexivity. Qed.

Lemma mentions_regex_table_ok :
  mentions_regex_table NUTRIENT_MENTION = ret NUTRIENT_MENTIONS_REGEX.
Proof. vm_compute. reflexivity. Qed.

(** A unit-bearing kind without mention patterns stops the first
    comprehension, whatever was built before it. *)
Lemma values_loop_missing_kind mention kind :
  ~ In kind (keys mention) ->
  forall (units_catalog : dict (list str)) table,
    In kind (keys units_catalog) ->
    exists e,
      foldM (fun table (item : str * list str) =>
               let (nutrient, units) := item in
               nutrient_mentions <- getitem mention nutrient ;;
               r <- generate_nutrient_regex nutrient_mentions units ;;
               ret (setitem nutrient
                            {| regex := r; field := full_text_contiguous;
                               lowercase := true |} table))
            units_catalog table = raise e.
Proof.
  intros Hmiss. induction units_catalog as [|[k us] rest IH];
    intros table Hin; simpl in Hin; [contradiction|].
  simpl. unfold getitem at 1.
  destruct (dict_get k mention) as [ms|] eqn:Ek.
  - destruct Hin as [->|Hin].
    + rewrite dict_get_None in Ek by assumption. discriminate.
    + simpl. destruct (generate_nutrient_regex ms us) as [e|r].
      * exists e. reflexivity.
      * simpl. now apply IH.
  - eexists. reflexivity.
Qed.

(** C7: every kind of the unit catalog has an entry in the mention
    dictionary; and for any pair of tables that breaks this, importing the
    module raises, so that no table of compiled matchers, hence no
    extraction function, comes to exist; the tables of the source do
    initialise. *)
Theorem unit_kinds_have_mentions :
  (forall kind, In kind (keys NUTRIENT_UNITS) ->
                In kind (keys NUTRIENT_MENTION))
  /\ (forall mention units_catalog kind,
        In kind (keys units_catalog) -> ~ In kind (keys mention) ->
        exists e, module_init mention units_catalog = raise e)
  /\ module_init NUTRIENT_MENTION NUTRIENT_UNITS
     = ret {| values_regex := NUTRIENT_VALUES_REGEX;
              mentions_regex := NUTRIENT_MENTIONS_REGEX |}.
Proof.
  split; [|split].
  - vm_compute. intros kind H. intuition (subst; auto 20).
  - intros mention units_catalog kind Hin Hmiss. unfold module_init.
    destruct (@values_loop_missing_kind mention kind Hmiss units_catalog [] Hin)
      as (e & He).
    unfold values_regex_table. rewrite He. exists e. reflexivity.
  - unfold module_init.
    rewrite values_regex_table_ok, mentions_regex_table_ok. reflexivity.
Qed.

Lemma unit_kinds_have_mentions_witness :
  exists e, module_init [] [(u "zinc", [u "mg"])] = raise e.
Proof.
  apply (proj1 (proj2 unit_kinds_have_mentions)
               [] [(u "zinc", [u "mg"])] (u "zinc")).
  - vm_compute. auto.
  - vm_compute. tauto.
Defined.

(** ** The shape of the compiled value matchers *)

Ltac compile_fragments :=
  repeat (apply Forall2_cons; [cbv; reflexivity|]); apply Forall2_nil.

(** C1, as amended: for every kind of the unit catalog the compiled value
    matcher is: the assertion that no word character precedes, the captured
    union of the kind's mention fragments, an optional space, an optional
    separator ':' or '-' which may itself be followed by a space, the
    captured number [[0-9]+[,.]?[0-9]*], an optional space, the captured
    union of the kind's unit tokens, and the assertion that no word
    character follows. *)
Theorem value_matcher_structure (kind : str) (units : list str) :
  In (kind, units) NUTRIENT_UNITS ->
  exists mentions alts,
    dict_get kind NUTRIENT_MENTION = Some mentions
    /\ Forall2 (fun m a => re_compile (fst m) = ret a) mentions alts
    /\ generate_nutrient_regex mentions units
       = ret (value_matcher (union alts) (union (map literal units)))
    /\ dict_get kind NUTRIENT_VALUES_REGEX
       = Some {| regex := value_matcher (union alts)
                                        (union (map literal units));
                 field := full_text_contiguous;
                 lowercase := true |}.
Proof.
  intros Hin. vm_compute in Hin.
  repeat (destruct Hin as [Hin|Hin];
          [inversion Hin; subst kind units; clear Hin;
           eexists; eexists;
           split; [vm_compute; reflexivity|];
           split; [compile_fragments|];
           split; vm_compute; reflexivity|]).
  contradiction.
Qed.

Lemma value_matcher_structure_witness :
  exists mentions alts,
    dict_get (u "salt") NUTRIENT_MENTION = Some mentions
    /\ Forall2 (fun m a => re_compile (fst m) = ret a) mentions alts
    /\ generate_nutrient_regex mentions [u "g"]
       = ret (value_matcher (union alts) (union (map literal [u "g"])))
    /\ dict_get (u "salt") NUTRIENT_VALUES_REGEX
       = Some {| regex := value_matcher (union alts)
                                        (union (map literal [u "g"]));
                 field := full_text_contiguous;
                 lowercase := true |}.
Proof.
  apply (@value_matcher_structure (u "salt") [u "g"]).
  vm_compute. tauto.
Defined.

(** Counterexample to C1 as it is stated, on "salt".  With the separator and its spaces
    optional as one unit, the wording finds nothing in "sel 0,1g", which the
    compiled matcher matches from 0 to 8; with the separator and the two
    spaces optional on their own, the wording matches "sel  5g" (two
    spaces), in which the compiled matcher finds nothing. *)
Lemma value_matcher_not_spec_wording :
  (map span (finditer ascii_isalnum salt_value_regex (u "sel 0,1g"))
   = [(0, 8)]
   /\ map span (finditer ascii_isalnum
                         (salt_in_spec_words spec_separator_unit)
                         (u "sel 0,1g")) = []
   /\ ~ same_matches ascii_isalnum salt_value_regex
                     (salt_in_spec_words spec_separator_unit))
  /\ (map span (finditer ascii_isalnum salt_value_regex (u "sel  5g")) = []
      /\ map span (finditer ascii_isalnum
                            (salt_in_spec_words spec_separator_free)
                            (u "sel  5g")) = [(0, 7)]
      /\ ~ same_matches ascii_isalnum salt_value_regex
                        (salt_in_spec_words spec_separator_free)).
Proof.
  split; (split; [vm_compute; reflexivity|]);
    (split; [vm_compute; reflexivity|]); intros H.
  - specialize (H (u "sel 0,1g")). vm_compute in H. discriminate.
  - specialize (H (u "sel  5g")). vm_compute in H. discriminate.
Qed.

(** ** Accumulating the matches of each kind *)

Section AccumulateProps.

Variable X : Type.

Lemma dict_get_app_fresh (k : str) (d : dict (list X)) k' l :
  dict_get k d = None ->
  dict_get k (d ++ [(k', l)]) = if str_eqb k' k then Some l else None.
Proof.
  induction d as [|[k0 v0] d IH]; simpl; intros H; [reflexivity|].
  destruct (str_eqb k0 k); [discriminate|]. now apply IH.
Qed.

Lemma update_app_fresh (k : str) f (d : dict (list X)) l :
  dict_get k d = None ->
  update k f (d ++ [(k, l)]) = d ++ [(k, f l)].
Proof.
  induction d as [|[k0 v0] d IH]; simpl; intros H.
  - now rewrite str_eqb_refl.
  - destruct (str_eqb k0 k); [discriminate|]. now rewrite IH.
Qed.

Lemma getitem_append_setdefault (k : str) (x : X) (d : dict (list X)) :
  getitem_append (setdefault k [] d) k x = ret (add_entry k x d).
Proof.
  unfold getitem_append, getitem, add_entry, setdefault.
  destruct (dict_get k d) as [l|] eqn:E.
  - rewrite E. reflexivity.
  - rewrite dict_get_app_fresh, str_eqb_refl by assumption. reflexivity.
Qed.

Lemma add_entry_fresh (k : str) (x : X) (d : dict (list X)) :
  dict_get k d = None -> add_entry k x d = d ++ [(k, [x])].
Proof.
  intros H. unfold add_entry, setdefault. rewrite H.
  now rewrite update_app_fresh.
Qed.

Lemma add_entry_last (k : str) (x : X) (d : dict (list X)) l :
  dict_get k d = None ->
  add_entry k x (d ++ [(k, l)]) = d ++ [(k, l ++ [x])].
Proof.
  intros H. unfold add_entry, setdefault.
  rewrite dict_get_app_fresh, str_eqb_refl by assumption.
  now rewrite update_app_fresh.
Qed.

Lemma add_entries_last (k : str) (xs : list X) : forall d l,
  dict_get k d = None ->
  add_entries k xs (d ++ [(k, l)]) = d ++ [(k, l ++ xs)].
Proof.
  induction xs as [|x xs IH]; intros d l H; simpl.
  - now rewrite app_nil_r.
  - unfold add_entries in *. simpl. rewrite add_entry_last by assumption.
    rewrite IH by assumption. now rewrite <- app_assoc.
Qed.

Lemma add_entries_fresh (k : str) (xs : list X) (d : dict (list X)) :
  dict_get k d = None ->
  add_entries k xs d = match xs with [] => d | _ => d ++ [(k, xs)] end.
Proof.
  intros H. destruct xs as [|x xs]; [reflexivity|].
  unfold add_entries. simpl. rewrite add_entry_fresh by assumption.
  now apply add_entries_last.
Qed.

(** The loop over the matches of one kind, when no entry raises. *)
Lemma entry_loop (A : Type) (entry : dict (list X) -> A -> result (dict (list X)))
      (build : A -> X) (k : str) (items : list A) :
  (forall d a, In a items -> entry d a = ret (add_entry k (build a) d)) ->
  forall d, foldM entry items d = ret (add_entries k (map build items) d).
Proof.
  induction items as [|a items IH]; intros Hentry d; simpl; [reflexivity|].
  rewrite Hentry by now left. simpl. apply IH.
  intros d' a' Ha'. apply Hentry. now right.
Qed.

Variable found : str -> OCRRegex -> list X.

Notation collect := (collect found).

Lemma kind_loop (step : dict (list X) -> str * OCRRegex -> result (dict (list X)))
      (table : dict OCRRegex) :
  (forall d k r, In (k, r) table ->
                 step d (k, r) = ret (add_entries k (found k r) d)) ->
  NoDup (keys table) ->
  forall acc,
    (forall k, In k (keys table) -> dict_get k acc = None) ->
    foldM step table acc = ret (acc ++ collect table).
Proof.
  induction table as [|[k r] table IH]; intros Hstep Hnd acc Hfresh; simpl.
  - now rewrite app_nil_r.
  - rewrite Hstep by now left. simpl.
    rewrite add_entries_fresh by (apply Hfresh; now left).
    inversion Hnd as [|? ? Hk Hnd']; subst.
    assert (Hrest : forall d k0 r0, In (k0, r0) table ->
              step d (k0, r0) = ret (add_entries k0 (found k0 r0) d))
      by (intros; apply Hstep; now right).
    destruct (found k r) as [|x xs] eqn:Ef.
    + apply IH; try assumption. intros k0 Hk0. apply Hfresh. now right.
    + rewrite IH; try assumption.
      * now rewrite <- app_assoc.
      * intros k0 Hk0. rewrite dict_get_app_fresh
          by (apply Hfresh; now right).
        destruct (str_eqb k k0) eqn:E; [|reflexivity].
        apply str_eqb_eq in E. subst k0. contradiction.
Qed.

Lemma collect_keys (table : dict OCRRegex) k l :
  In (k, l) (collect table) ->
  exists r, In (k, r) table /\ found k r = l /\ l <> [].
Proof.
  unfold collect. rewrite in_flat_map. intros ([k0 r0] & Hin & H).
  simpl in H. destruct (found k0 r0) as [|x xs] eqn:E; [contradiction|].
  destruct H as [H|[]]. inversion H; subst.
  exists r0. repeat split; [assumption..|discriminate].
Qed.

Lemma collect_present (table : dict OCRRegex) k r :
  In (k, r) table -> found k r <> [] -> In (k, found k r) (collect table).
Proof.
  intros Hin Hne. unfold collect. rewrite in_flat_map.
  exists (k, r). split; [assumption|]. simpl.
  destruct (found k r); [contradiction|]. now left.
Qed.

Lemma collect_nil (table : dict OCRRegex) :
  collect table = [] <-> (forall k r, In (k, r) table -> found k r = []).
Proof.
  split.
  - intros E k r Hin. destruct (found k r) as [|x xs] eqn:Ef; [reflexivity|].
    assert (H : In (k, found k r) (collect table))
      by (apply collect_present; [assumption | rewrite Ef; discriminate]).
    rewrite E in H. contradiction.
  - intros H. destruct (collect table) as [|[k l] rest] eqn:E; [reflexivity|].
    assert (Hin : In (k, l) (collect table)) by (rewrite E; now left).
    apply collect_keys in Hin. destruct Hin as (r & Hin & Ef & Hne).
    rewrite (H k r Hin) in Ef. congruence.
Qed.

End AccumulateProps.

Lemma keys_unique {V} (d : dict V) k v v' :
  NoDup (keys d) -> In (k, v) d -> In (k, v') d -> v = v'.
Proof.
  induction d as [|[k0 v0] d IH]; simpl; intros Hnd H1 H2; [contradiction|].
  inversion Hnd as [|? ? Hk Hnd']; subst.
  destruct H1 as [H1|H1], H2 as [H2|H2].
  - congruence.
  - inversion H1; subst. exfalso. apply Hk.
    change k with (fst (k, v')). now apply in_map.
  - inversion H2; subst. exfalso. apply Hk.
    change k with (fst (k, v)). now apply in_map.
  - now apply IH.
Qed.

Lemma in_keys {V} (d : dict V) k :
  In k (keys d) <-> exists v, In (k, v) d.
Proof.
  unfold keys. rewrite in_map_iff. split.
  - intros ([k0 v] & E & H). simpl in E. subst. eauto.
  - intros (v & H). exists (k, v). auto.
Qed.

Lemma collect_key_iff {X} (found : str -> OCRRegex -> list X) table k r :
  NoDup (keys table) -> In (k, r) table ->
  (In k (keys (collect found table)) <-> found k r <> []).
Proof.
  intros Hnd Hin. rewrite in_keys. split.
  - intros (l & Hl). apply collect_keys in Hl.
    destruct Hl as (r0 & Hin0 & E & Hne).
    assert (r = r0) by (eapply keys_unique; eassumption). congruence.
  - intros Hne. eexists. apply collect_present; eassumption.
Qed.

(** The keys come in the order of the table. *)
Lemma collect_keys_order {X} (found : str -> OCRRegex -> list X) table :
  keys (collect found table)
  = keys (filter (fun item => match found (fst item) (snd item) with
                              | [] => false
                              | _ => true
                              end) table).
Proof.
  induction table as [|[k r] table IH]; simpl; [reflexivity|].
  destruct (found k r); simpl; [assumption|]. now rewrite <- IH.
Qed.

Lemma replace_digits (w : str) :
  Forall (fun x => is_digit x = true) w -> replace_char 44 46 w = w.
Proof.
  induction 1 as [|x w Hx _ IH]; simpl; [reflexivity|].
  rewrite IH. destruct (N.eqb_spec x 44); [subst; discriminate|reflexivity].
Qed.

(** Putting a dot for every comma turns the captured number into a
    decimal string. *)
Lemma number_shape_replace (w : str) :
  number_shape [44; 46]%N w -> number_shape [46]%N (replace_char 44 46 w).
Proof.
  intros (ip & sep & fp & -> & Hne & Hip & Hsep & Hfp).
  exists ip, (replace_char 44 46 sep), fp.
  unfold replace_char at 1. rewrite !map_app.
  fold (replace_char 44 46 ip) (replace_char 44 46 sep)
       (replace_char 44 46 fp).
  rewrite (replace_digits Hip), (replace_digits Hfp).
  repeat split; try assumption.
  destruct Hsep as [->|(x & -> & Hx)]; [now left|].
  right. exists 46%N. split; [|now left].
  simpl in Hx. destruct Hx as [<-|[<-|[]]]; reflexivity.
Qed.

(** ** The two tables of compiled matchers *)

Lemma value_shaped_fenced r : value_shaped r -> fenced r.
Proof.
  intros (a & us & -> & _). split; [eexists|]; reflexivity.
Qed.

Ltac distinct_keys :=
  vm_compute;
  repeat (apply NoDup_cons; [simpl; intuition discriminate|]);
  apply NoDup_nil.

Lemma values_regex_keys : NoDup (keys NUTRIENT_VALUES_REGEX).
Proof. distinct_keys. Qed.

Lemma mentions_regex_keys : NoDup (keys NUTRIENT_MENTIONS_REGEX).
Proof. distinct_keys. Qed.

Lemma values_regex_shaped :
  Forall (fun item => value_shaped (regex (snd item))) NUTRIENT_VALUES_REGEX.
Proof.
  unfold NUTRIENT_VALUES_REGEX.
  repeat (apply Forall_cons;
          [eexists; eexists; split;
           [reflexivity | simpl; intuition discriminate]|]).
  apply Forall_nil.
Qed.

Lemma mention_shaped_fenced r : mention_shaped r -> fenced r.
Proof.
  intros (a & ->). split; [eexists|]; reflexivity.
Qed.

Lemma mentions_regex_shaped :
  Forall (fun item => mention_shaped (regex (snd item)))
         NUTRIENT_MENTIONS_REGEX.
Proof.
  unfold NUTRIENT_MENTIONS_REGEX.
  repeat (apply Forall_cons; [eexists; reflexivity|]).
  apply Forall_nil.
Qed.

(** ** find_nutrient_values and find_nutrient_mentions *)

Section ExtractionProps.

Variable unicode_isalnum : N -> bool.
Variable Content : Type.
Variable get_text : Content -> OCRRegex -> option str.

Notation finditer := (finditer unicode_isalnum).
Notation match_of := (match_of unicode_isalnum).
Notation is_word := (is_word unicode_isalnum).
Notation find_values_in := (find_values_in unicode_isalnum get_text).
Notation find_mentions_in := (find_mentions_in unicode_isalnum get_text).
Notation find_nutrient_values :=
  (find_nutrient_values unicode_isalnum get_text).
Notation find_nutrient_mentions :=
  (find_nutrient_mentions unicode_isalnum get_text).
Notation matches_in := (matches_in unicode_isalnum get_text).
Notation values_found := (values_found unicode_isalnum get_text).
Notation mentions_found := (mentions_found unicode_isalnum get_text).

Lemma matches_in_sound content r mo :
  In mo (matches_in content r) ->
  exists text, get_text content r = Some text
               /\ text <> []
               /\ In mo (finditer (regex r) text)
               /\ match_of (regex r) text mo.
Proof.
  unfold matches_in. destruct (get_text content r) as [[|c t]|];
    try contradiction.
  intros H. exists (c :: t). repeat split; try assumption; try discriminate.
  now apply finditer_sound.
Qed.

Lemma value_entry_ok content k r d mo :
  value_shaped (regex r) ->
  In mo (matches_in content r) ->
  value_entry k d mo = ret (add_entry k (value_of k mo) d).
Proof.
  intros (a & us & Er & Hus) Hin.
  apply matches_in_sound in Hin. destruct Hin as (text & _ & _ & _ & Hm).
  rewrite Er in Hm. apply value_match_group2 in Hm; [|assumption].
  destruct Hm as (num & Eg & _).
  unfold value_entry, value_of. rewrite Eg. simpl.
  apply getitem_append_setdefault.
Qed.

Lemma find_values_in_spec table content :
  NoDup (keys table) ->
  Forall (fun item => value_shaped (regex (snd item))) table ->
  find_values_in table content
  = ret (assemble (u "nutrients") (collect (values_found content) table)).
Proof.
  intros Hnd Hshape. unfold find_values_in.
  erewrite (kind_loop (values_found content)); try assumption.
  - simpl. now destruct (collect (values_found content) table).
  - intros d k r Hin. unfold values_found.
    rewrite Forall_forall in Hshape. specialize (Hshape _ Hin). simpl in Hshape.
    rewrite <- (entry_loop (value_entry k) (value_of k) k
                           (matches_in content r)).
    + unfold matches_in. now destruct (get_text content r) as [[|c t]|].
    + intros d' mo Hmo. eapply value_entry_ok; eassumption.
  - reflexivity.
Qed.

Lemma find_mentions_in_spec table content :
  NoDup (keys table) ->
  find_mentions_in table content
  = ret (assemble (u "mentions") (collect (mentions_found content) table)).
Proof.
  intros Hnd. unfold find_mentions_in.
  erewrite (kind_loop (mentions_found content)); try assumption.
  - simpl. now destruct (collect (mentions_found content) table).
  - intros d k r Hin. unfold mentions_found.
    rewrite <- (entry_loop (mention_entry k) mention_of k
                           (matches_in content r)).
    + unfold matches_in. now destruct (get_text content r) as [[|c t]|].
    + intros d' mo Hmo. unfold mention_entry.
      apply getitem_append_setdefault.
  - reflexivity.
Qed.

Lemma find_nutrient_values_spec content :
  find_nutrient_values content
  = ret (assemble (u "nutrients")
                  (collect (values_found content) NUTRIENT_VALUES_REGEX)).
Proof.
  apply find_values_in_spec;
    [exact values_regex_keys | exact values_regex_shaped].
Qed.

Lemma find_nutrient_mentions_spec content :
  find_nutrient_mentions content
  = ret (assemble (u "mentions")
                  (collect (mentions_found content) NUTRIENT_MENTIONS_REGEX)).
Proof. apply find_mentions_in_spec. exact mentions_regex_keys. Qed.

Lemma values_found_nil content k r :
  values_found content k r = [] <-> matches_in content r = [].
Proof.
  unfold values_found. split; [apply map_eq_nil | intros ->; reflexivity].
Qed.

Lemma mentions_found_nil content k r :
  mentions_found content k r = [] <-> matches_in content r = [].
Proof.
  unfold mentions_found. split; [apply map_eq_nil | intros ->; reflexivity].
Qed.

Lemma in_assemble {V} key (d : dict (list V)) env :
  In env (assemble key d) ->
  d <> [] /\ payload env = d /\ payload_key env = key
  /\ version env = EXTRACTOR_VERSION.
Proof.
  destruct d as [|kv d]; simpl; [contradiction|].
  intros [<-|[]]. simpl. repeat split. discriminate.
Qed.

Lemma assemble_nil {V} key (d : dict (list V)) :
  assemble key d = [] <-> d = [].
Proof. destruct d; simpl; split; congruence. Qed.

(** The law of the keys, for any table with distinct keys. *)
Lemma assembled_keys {V} (found : str -> OCRRegex -> list V)
      (table : dict OCRRegex) key :
  NoDup (keys table) ->
  (assemble key (collect found table) = []
   <-> forall k r, In (k, r) table -> found k r = [])
  /\ forall env, In env (assemble key (collect found table)) ->
       payload env <> []
       /\ (forall k r, In (k, r) table ->
             (In k (keys (payload env)) <-> found k r <> []))
       /\ (forall k l, In (k, l) (payload env) ->
             l <> [] /\ exists r, In (k, r) table /\ l = found k r).
Proof.
  intros Hnd. split.
  - rewrite assemble_nil. apply collect_nil.
  - intros env Henv. apply in_assemble in Henv.
    destruct Henv as (Hne & -> & _ & _). split; [assumption|]. split.
    + intros k r Hin. now apply collect_key_iff.
    + intros k l Hin. apply collect_keys in Hin.
      destruct Hin as (r & Hin & E & Hl). split; [assumption|].
      exists r. split; [assumption | now symmetry].
Qed.

(** C2: in the mapping of the envelope that find_nutrient_values
    (respectively find_nutrient_mentions) returns, a kind is a key exactly
    when its matcher found at least one match, every list stored is
    non-empty and is the list of that kind's matches, and the result is
    the empty sequence exactly when no kind found a match: an envelope
    never carries an empty mapping. *)
Theorem keys_iff_matches content :
  (exists out,
      find_nutrient_values content = ret out
      /\ (out = [] <->
          forall k r, In (k, r) NUTRIENT_VALUES_REGEX ->
                      matches_in content r = [])
      /\ forall env, In env out ->
           payload env <> []
           /\ (forall k r, In (k, r) NUTRIENT_VALUES_REGEX ->
                 (In k (keys (payload env)) <-> matches_in content r <> []))
           /\ (forall k l, In (k, l) (payload env) ->
                 l <> []
                 /\ exists r, In (k, r) NUTRIENT_VALUES_REGEX
                              /\ l = values_found content k r))
  /\ (exists out,
        find_nutrient_mentions content = ret out
        /\ (out = [] <->
            forall k r, In (k, r) NUTRIENT_MENTIONS_REGEX ->
                        matches_in content r = [])
        /\ forall env, In env out ->
             payload env <> []
             /\ (forall k r, In (k, r) NUTRIENT_MENTIONS_REGEX ->
                   (In k (keys (payload env)) <-> matches_in content r <> []))
             /\ (forall k l, In (k, l) (payload env) ->
                   l <> []
                   /\ exists r, In (k, r) NUTRIENT_MENTIONS_REGEX
                                /\ l = mentions_found content k r)).
Proof.
  split.
  - rewrite find_nutrient_values_spec. eexists. split; [reflexivity|].
    destruct (@assembled_keys _ (values_found content) NUTRIENT_VALUES_REGEX
                              (u "nutrients") values_regex_keys)
      as [Hnil Henv].
    split.
    + rewrite Hnil. split; intros H k r Hin; specialize (H k r Hin);
        now apply (values_found_nil content k r).
    + intros env Hin. destruct (Henv env Hin) as (H1 & H2 & H3).
      split; [assumption|]. split; [|assumption].
      intros k r Hkr. rewrite (H2 k r Hkr).
      now rewrite values_found_nil.
  - rewrite find_nutrient_mentions_spec. eexists. split; [reflexivity|].
    destruct (@assembled_keys _ (mentions_found content)
                              NUTRIENT_MENTIONS_REGEX
                              (u "mentions") mentions_regex_keys)
      as [Hnil Henv].
    split.
    + rewrite Hnil. split; intros H k r Hin; specialize (H k r Hin);
        now apply (mentions_found_nil content k r).
    + intros env Hin. destruct (Henv env Hin) as (H1 & H2 & H3).
      split; [assumption|]. split; [|assumption].
      intros k r Hkr. rewrite (H2 k r Hkr).
      now rewrite mentions_found_nil.
Qed.

(** C6: find_nutrient_values and find_nutrient_mentions both return, for
    every input, a sequence of at most one envelope, and an envelope
    carries the extractor version "1". *)
Theorem at_most_one_envelope content :
  (exists out,
      find_nutrient_values content = ret out
      /\ List.length out <= 1
      /\ forall env, In env out -> version env = u "1")
  /\ (exists out,
        find_nutrient_mentions content = ret out
        /\ List.length out <= 1
        /\ forall env, In env out -> version env = u "1").
Proof.
  split.
  - rewrite find_nutrient_values_spec. eexists. split; [reflexivity|].
    split.
    + destruct (collect (values_found content) NUTRIENT_VALUES_REGEX);
        simpl; lia.
    + intros env Hin. now apply in_assemble in Hin.
  - rewrite find_nutrient_mentions_spec. eexists. split; [reflexivity|].
    split.
    + destruct (collect (mentions_found content) NUTRIENT_MENTIONS_REGEX);
        simpl; lia.
    + intros env Hin. now apply in_assemble in Hin.
Qed.

(** C3: the value of every ValueMatch that find_nutrient_values returns
    is the second group of a match of its kind's matcher in the searched
    text, with a dot put for every comma; and it matches
    [^[0-9]+\.?[0-9]*$]: it is made of digits, at least one, then at most
    one dot, then digits, which is a text of that pattern as compiled. *)
Theorem value_is_normalised_number content out env k l vm :
  find_nutrient_values content = ret out ->
  In env out -> In (k, l) (payload env) -> In vm l ->
  (exists r text mo num,
      In (k, r) NUTRIENT_VALUES_REGEX
      /\ get_text content r = Some text
      /\ In mo (finditer (regex r) text)
      /\ vm = value_of k mo
      /\ group mo 2 = Some num
      /\ vm_value vm = replace_char 44 46 num)
  /\ number_shape [46]%N (vm_value vm)
  /\ re_compile (u "[0-9]+\.?[0-9]*") = ret decimal_pattern
  /\ fullmatch unicode_isalnum decimal_pattern (vm_value vm).
Proof.
  rewrite find_nutrient_values_spec. intros Hout Henv Hkl Hvm.
  apply ret_inj in Hout. subst out.
  apply in_assemble in Henv. destruct Henv as (_ & Ep & _ & _).
  rewrite Ep in Hkl. apply collect_keys in Hkl.
  destruct Hkl as (r & Hr & El & _). subst l.
  unfold values_found in Hvm. apply in_map_iff in Hvm.
  destruct Hvm as (mo & Evm & Hmo).
  apply matches_in_sound in Hmo.
  destruct Hmo as (text & Et & _ & Hfind & Hm).
  pose proof values_regex_shaped as Hshape.
  rewrite Forall_forall in Hshape. specialize (Hshape _ Hr).
  destruct Hshape as (a & us & Er & Hus). simpl in Er.
  rewrite Er in Hm. apply value_match_group2 in Hm; [|assumption].
  destruct Hm as (num & Eg & Hnum).
  assert (Ev : vm_value vm = replace_char 44 46 num)
    by (subst vm; unfold value_of; cbn [vm_value]; now rewrite Eg).
  assert (Hdec : number_shape [46]%N (vm_value vm))
    by (rewrite Ev; now apply number_shape_replace).
  split; [|split; [assumption|split; [reflexivity|]]].
  - exists r, text, mo, num. repeat split; try assumption. now symmetry.
  - now apply number_shape_fullmatch.
Qed.

(** C4: at every match that a matcher of either table reports, in any
    text, the character just before the start of the match, when there is
    one, is not a word character, and neither is the character at the end
    of the match, when there is one; and the matchers of "salt" find
    nothing in "conseil d'utilisation". *)
Theorem no_match_inside_a_word :
  (forall kind r text mo,
      In (kind, r) NUTRIENT_VALUES_REGEX
      \/ In (kind, r) NUTRIENT_MENTIONS_REGEX ->
      In mo (finditer (regex r) text) ->
      (forall i y, m_start mo = S i -> nth_error text i = Some y ->
                   is_word y = false)
      /\ (forall y, nth_error text (m_end mo) = Some y ->
                    is_word y = false))
  /\ finditer salt_mention_regex (u "conseil d'utilisation") = []
  /\ finditer salt_value_regex (u "conseil d'utilisation") = [].
Proof.
  split; [|split].
  - intros kind r text mo Hin Hmo. apply finditer_sound in Hmo.
    assert (Hf : fenced (regex r)).
    { destruct Hin as [Hin|Hin].
      - pose proof values_regex_shaped as H. rewrite Forall_forall in H.
        apply value_shaped_fenced. exact (H _ Hin).
      - pose proof mentions_regex_shaped as H. rewrite Forall_forall in H.
        apply mention_shaped_fenced. exact (H _ Hin). }
    destruct Hf as [(r' & Er) Hend].
    eapply match_of_boundaries; eassumption.
  - unfold finditer. apply scan_never. vm_compute. repeat split.
  - unfold finditer. apply scan_never. vm_compute. repeat split.
Qed.

(** C5: for every MentionMatch that find_nutrient_mentions returns, the
    span is a pair of offsets into the text that was searched, and the text
    between them is the raw field. *)
Theorem mention_span_is_raw content out env k l mm :
  find_nutrient_mentions content = ret out ->
  In env out -> In (k, l) (payload env) -> In mm l ->
  exists r text start stop,
    In (k, r) NUTRIENT_MENTIONS_REGEX
    /\ get_text content r = Some text
    /\ mm_span mm = [start; stop]
    /\ start <= stop <= List.length text
    /\ slice text start stop = mm_raw mm.
Proof.
  rewrite find_nutrient_mentions_spec. intros Hout Henv Hkl Hmm.
  apply ret_inj in Hout. subst out.
  apply in_assemble in Henv. destruct Henv as (_ & Ep & _ & _).
  rewrite Ep in Hkl. apply collect_keys in Hkl.
  destruct Hkl as (r & Hr & El & _). subst l.
  unfold mentions_found in Hmm. apply in_map_iff in Hmm.
  destruct Hmm as (mo & Emm & Hmo).
  apply matches_in_sound in Hmo.
  destruct Hmo as (text & Et & _ & _ & Hm).
  apply match_of_span in Hm.
  destruct Hm as (before & w & after & Etext & Es & Ee & Eg).
  exists r, text, (m_start mo), (m_end mo). subst mm. simpl.
  repeat split; try assumption; try lia.
  - rewrite Ee, Etext. list_norm. lia.
  - rewrite Eg, Etext, Es, Ee. apply slice_middle.
Qed.

(** C9: the keys of the mapping that find_nutrient_values returns are
    among the nine kinds of the unit catalog, "nutrition_values" is never
    one of them, and every ValueMatch names the key it is listed under. *)
Theorem value_keys_in_unit_catalog content out env k l :
  find_nutrient_values content = ret out ->
  In env out -> In (k, l) (payload env) ->
  In k (keys NUTRIENT_UNITS)
  /\ List.length (keys NUTRIENT_UNITS) = 9
  /\ k <> u "nutrition_values"
  /\ Forall (fun vm => vm_nutrient vm = k) l.
Proof.
  rewrite find_nutrient_values_spec. intros Hout Henv Hkl.
  apply ret_inj in Hout. subst out.
  apply in_assemble in Henv. destruct Henv as (_ & Ep & _ & _).
  rewrite Ep in Hkl. apply collect_keys in Hkl.
  destruct Hkl as (r & Hr & El & _). subst l.
  assert (Hk : In k (keys NUTRIENT_UNITS)).
  { replace (keys NUTRIENT_UNITS) with (keys NUTRIENT_VALUES_REGEX)
      by (vm_compute; reflexivity).
    apply in_keys. eauto. }
  split; [assumption|]. split; [reflexivity|]. split.
  - intros ->. vm_compute in Hk. intuition discriminate.
  - unfold values_found. apply Forall_forall. intros vm Hvm.
    apply in_map_iff in Hvm. destruct Hvm as (mo & <- & _). reflexivity.
Qed.

End ExtractionProps.

(** ** The two functions over the store

    The loops of the first embedding are simulated step by step: the dict
    of a call holds, key by key, the mapping the first embedding has built
    so far, each list being an object of its own. *)

Lemma length_replace_nth r o : forall s,
  List.length (Store.replace_nth r o s) = List.length s.
Proof.
  induction r as [|r IH]; intros [|x s]; simpl; auto.
Qed.

Lemma nth_error_replace_nth_same o : forall r s,
  r < List.length s -> nth_error (Store.replace_nth r o s) r = Some o.
Proof.
  induction r as [|r IH]; intros [|x s]; simpl; intros H; try lia;
    [reflexivity|]. apply IH. lia.
Qed.

Lemma nth_error_replace_nth_other o : forall r r' s,
  r <> r' -> nth_error (Store.replace_nth r o s) r' = nth_error s r'.
Proof.
  induction r as [|r IH]; intros [|r'] [|x s] H; simpl; try reflexivity;
    try congruence.
  apply IH. congruence.
Qed.

Lemma firstn_replace_nth o : forall n r s,
  n <= r -> firstn n (Store.replace_nth r o s) = firstn n s.
Proof.
  induction n as [|n IH]; intros r s H; [reflexivity|].
  destruct r as [|r]; [lia|]. destruct s as [|x s]; [reflexivity|].
  simpl. rewrite IH by lia. reflexivity.
Qed.

Lemma nth_error_snoc_old {A} (s : list A) x r :
  r < List.length s -> nth_error (s ++ [x]) r = nth_error s r.
Proof. intros H. now apply nth_error_app1. Qed.

Lemma nth_error_snoc_new {A} (s : list A) x :
  nth_error (s ++ [x]) (List.length s) = Some x.
Proof. rewrite nth_error_app2, Nat.sub_diag by lia. reflexivity. Qed.

Lemma nth_error_bound {A} (s : list A) r x :
  nth_error s r = Some x -> r < List.length s.
Proof. intros H. apply nth_error_Some. congruence. Qed.

Lemma dict_get_snoc {V} (k : str) (v : V) : forall d,
  dict_get k d = None -> dict_get k (d ++ [(k, v)]) = Some v.
Proof.
  induction d as [|[k0 v0] d IH]; simpl; intros H.
  - now rewrite str_eqb_refl.
  - destruct (str_eqb k0 k); [discriminate|]. now apply IH.
Qed.

Section Holds.

Variable V : Type.
Variable inj : V -> entry.
Variable n0 : nat.

(** What [holds] says of one key and its list. *)
Notation held s :=
  (fun (it : str * Store.ref) (kv : str * list V) =>
     fst it = fst kv
     /\ n0 <= snd it
     /\ nth_error s (snd it) = Some (Store.PyList (map inj (snd kv)))).

Lemma held_lookup s k : forall items (m : dict (list V)),
  Forall2 (held s) items m ->
  match dict_get k items with
  | Some l => exists xs, dict_get k m = Some xs
                         /\ nth_error s l = Some (Store.PyList (map inj xs))
  | None => dict_get k m = None
  end.
Proof.
  induction 1 as [|[k1 l1] [k2 xs] items m (Hk & _ & Hl) _ IH]; simpl;
    [reflexivity|].
  simpl in Hk, Hl. subst k2. destruct (str_eqb k1 k); [eauto | exact IH].
Qed.

(** Objects that stay as they are keep what is held. *)
Lemma held_preserved s s' items (m : dict (list V)) :
  Forall2 (held s) items m ->
  (forall l, In l (map snd items) -> nth_error s' l = nth_error s l) ->
  Forall2 (held s') items m.
Proof.
  induction 1 as [|[k1 l1] [k2 xs] items m (Hk & Hn & Hl) _ IH]; intros Hsame;
    constructor.
  - simpl in *. rewrite Hsame by now left. auto.
  - apply IH. intros l Hin. apply Hsame. now right.
Qed.

(** [append] on the list of the first entry under [k]: the lists of the
    other entries are other objects. *)
Lemma held_append s k x o : forall items (m : dict (list V)) l xs,
  Forall2 (held s) items m ->
  NoDup (map snd items) ->
  dict_get k items = Some l ->
  dict_get k m = Some xs ->
  o = Store.PyList (map inj xs ++ [inj x]) ->
  Forall2 (held (Store.replace_nth l o s)) items
          (update k (fun l => l ++ [x]) m).
Proof.
  induction 1 as [|[k1 l1] [k2 ys] items m (Hk & Hn & Hl) Hrest IH];
    intros Hnd Hget Hgetm ->; simpl in *; [discriminate|].
  subst k2. inversion Hnd as [|? ? Hfresh Hnd']; subst.
  destruct (str_eqb k1 k) eqn:Ek.
  - inversion Hget; subst l1. inversion Hgetm; subst ys. constructor.
    + simpl. split; [reflexivity|]. split; [assumption|].
      rewrite nth_error_replace_nth_same
        by (eapply nth_error_bound; eassumption).
      now rewrite map_app.
    + apply held_preserved with (s := s); [assumption|].
      intros l' Hin. apply nth_error_replace_nth_other.
      intros ->. contradiction.
  - constructor.
    + simpl. split; [reflexivity|]. split; [assumption|].
      rewrite nth_error_replace_nth_other; [assumption|].
      intros ->. apply Hfresh.
      clear - Hrest Hget. induction Hrest as [|[k3 l3] kv items m _ _ IH'];
        simpl in *; [discriminate|].
      destruct (str_eqb k3 k); [inversion Hget; now left | right; auto].
    + eapply IH; eauto.
Qed.

End Holds.

Lemma Forall2_In_left {A B} (R : A -> B -> Prop) l l' x :
  Forall2 R l l' -> In x l -> exists y, In y l' /\ R x y.
Proof.
  induction 1 as [|a b l l' Hab _ IH]; simpl; [contradiction|].
  intros [<-|Hin]; [eauto|]. destruct (IH Hin) as (y & Hy & Hr). eauto.
Qed.

(** The statements of the store, one by one. *)
Lemma and_then_ret {A B} (m : Store.M A) (f : A -> Store.M B) s a s1 :
  m s = ret (a, s1) -> Store.and_then m f s = f a s1.
Proof. unfold Store.and_then. intros ->. reflexivity. Qed.

Lemma and_then_raise {A B} (m : Store.M A) (f : A -> Store.M B) s e :
  m s = raise e -> Store.and_then m f s = raise e.
Proof. unfold Store.and_then. intros ->. reflexivity. Qed.

Lemma dict_setdefault_present d k default s items l :
  nth_error s d = Some (Store.Dict items) ->
  dict_get k items = Some l ->
  Store.dict_setdefault d k default s = ret (tt, s).
Proof.
  intros Hd Hk. unfold Store.dict_setdefault, Store.and_then, Store.load.
  rewrite Hd. simpl. now rewrite Hk.
Qed.

Lemma dict_setdefault_absent d k default s items :
  nth_error s d = Some (Store.Dict items) ->
  dict_get k items = None ->
  Store.dict_setdefault d k default s
  = ret (tt, Store.replace_nth d (Store.Dict (items ++ [(k, default)])) s).
Proof.
  intros Hd Hk. unfold Store.dict_setdefault, Store.and_then, Store.load.
  rewrite Hd. simpl. now rewrite Hk.
Qed.

Lemma dict_getitem_present d k s items l :
  nth_error s d = Some (Store.Dict items) ->
  dict_get k items = Some l ->
  Store.dict_getitem d k s = ret (l, s).
Proof.
  intros Hd Hk.
  unfold Store.dict_getitem, Store.and_then, Store.load, Store.lift, getitem.
  rewrite Hd. simpl. now rewrite Hk.
Qed.

Lemma list_append_list l x s items :
  nth_error s l = Some (Store.PyList items) ->
  Store.list_append l x s
  = ret (tt, Store.replace_nth l (Store.PyList (items ++ [x])) s).
Proof.
  intros Hl. unfold Store.list_append, Store.and_then, Store.load.
  now rewrite Hl.
Qed.

Section Record.

Variable V : Type.
Variable inj : V -> entry.
Variable n0 : nat.

(** [nutrients.setdefault(regex_code, [])] and
    [nutrients[regex_code].append(x)] on the store: the new entry goes to
    the list of its key, a list created for it when the key is new, and
    nothing else changes. *)
Lemma holds_add_entry s d (m : dict (list V)) k x :
  holds inj n0 s d m ->
  exists s',
    Store.and_then
      (Store.new (Store.PyList []))
      (fun default =>
         Store.and_then
           (Store.dict_setdefault d k default)
           (fun _ =>
              Store.and_then
                (Store.dict_getitem d k)
                (fun l => Store.list_append l (inj x)))) s
    = ret (tt, s')
    /\ holds inj n0 s' d (add_entry k x m)
    /\ firstn n0 s' = firstn n0 s.
Proof.
  intros (Hd & items & Hload & Hheld & Hnd).
  pose proof (nth_error_bound _ _ Hload) as Hdlt.
  assert (Hrefs : forall l, In l (map snd items) ->
                            l < List.length s /\ l <> d).
  { intros l Hin. apply in_map_iff in Hin. destruct Hin as ([k0 l0] & <- & Hin).
    destruct (@Forall2_In_left _ _ _ _ _ _ Hheld Hin) as (kv & _ & _ & _ & Hl). simpl in *.
    split; [eapply nth_error_bound; eassumption|]. intros ->. congruence. }
  set (s1 := s ++ [Store.PyList []]).
  assert (Hnew : Store.new (Store.PyList []) s = ret (List.length s, s1))
    by reflexivity.
  assert (Hload1 : nth_error s1 d = Some (Store.Dict items))
    by (unfold s1; now rewrite nth_error_snoc_old).
  assert (Hfirst1 : firstn n0 s1 = firstn n0 s)
    by (unfold s1; rewrite firstn_app;
        replace (n0 - List.length s) with 0 by lia;
        simpl; now rewrite app_nil_r).
  assert (Hheld1 : Forall2
            (fun (it : str * Store.ref) (kv : str * list V) =>
               fst it = fst kv /\ n0 <= snd it
               /\ nth_error s1 (snd it)
                  = Some (Store.PyList (map inj (snd kv)))) items m).
  { eapply held_preserved; [exact Hheld|]. intros l Hin.
    unfold s1. apply nth_error_snoc_old. now apply Hrefs. }
  rewrite (@and_then_ret _ _ _ _ _ _ _ Hnew).
  pose proof (@held_lookup _ inj n0 s1 k _ _ Hheld1) as Hk.
  destruct (dict_get k items) as [l|] eqn:Eg.
  - destruct Hk as (xs & Egm & Hl).
    rewrite (@and_then_ret _ _ _ _ _ _ _
               (@dict_setdefault_present _ _ _ _ _ _ Hload1 Eg)).
    rewrite (@and_then_ret _ _ _ _ _ _ _
               (@dict_getitem_present _ _ _ _ _ Hload1 Eg)).
    rewrite (@list_append_list _ _ _ _ Hl).
    assert (Hld : l <> d) by (intros ->; congruence).
    eexists. split; [reflexivity|]. split; [split; [assumption|]|].
    + exists items. split; [|split; [|assumption]].
      * now rewrite nth_error_replace_nth_other.
      * unfold add_entry, setdefault. rewrite Egm.
        eapply held_append; eauto.
    + rewrite firstn_replace_nth; [assumption|].
      clear - Hheld1 Eg. induction Hheld1 as [|[k3 l3] kv its m0 (_ & Hn & _) _ IH];
        simpl in *; [discriminate|].
      destruct (str_eqb k3 k); [inversion Eg; now subst | auto].
  - rewrite (@and_then_ret _ _ _ _ _ _ _
               (@dict_setdefault_absent _ _ _ _ _ Hload1 Eg)).
    set (s2 := Store.replace_nth d _ s1).
    assert (Hlen1 : List.length s1 = S (List.length s))
      by (unfold s1; rewrite length_app; simpl; lia).
    assert (Hload2 : nth_error s2 d
                     = Some (Store.Dict (items ++ [(k, List.length s)])))
      by (unfold s2; apply nth_error_replace_nth_same; lia).
    rewrite (@and_then_ret _ _ _ _ _ _ _
               (@dict_getitem_present _ _ _ _ _ Hload2
                                      (@dict_get_snoc _ _ _ _ Eg))).
    assert (Hl2 : nth_error s2 (List.length s) = Some (Store.PyList [])).
    { unfold s2. rewrite nth_error_replace_nth_other by lia.
      unfold s1. apply nth_error_snoc_new. }
    rewrite (@list_append_list _ _ _ _ Hl2). simpl app.
    eexists. split; [reflexivity|]. split; [split; [assumption|]|].
    + exists (items ++ [(k, List.length s)]). split; [|split].
      * rewrite nth_error_replace_nth_other by lia. exact Hload2.
      * rewrite add_entry_fresh by assumption. apply Forall2_app.
        -- eapply held_preserved; [exact Hheld1|]. intros l Hin.
           destruct (Hrefs l Hin) as [Hlt Hne].
           rewrite nth_error_replace_nth_other by lia.
           unfold s2. now rewrite nth_error_replace_nth_other by congruence.
        -- constructor; [|constructor]. simpl.
           split; [reflexivity|]. split; [lia|].
           apply nth_error_replace_nth_same.
           unfold s2. rewrite length_replace_nth. lia.
      * rewrite map_app. simpl. apply NoDup_app; [assumption| |].
        -- constructor; [simpl; tauto | constructor].
        -- intros l Hin [<-|[]]. apply Hrefs in Hin. lia.
    + rewrite firstn_replace_nth by lia. unfold s2.
      rewrite firstn_replace_nth by assumption. exact Hfirst1.
Qed.

End Record.

Lemma nth_error_firstn_Some {A} (o : A) : forall n l r,
  nth_error (firstn n l) r = Some o -> nth_error l r = Some o.
Proof.
  induction n as [|n IH]; intros [|x l] [|r]; simpl; try discriminate; auto.
Qed.

Section Loops.

Variable V : Type.
Variable inj : V -> entry.

(** Objects added to the store leave what is held as it is. *)
Lemma holds_extends n0 s s' d (m : dict (list V)) :
  holds inj n0 s d m -> firstn (List.length s) s' = s -> holds inj n0 s' d m.
Proof.
  intros (Hd & items & Hload & Hheld & Hnd) Hext.
  assert (Hsame : forall r o, nth_error s r = Some o -> nth_error s' r = Some o).
  { intros r o H. rewrite <- Hext in H.
    eapply nth_error_firstn_Some; eassumption. }
  split; [assumption|]. exists items. split; [auto|]. split; [|assumption].
  clear - Hheld Hsame.
  induction Hheld as [|it kv items m (Hk & Hn & Hl) _ IH]; constructor; auto.
Qed.

Lemma holds_read n0 s d (m : dict (list V)) :
  holds inj n0 s d m -> Store.read_dict s d = Some (entries_of inj m).
Proof.
  intros (_ & items & Hload & Hheld & _). unfold Store.read_dict.
  rewrite Hload. clear Hload.
  induction Hheld as [|[k1 l1] [k2 xs] items m (Hk & _ & Hl) _ IH];
    simpl in *; [reflexivity|].
  unfold Store.read_list. rewrite Hl, IH. now subst.
Qed.

Lemma holds_is_empty n0 s d (m : dict (list V)) :
  holds inj n0 s d m ->
  Store.dict_is_empty d s
  = ret (match m with [] => true | _ => false end, s).
Proof.
  intros (_ & items & Hload & Hheld & _).
  unfold Store.dict_is_empty, Store.and_then, Store.load. rewrite Hload.
  destruct Hheld; reflexivity.
Qed.

Variable pure_entry : str -> dict (list V) -> Match -> result (dict (list V)).
Variable store_entry : str -> Store.ref -> Match -> Store.M unit.

Hypothesis entry_sim : forall n0 s d m k mo m',
  holds inj n0 s d m ->
  pure_entry k m mo = ret m' ->
  exists s', store_entry k d mo s = ret (tt, s')
             /\ holds inj n0 s' d m'
             /\ firstn n0 s' = firstn n0 s.

Lemma matches_loop_store n0 d k mos : forall s m m',
  holds inj n0 s d m ->
  foldM (pure_entry k) mos m = ret m' ->
  exists s', Store.for_each (store_entry k d) mos s = ret (tt, s')
             /\ holds inj n0 s' d m'
             /\ firstn n0 s' = firstn n0 s.
Proof.
  induction mos as [|mo mos IH]; intros s m m' Hholds Hrun; simpl in Hrun.
  - apply ret_inj in Hrun. subst m'. exists s. auto.
  - apply bind_ret_inv in Hrun. destruct Hrun as (m1 & E1 & E2).
    destruct (entry_sim Hholds E1) as (s1 & R1 & H1 & F1).
    destruct (IH _ _ _ H1 E2) as (s2 & R2 & H2 & F2).
    exists s2. simpl. rewrite (@and_then_ret _ _ _ _ _ _ _ R1).
    split; [assumption|]. split; [assumption | congruence].
Qed.

Variable unicode_isalnum : N -> bool.
Variable Content : Type.
Variable get_text : Content -> OCRRegex -> option str.

Lemma kinds_loop_store content n0 d table : forall s m m',
  holds inj n0 s d m ->
  foldM (fun nutrients (item : str * OCRRegex) =>
           let (regex_code, ocr_regex) := item in
           match get_text content ocr_regex with
           | None => ret nutrients
           | Some [] => ret nutrients
           | Some text =>
             foldM (pure_entry regex_code)
                   (finditer unicode_isalnum (regex ocr_regex) text)
                   nutrients
           end)
        table m = ret m' ->
  exists s',
    Store.for_each
      (fun item : str * OCRRegex =>
         let (regex_code, ocr_regex) := item in
         match get_text content ocr_regex with
         | None => Store.pure tt
         | Some [] => Store.pure tt
         | Some text =>
           Store.for_each (store_entry regex_code d)
                          (finditer unicode_isalnum (regex ocr_regex) text)
         end)
      table s = ret (tt, s')
    /\ holds inj n0 s' d m'
    /\ firstn n0 s' = firstn n0 s.
Proof.
  induction table as [|[k r] table IH]; intros s m m' Hholds Hrun;
    simpl in Hrun.
  - apply ret_inj in Hrun. subst m'. exists s. auto.
  - apply bind_ret_inv in Hrun. destruct Hrun as (m1 & E1 & E2).
    assert (Hturn : exists s1,
               match get_text content r with
               | None => Store.pure tt
               | Some [] => Store.pure tt
               | Some text =>
                 Store.for_each (store_entry k d)
                                (finditer unicode_isalnum (regex r) text)
               end s = ret (tt, s1)
               /\ holds inj n0 s1 d m1
               /\ firstn n0 s1 = firstn n0 s).
    { destruct (get_text content r) as [[|c text]|].
      - apply ret_inj in E1. subst m1. exists s. auto.
      - eapply matches_loop_store; eassumption.
      - apply ret_inj in E1. subst m1. exists s. auto. }
    destruct Hturn as (s1 & R1 & H1 & F1).
    destruct (IH _ _ _ H1 E2) as (s2 & R2 & H2 & F2).
    exists s2. simpl. rewrite (@and_then_ret _ _ _ _ _ _ _ R1).
    split; [assumption|]. split; [assumption | congruence].
Qed.

(** A call, from the creation of [nutrients] to the envelope. *)
Lemma call_store content key table out :
  (nutrients <-
     foldM (fun nutrients (item : str * OCRRegex) =>
              let (regex_code, ocr_regex) := item in
              match get_text content ocr_regex with
              | None => ret nutrients
              | Some [] => ret nutrients
              | Some text =>
                foldM (pure_entry regex_code)
                      (finditer unicode_isalnum (regex ocr_regex) text)
                      nutrients
              end)
           table [] ;;
   match nutrients with
   | [] => ret []
   | _ => ret [{| payload_key := key; payload := nutrients;
                  version := EXTRACTOR_VERSION |}]
   end) = ret out ->
  forall s, exists refs s',
    Store.and_then
      (Store.new (Store.Dict []))
      (fun nutrients =>
         Store.and_then
           (Store.for_each
              (fun item : str * OCRRegex =>
                 let (regex_code, ocr_regex) := item in
                 match get_text content ocr_regex with
                 | None => Store.pure tt
                 | Some [] => Store.pure tt
                 | Some text =>
                   Store.for_each
                     (store_entry regex_code nutrients)
                     (finditer unicode_isalnum (regex ocr_regex) text)
                 end)
              table)
           (fun _ =>
              Store.and_then
                (Store.dict_is_empty nutrients)
                (fun empty : bool =>
                   if empty
                   then Store.pure []
                   else Store.pure
                          [{| Store.payload_key := key;
                              Store.payload := nutrients;
                              Store.version := EXTRACTOR_VERSION |}]))) s
    = ret (refs, s')
    /\ firstn (List.length s) s' = s
    /\ forall s'', firstn (List.length s') s'' = s' ->
                   read s'' refs = Some (map (envelope_of inj) out).
Proof.
  intros Hrun s. apply bind_ret_inv in Hrun.
  destruct Hrun as (m & Hloop & Hout).
  assert (Hnew : Store.new (Store.Dict []) s
                 = ret (List.length s, s ++ [Store.Dict []])) by reflexivity.
  assert (H0 : holds inj (List.length s) (s ++ [Store.Dict []])
                     (List.length s) []).
  { split; [lia|]. exists []. split; [apply nth_error_snoc_new|].
    split; constructor. }
  destruct (kinds_loop_store _ _ H0 Hloop) as (s1 & R1 & H1 & F1).
  rewrite (@and_then_ret _ _ _ _ _ _ _ Hnew).
  rewrite (@and_then_ret _ _ _ _ _ _ _ R1).
  rewrite (@and_then_ret _ _ _ _ _ _ _ (holds_is_empty H1)).
  assert (Hframe : firstn (List.length s) s1 = s).
  { rewrite F1, firstn_app, Nat.sub_diag, firstn_all. simpl.
    apply app_nil_r. }
  destruct m as [|kv m].
  - apply ret_inj in Hout. subst out. exists [], s1.
    split; [reflexivity|]. split; [assumption|]. reflexivity.
  - apply ret_inj in Hout. subst out. eexists. exists s1.
    split; [reflexivity|]. split; [assumption|].
    intros s'' Hext. simpl. unfold read_envelope. simpl.
    rewrite (@holds_read _ _ _ _ (@holds_extends _ _ _ _ _ H1 Hext)).
    reflexivity.
Qed.

End Loops.

Lemma value_entry_store n0 s d m k mo m' :
  holds Value n0 s d m ->
  value_entry k m mo = ret m' ->
  exists s', Store.value_entry k d mo s = ret (tt, s')
             /\ holds Value n0 s' d m'
             /\ firstn n0 s' = firstn n0 s.
Proof.
  intros Hholds Hrun. unfold value_entry in Hrun.
  unfold Store.value_entry.
  destruct (group mo 2) as [number|]; [|discriminate].
  simpl in Hrun. rewrite getitem_append_setdefault in Hrun.
  apply ret_inj in Hrun. subst m'.
  rewrite (@and_then_ret _ _ _ _ _ number s eq_refl).
  now apply holds_add_entry.
Qed.

Lemma mention_entry_store n0 s d m k mo m' :
  holds Mention n0 s d m ->
  mention_entry k m mo = ret m' ->
  exists s', Store.mention_entry k d mo s = ret (tt, s')
             /\ holds Mention n0 s' d m'
             /\ firstn n0 s' = firstn n0 s.
Proof.
  intros Hholds Hrun. unfold mention_entry in Hrun.
  rewrite getitem_append_setdefault in Hrun.
  apply ret_inj in Hrun. subst m'.
  unfold Store.mention_entry. now apply holds_add_entry.
Qed.

Lemma find_nutrient_values_store
      (unicode_isalnum : N -> bool) (Content : Type)
      (get_text : Content -> OCRRegex -> option str) (content : Content) out :
  find_nutrient_values unicode_isalnum get_text content = ret out ->
  forall s, exists refs s',
    Store.find_nutrient_values unicode_isalnum get_text content s
    = ret (refs, s')
    /\ firstn (List.length s) s' = s
    /\ forall s'', firstn (List.length s') s'' = s' ->
                   read s'' refs = Some (map (envelope_of Value) out).
Proof.
  unfold find_nutrient_values, find_values_in.
  unfold Store.find_nutrient_values, Store.find_values_in.
  apply call_store. apply value_entry_store.
Qed.

Lemma find_nutrient_mentions_store
      (unicode_isalnum : N -> bool) (Content : Type)
      (get_text : Content -> OCRRegex -> option str) (content : Content) out :
  find_nutrient_mentions unicode_isalnum get_text content = ret out ->
  forall s, exists refs s',
    Store.find_nutrient_mentions unicode_isalnum get_text content s
    = ret (refs, s')
    /\ firstn (List.length s) s' = s
    /\ forall s'', firstn (List.length s') s'' = s' ->
                   read s'' refs = Some (map (envelope_of Mention) out).
Proof.
  unfold find_nutrient_mentions, find_mentions_in.
  unfold Store.find_nutrient_mentions, Store.find_mentions_in.
  apply call_store. apply mention_entry_store.
Qed.

(** C8: find_nutrient_values and find_nutrient_mentions over the store of
    Python objects.  For a given content there is one ordered result [out],
    the one the first embedding computes from the texts alone, such that a
    call started from any store whatever, be it empty, left by earlier
    calls or changed by the rest of the program, returns, and what it
    returns reads as [out]: the same kinds in the same order, under each
    kind the same entries in the same order.  The call changes no object
    that was in the store before it, and what it returned goes on reading
    as [out] while later calls add their objects: the dict and the lists
    of a call are created by that call and shared with no other.  Two runs
    on the same input therefore return the same ordered result, wherever
    they start.  The order of the kinds is that of the table of matchers,
    a dict literal of the module iterated in insertion order. *)
Theorem extraction_deterministic
        (unicode_isalnum : N -> bool) (Content : Type)
        (get_text : Content -> OCRRegex -> option str) (content : Content) :
  (exists out,
      find_nutrient_values unicode_isalnum get_text content = ret out
      /\ (forall s, exists refs s',
             Store.find_nutrient_values unicode_isalnum get_text content s
             = ret (refs, s')
             /\ firstn (List.length s) s' = s
             /\ forall s'', firstn (List.length s') s'' = s' ->
                            read s'' refs
                            = Some (map (envelope_of Value) out))
      /\ (forall env,
             In env out ->
             keys (payload env)
             = keys (filter (fun item =>
                               match matches_in unicode_isalnum get_text
                                                content (snd item) with
                               | [] => false
                               | _ => true
                               end) NUTRIENT_VALUES_REGEX)))
  /\ (exists out,
         find_nutrient_mentions unicode_isalnum get_text content = ret out
         /\ (forall s, exists refs s',
                Store.find_nutrient_mentions unicode_isalnum get_text
                                             content s
                = ret (refs, s')
                /\ firstn (List.length s) s' = s
                /\ forall s'', firstn (List.length s') s'' = s' ->
                               read s'' refs
                               = Some (map (envelope_of Mention) out))
         /\ (forall env,
                In env out ->
                keys (payload env)
                = keys (filter (fun item =>
                                  match matches_in unicode_isalnum get_text
                                                   content (snd item) with
                                  | [] => false
                                  | _ => true
                                  end) NUTRIENT_MENTIONS_REGEX))).
Proof.
  split.
  - eexists. split; [apply find_nutrient_values_spec|].
    split; [apply find_nutrient_values_store, find_nutrient_values_spec|].
    intros env Henv.
    apply in_assemble in Henv. destruct Henv as (_ & -> & _ & _).
    rewrite collect_keys_order. f_equal. apply filter_ext.
    intros [k r]. unfold values_found. simpl.
    now destruct (matches_in unicode_isalnum get_text content r).
  - eexists. split; [apply find_nutrient_mentions_spec|].
    split; [apply find_nutrient_mentions_store, find_nutrient_mentions_spec|].
    intros env Henv.
    apply in_assemble in Henv. destruct Henv as (_ & -> & _ & _).
    rewrite collect_keys_order. f_equal. apply filter_ext.
    intros [k r]. unfold mentions_found. simpl.
    now destruct (matches_in unicode_isalnum get_text content r).
Qed.

(** Two runs on "Sel 0,1g", the first from the store a call on another
    label left, the second from the store the first run leaves: the same
    result, and the result of the first run is as it was after the
    second. *)
Example two_runs_in_a_row :
  exists refs1 s1 refs2 s2,
    Store.find_nutrient_values ascii_isalnum str_get_text (u "Sel 0,1g")
                               store_after_a_call = ret (refs1, s1)
    /\ Store.find_nutrient_values ascii_isalnum str_get_text (u "Sel 0,1g")
                                  s1 = ret (refs2, s2)
    /\ refs1 <> refs2
    /\ read s1 refs1 = Some [envelope_of Value salt_values_envelope]
    /\ read s2 refs2 = Some [envelope_of Value salt_values_envelope]
    /\ read s2 refs1 = Some [envelope_of Value salt_values_envelope]
    /\ firstn (List.length store_after_a_call) s2 = store_after_a_call.
Proof.
  do 4 eexists.
  split; [vm_compute; reflexivity|]. split; [vm_compute; reflexivity|].
  split; [discriminate|]. repeat split; vm_compute; reflexivity.
Qed.

(** ** The theorems at work on a label *)

Lemma value_is_normalised_number_witness :
  number_shape [46]%N (vm_value salt_value).
Proof.
  apply (proj1 (proj2 (@value_is_normalised_number
                         ascii_isalnum str str_get_text (u "Sel 0,1g")
                         [salt_values_envelope] salt_values_envelope
                         (u "salt") [salt_value] salt_value
                         ltac:(vm_compute; reflexivity)
                         ltac:(simpl; auto) ltac:(simpl; auto)
                         ltac:(simpl; auto)))).
Defined.

Lemma mention_span_is_raw_witness :
  exists r text start stop,
    In (u "salt", r) NUTRIENT_MENTIONS_REGEX
    /\ str_get_text (u "Sel 0,1g") r = Some text
    /\ mm_span salt_mention = [start; stop]
    /\ start <= stop <= List.length text
    /\ slice text start stop = mm_raw salt_mention.
Proof.
  apply (@mention_span_is_raw
           ascii_isalnum str str_get_text (u "Sel 0,1g")
           [salt_mentions_envelope] salt_mentions_envelope
           (u "salt") [salt_mention] salt_mention
           ltac:(vm_compute; reflexivity)
           ltac:(simpl; auto) ltac:(simpl; auto) ltac:(simpl; auto)).
Defined.

Lemma value_keys_in_unit_catalog_witness :
  In (u "salt") (keys NUTRIENT_UNITS)
  /\ List.length (keys NUTRIENT_UNITS) = 9
  /\ u "salt" <> u "nutrition_values"
  /\ Forall (fun vm => vm_nutrient vm = u "salt") [salt_value].
Proof.
  apply (@value_keys_in_unit_catalog
           ascii_isalnum str str_get_text (u "Sel 0,1g")
           [salt_values_envelope] salt_values_envelope
           (u "salt") [salt_value]
           ltac:(vm_compute; reflexivity)
           ltac:(simpl; auto) ltac:(simpl; auto)).
Defined.

Lemma no_match_inside_a_word_witness :
  (forall i y, m_start sel_in_du_sel_fin = S i ->
               nth_error (u "du sel fin") i = Some y ->
               is_word ascii_isalnum y = false)
  /\ (forall y, nth_error (u "du sel fin") (m_end sel_in_du_sel_fin) = Some y ->
                is_word ascii_isalnum y = false).
Proof.
  apply (proj1 (no_match_inside_a_word ascii_isalnum)
               (u "salt")
               {| regex := salt_mention_regex;
                  field := full_text_contiguous; lowercase := true |}
               (u "du sel fin") sel_in_du_sel_fin).
  - right. vm_compute. auto 20.
  - vm_compute. auto.
Defined.

(** * Further properties *)

(** ** batch_insert: edge cases and composition *)

Lemma foldM_app {A S} (f : S -> A -> result S) (a b : list A) (s : S) :
  foldM f (a ++ b) s = (s' <- foldM f a s ;; foldM f b s').
Proof.
  revert s. induction a as [|x a IH]; intros s; simpl; [reflexivity|].
  destruct (f s x) as [e|s1]; simpl; [reflexivity|]. apply IH.
Qed.

Lemma foldM_ext {A S} (f g : S -> A -> result S) (l : list A) :
  (forall s x, f s x = g s x) -> forall s, foldM f l s = foldM g l s.
Proof.
  intros H. induction l as [|x l IH]; intros s; simpl; [reflexivity|].
  rewrite H. destruct (g s x); simpl; [reflexivity|]. apply IH.
Qed.

Lemma concat_full_length {Item} (batch_size : Z) (l : list (list Item)) :
  Forall (fun c => Z.of_nat (List.length c) = batch_size) l ->
  Z.of_nat (List.length (List.concat l))
  = (batch_size * Z.of_nat (List.length l))%Z.
Proof.
  induction 1 as [|c l Hc _ IH]; simpl; [lia|].
  rewrite length_app. lia.
Qed.

(** The state the loop ends in, for a positive batch size. *)
Lemma batch_loop_final {Item} (data : list Item) (batch_size : Z) :
  (0 < batch_size)%Z ->
  exists st,
    foldM (batch_step batch_size) data
          {| rows := 0; inserts := []; submitted := [] |} = ret st
    /\ batch_inv batch_size st data.
Proof.
  intros Hpos.
  assert (Hinit : batch_inv batch_size
                            {| rows := 0; inserts := []; submitted := [] |}
                            (@nil Item)).
  { constructor; simpl.
    - reflexivity.
    - reflexivity.
    - constructor.
    - now rewrite Z.mod_0_l by lia. }
  exact (batch_loop_inv Hpos data Hinit).
Qed.

(** X1: with no item batch_insert returns 0 and submits nothing, whatever
    the batch size; with a batch size of 0 and at least one item the
    remainder [rows % batch_size] raises ZeroDivisionError. *)
Theorem batch_insert_empty_or_zero (Item : Type) (data : list Item)
        (batch_size : Z) :
  batch_insert (@nil Item) batch_size = ret (0%Z, [])
  /\ (data <> [] -> batch_insert data 0 = raise ZeroDivisionError).
Proof.
  split; [reflexivity|].
  destruct data as [|x data]; [congruence|]. intros _. reflexivity.
Qed.

Lemma batch_insert_empty_or_zero_witness :
  batch_insert (@nil nat) 7 = ret (0%Z, [])
  /\ batch_insert [1; 2; 3]%nat 0 = raise ZeroDivisionError.
Proof.
  destruct (batch_insert_empty_or_zero [1; 2; 3]%nat 7) as [H0 Hz].
  split; [exact H0 | apply Hz; discriminate].
Defined.

Lemma mod_opp_zero (a b : Z) :
  ((a mod (- b) =? 0) = (a mod b =? 0))%Z.
Proof.
  destruct (Z.eqb_spec (a mod b) 0) as [E|E].
  - apply Z.eqb_eq. now apply Z_mod_zero_opp_r.
  - apply Z.eqb_neq. intros E'. apply E.
    rewrite <- (Z.opp_involutive b). now apply Z_mod_zero_opp_r.
Qed.

(** X2: a negative batch size acts as its absolute value: the remainder
    [rows % batch_size] is zero for the same row counts. *)
Theorem batch_insert_negative_batch_size (Item : Type) (data : list Item)
        (batch_size : Z) :
  batch_insert data (- batch_size) = batch_insert data batch_size.
Proof.
  unfold batch_insert. f_equal. apply foldM_ext. intros st item.
  unfold batch_step. rewrite mod_opp_zero.
  destruct (Z.eqb_spec batch_size 0) as [->|Hnz]; [reflexivity|].
  destruct (Z.eqb_spec (- batch_size) 0); [lia|reflexivity].
Qed.

(** X3: between one and batch_size items go to the database in a single
    chunk, the whole input. *)
Theorem batch_insert_single_chunk (Item : Type) (data : list Item)
        (batch_size : Z) :
  data <> [] -> (Z.of_nat (List.length data) <= batch_size)%Z ->
  batch_insert data batch_size = ret (Z.of_nat (List.length data), [data]).
Proof.
  intros Hne Hle.
  assert (Hlen : (0 < Z.of_nat (List.length data))%Z)
    by (destruct data; [congruence | simpl; lia]).
  assert (Hpos : (0 < batch_size)%Z) by lia.
  destruct (batch_loop_final data Hpos) as (st & Erun & [Hr Hi Hf Hp]).
  unfold batch_insert. rewrite Erun. simpl.
  pose proof (concat_full_length Hf) as Hcat.
  assert (Hsum : (Z.of_nat (List.length (List.concat (submitted st)))
                  + Z.of_nat (List.length (inserts st))
                  = Z.of_nat (List.length data))%Z)
    by (rewrite <- Hi, length_app; lia).
  rewrite Hcat in Hsum.
  destruct (Z.eq_dec (Z.of_nat (List.length data)) batch_size) as [Eq|Hlt].
  - rewrite Hr, Eq, Z.mod_same in Hp by lia.
    destruct (inserts st) as [|y ys]; [|simpl in Hp; lia].
    rewrite app_nil_r in Hi.
    assert (Hq : List.length (submitted st) = 1%nat)
      by (simpl List.length in Hsum; nia).
    destruct (submitted st) as [|c [|c' rest]]; try discriminate.
    simpl in Hi. rewrite app_nil_r in Hi. subst c. now rewrite Hr.
  - rewrite Hr, Z.mod_small in Hp by lia.
    assert (Hq : List.length (submitted st) = 0%nat) by nia.
    destruct (submitted st) as [|c rest]; [|discriminate].
    simpl in Hi. subst data.
    destruct (inserts st) as [|y ys]; [simpl in Hlen; lia|].
    now rewrite Hr.
Qed.

Lemma batch_insert_single_chunk_witness :
  batch_insert [1; 2; 3]%nat 5 = ret (3%Z, [[1; 2; 3]%nat]).
Proof.
  apply (@batch_insert_single_chunk nat [1; 2; 3]%nat 5%Z).
  - discriminate.
  - simpl. lia.
Defined.

(** X4: for a positive batch size the number of chunks submitted is the
    number of items divided by the batch size, rounded up. *)
Theorem batch_insert_chunk_count (Item : Type) (data : list Item)
        (batch_size : Z) :
  (0 < batch_size)%Z ->
  exists chunks,
    batch_insert data batch_size = ret (Z.of_nat (List.length data), chunks)
    /\ Z.of_nat (List.length chunks)
       = ((Z.of_nat (List.length data) + batch_size - 1) / batch_size)%Z.
Proof.
  intros Hpos.
  destruct (batch_loop_final data Hpos) as (st & Erun & [Hr Hi Hf Hp]).
  unfold batch_insert. rewrite Erun. simpl.
  pose proof (concat_full_length Hf) as Hcat.
  pose proof (Z.mod_pos_bound (rows st) batch_size Hpos) as Hb.
  assert (Hsum : (batch_size * Z.of_nat (List.length (submitted st))
                  + Z.of_nat (List.length (inserts st))
                  = Z.of_nat (List.length data))%Z)
    by (rewrite <- Hcat, <- Hi, length_app; lia).
  destruct (inserts st) as [|y ys] eqn:Ein.
  - exists (submitted st). split; [now rewrite Hr|].
    apply Z.div_unique_pos with (r := (batch_size - 1)%Z); [lia|].
    simpl in Hsum. lia.
  - exists (submitted st ++ [y :: ys]). split; [now rewrite Hr|].
    assert (Hge : (1 <= Z.of_nat (List.length (y :: ys)))%Z)
      by (simpl; lia).
    rewrite length_app.
    replace (List.length [y :: ys]) with 1%nat by reflexivity.
    apply Z.div_unique_pos
      with (r := (Z.of_nat (List.length (y :: ys)) - 1)%Z); lia.
Qed.

Lemma batch_insert_chunk_count_witness :
  exists chunks,
    batch_insert [1; 2; 3; 4; 5]%nat 2 = ret (5%Z, chunks)
    /\ Z.of_nat (List.length chunks) = 3%Z.
Proof.
  apply (@batch_insert_chunk_count nat [1; 2; 3; 4; 5]%nat 2%Z). lia.
Defined.

Lemma batch_step_shifted {Item} (batch_size d : Z) (pre : list (list Item))
      (st st' st1 : batch_state Item) (item : Item) :
  (d mod batch_size = 0)%Z ->
  shifted d pre st st' ->
  batch_step batch_size st item = ret st1 ->
  exists st1', batch_step batch_size st' item = ret st1'
               /\ shifted d pre st1 st1'.
Proof.
  intros Hd (Er & Ei & Es). unfold batch_step.
  destruct (Z.eqb_spec batch_size 0) as [E0|Hnz]; [discriminate|].
  assert (Emod : ((rows st' + 1) mod batch_size
                  = (rows st + 1) mod batch_size)%Z).
  { rewrite Er. apply Z.mod_divide in Hd; [|assumption].
    destruct Hd as (q & ->).
    replace (rows st + q * batch_size + 1)%Z
      with (rows st + 1 + q * batch_size)%Z by lia.
    apply Z.mod_add. assumption. }
  rewrite Emod, Ei, Er, Es.
  destruct ((rows st + 1) mod batch_size =? 0)%Z; intros H;
    apply ret_inj in H; subst st1; eexists; (split; [reflexivity|]);
    repeat split; simpl; try lia.
  now rewrite app_assoc.
Qed.

Lemma batch_loop_shifted {Item} (batch_size d : Z) (pre : list (list Item))
      (data : list Item) : forall (st st' st2 : batch_state Item),
  (d mod batch_size = 0)%Z ->
  shifted d pre st st' ->
  foldM (batch_step batch_size) data st = ret st2 ->
  exists st2', foldM (batch_step batch_size) data st' = ret st2'
               /\ shifted d pre st2 st2'.
Proof.
  induction data as [|item data IH]; intros st st' st2 Hd Hs Hrun;
    simpl in *.
  - apply ret_inj in Hrun. subst st2. exists st'. split; [reflexivity|].
    assumption.
  - destruct (batch_step batch_size st item) as [e|st1] eqn:E1;
      [discriminate|]. simpl in Hrun.
    destruct (@batch_step_shifted _ _ _ _ _ _ _ _ Hd Hs E1)
      as (st1' & E1' & Hs1).
    rewrite E1'. simpl. eapply IH; eassumption.
Qed.

(** X5: when the first part of the input fills whole batches, inserting
    the input in one call submits the chunks of the first part followed by
    the chunks of the rest, as two calls in a row would, and the row counts
    add up. *)
Theorem batch_insert_app (Item : Type) (data1 data2 : list Item)
        (batch_size : Z) :
  (0 < batch_size)%Z ->
  (Z.of_nat (List.length data1) mod batch_size = 0)%Z ->
  exists chunks1 chunks2,
    batch_insert data1 batch_size
    = ret (Z.of_nat (List.length data1), chunks1)
    /\ batch_insert data2 batch_size
       = ret (Z.of_nat (List.length data2), chunks2)
    /\ batch_insert (data1 ++ data2) batch_size
       = ret (Z.of_nat (List.length (data1 ++ data2)), chunks1 ++ chunks2).
Proof.
  intros Hpos Hmod.
  destruct (batch_loop_final data1 Hpos) as (st1 & E1 & [Hr1 Hi1 Hf1 Hp1]).
  destruct (batch_loop_final data2 Hpos) as (st2 & E2 & [Hr2 Hi2 Hf2 Hp2]).
  rewrite Hr1, Hmod in Hp1.
  assert (Ein1 : inserts st1 = [])
    by (destruct (inserts st1); [reflexivity | simpl in Hp1; lia]).
  assert (Hs : shifted (Z.of_nat (List.length data1)) (submitted st1)
                       {| rows := 0; inserts := []; submitted := [] |} st1).
  { repeat split; simpl; [lia | assumption | now rewrite app_nil_r]. }
  destruct (@batch_loop_shifted _ _ _ _ data2 _ _ _ Hmod Hs E2)
    as (st & E & Er & Ei & Es).
  exists (submitted st1),
         (match inserts st2 with
          | [] => submitted st2
          | _ => submitted st2 ++ [inserts st2]
          end).
  unfold batch_insert. rewrite foldM_app, E1, E2. simpl. rewrite E. simpl.
  rewrite Ein1, Ei, Er, Es, Hr1, Hr2, length_app.
  replace (Z.of_nat (List.length data2) + Z.of_nat (List.length data1))%Z
    with (Z.of_nat (List.length data1 + List.length data2)) by lia.
  destruct (inserts st2); repeat split; try reflexivity.
  now rewrite app_assoc.
Qed.

Lemma batch_insert_app_witness :
  exists chunks1 chunks2,
    batch_insert [1; 2; 3; 4]%nat 2 = ret (4%Z, chunks1)
    /\ batch_insert [5; 6; 7]%nat 2 = ret (3%Z, chunks2)
    /\ batch_insert [1; 2; 3; 4; 5; 6; 7]%nat 2
       = ret (7%Z, chunks1 ++ chunks2).
Proof.
  apply (@batch_insert_app nat [1; 2; 3; 4]%nat [5; 6; 7]%nat 2%Z).
  - lia.
  - reflexivity.
Defined.

(** ** Dictionaries: update and display *)

Lemma dict_get_app {V} (k : str) (d e : dict V) :
  dict_get k (d ++ e)
  = match dict_get k d with
    | Some v => Some v
    | None => dict_get k e
    end.
Proof.
  induction d as [|[k0 v0] d IH]; simpl; [reflexivity|].
  now destruct (str_eqb k0 k).
Qed.

Lemma dict_get_update_key {V} (k k' : str) (f : V -> V) (d : dict V) :
  dict_get k (update k' f d)
  = if str_eqb k' k then option_map f (dict_get k d) else dict_get k d.
Proof.
  induction d as [|[k0 v0] d IH]; simpl.
  - now destruct (str_eqb k' k).
  - destruct (str_eqb k0 k') eqn:E0; simpl.
    + apply str_eqb_eq in E0. subst k0.
      now destruct (str_eqb k' k).
    + destruct (str_eqb k0 k) eqn:E1; [|exact IH].
      apply str_eqb_eq in E1. subst k0.
      destruct (str_eqb k' k) eqn:E2; [|reflexivity].
      apply str_eqb_eq in E2. subst k'.
      rewrite str_eqb_refl in E0. discriminate.
Qed.

(** Reading after [d[k'] = v]. *)
Lemma dict_get_setitem {V} (k k' : str) (v : V) (d : dict V) :
  dict_get k (setitem k' v d)
  = if str_eqb k' k then Some v else dict_get k d.
Proof.
  unfold setitem. destruct (dict_get k' d) as [v0|] eqn:E.
  - rewrite dict_get_update_key. destruct (str_eqb k' k) eqn:Ek;
      [|reflexivity].
    apply str_eqb_eq in Ek. subst k'. now rewrite E.
  - rewrite dict_get_app. simpl. destruct (str_eqb k' k) eqn:Ek.
    + apply str_eqb_eq in Ek. subst k'. now rewrite E.
    + now destruct (dict_get k d).
Qed.

Lemma keys_update_fn {V} (k : str) (f : V -> V) (d : dict V) :
  keys (update k f d) = keys d.
Proof.
  induction d as [|[k0 v0] d IH]; simpl; [reflexivity|].
  destruct (str_eqb k0 k); simpl; [reflexivity|]. now rewrite IH.
Qed.

Lemma dict_get_Some_keys {V} (k : str) (d : dict V) :
  In k (keys d) <-> dict_get k d <> None.
Proof.
  induction d as [|[k0 v0] d IH]; simpl; [tauto|].
  destruct (str_eqb k0 k) eqn:E.
  - apply str_eqb_eq in E. split; [discriminate | auto].
  - rewrite <- IH. split; [|tauto].
    intros [H|H]; [|assumption]. subst k0. now rewrite str_eqb_refl in E.
Qed.

Lemma has_key_In ks k : has_key ks k = true <-> In k ks.
Proof.
  unfold has_key. rewrite existsb_exists. split.
  - intros (x & Hx & E). apply str_eqb_eq in E. now subst.
  - intros H. exists k. split; [assumption | apply str_eqb_refl].
Qed.

Lemma keys_setitem {V} (k : str) (v : V) (d : dict V) :
  keys (setitem k v d)
  = if has_key (keys d) k then keys d else keys d ++ [k].
Proof.
  unfold setitem. destruct (dict_get k d) as [v0|] eqn:E.
  - rewrite keys_update_fn.
    assert (H : has_key (keys d) k = true)
      by (apply has_key_In, dict_get_Some_keys; congruence).
    now rewrite H.
  - assert (H : has_key (keys d) k = false).
    { destruct (has_key (keys d) k) eqn:Hk; [|reflexivity].
      apply has_key_In, dict_get_Some_keys in Hk. congruence. }
    rewrite H. unfold keys. now rewrite map_app.
Qed.

(** Reading after [d.update(other)]: the value of [other] where it has the
    key, the value of [d] elsewhere. *)
Lemma dict_get_dict_update {V} (k : str) (other : dict V) : forall d,
  NoDup (keys other) ->
  dict_get k (dict_update d other)
  = match dict_get k other with
    | Some v => Some v
    | None => dict_get k d
    end.
Proof.
  unfold dict_update.
  induction other as [|[k' v'] other IH]; intros d Hnd; simpl;
    [reflexivity|].
  inversion Hnd as [|? ? Hk Hnd']; subst.
  rewrite IH by assumption. rewrite dict_get_setitem.
  destruct (str_eqb k' k) eqn:E.
  - apply str_eqb_eq in E. subst k'.
    now rewrite (dict_get_None k other Hk).
  - reflexivity.
Qed.

(** The keys after [d.update(other)]: those of [d] in their order, then the
    new ones in the order of [other]. *)
Lemma keys_dict_update {V} (other : dict V) : forall d,
  NoDup (keys other) ->
  keys (dict_update d other)
  = keys d ++ filter (fun k => negb (has_key (keys d) k)) (keys other).
Proof.
  unfold dict_update.
  induction other as [|[k' v'] other IH]; intros d Hnd; simpl.
  - now rewrite app_nil_r.
  - inversion Hnd as [|? ? Hk Hnd']; subst.
    rewrite IH by assumption. rewrite keys_setitem.
    destruct (has_key (keys d) k') eqn:E; simpl; [reflexivity|].
    rewrite <- app_assoc. simpl. do 2 f_equal.
    apply filter_ext_in. intros k Hin. f_equal.
    unfold has_key. rewrite existsb_app. simpl.
    destruct (str_eqb k k') eqn:Ek; [|now rewrite !orb_false_r].
    apply str_eqb_eq in Ek. subst k. contradiction.
Qed.

Lemma NoDup_keys_dict_update {V} (d other : dict V) :
  NoDup (keys d) -> NoDup (keys other) ->
  NoDup (keys (dict_update d other)).
Proof.
  intros Hd Ho. rewrite keys_dict_update by assumption.
  apply NoDup_app; [assumption | now apply NoDup_filter |].
  intros k Hk Hf. apply filter_In in Hf. destruct Hf as [_ Hf].
  apply has_key_In in Hk. rewrite Hk in Hf. discriminate.
Qed.

Lemma dict_update_fresh {V} (d : dict V) : forall acc,
  NoDup (keys d) -> (forall k, In k (keys d) -> ~ In k (keys acc)) ->
  dict_update acc d = acc ++ d.
Proof.
  unfold dict_update.
  induction d as [|[k v] d IH]; intros acc Hnd Hdis; simpl.
  - now rewrite app_nil_r.
  - inversion Hnd as [|? ? Hk Hnd']; subst.
    unfold setitem at 2.
    rewrite (dict_get_None k acc) by (apply Hdis; now left).
    rewrite IH; [now rewrite <- app_assoc | assumption |].
    intros k0 Hk0. unfold keys. rewrite map_app, in_app_iff. simpl.
    intros [H|[H|[]]].
    + apply (Hdis k0); [now right | assumption].
    + subst k0. contradiction.
Qed.

(** A display with distinct keys is the list of its entries. *)
Lemma dict_display_distinct {V} (items : dict V) :
  NoDup (keys items) -> dict_display items = items.
Proof.
  intros Hnd. unfold dict_display. rewrite dict_update_fresh; auto.
Qed.

(** ** ProductInsight.serialize and ProductInsight.create_from_latent *)

Section ProductInsightProps.

Variable Float : Type.
Variable UUID : Type.
Variable datetime : Type.
Variable uuid_str : UUID -> str.
Variable isoformat : datetime -> str.

Notation row := (ProductInsight.t Float UUID datetime).
Notation serialize := (ProductInsight.serialize uuid_str isoformat).
Notation short_entries := (ProductInsight.short_entries uuid_str).

Lemma short_entries_display (self : row) :
  dict_display (short_entries self) = short_entries self.
Proof. apply dict_display_distinct. distinct_keys. Qed.

(** X6: in the short form the entries of the row's data are merged over
    the five fixed entries: a key of data reads as data has it, also when
    it is "id", "type", "barcode", "countries" or "source_image"; any other
    key reads as the fixed entries have it.  No key comes twice. *)
Theorem serialize_short_lookup (self : row) members :
  ProductInsight.data self = JObj members ->
  NoDup (keys members) ->
  exists o,
    serialize self false = inr o
    /\ NoDup (keys o)
    /\ forall k,
         dict_get k o
         = match dict_get k members with
           | Some v => Some v
           | None => dict_get k (short_entries self)
           end.
Proof.
  intros Edata Hnd. unfold ProductInsight.serialize. rewrite Edata.
  rewrite short_entries_display. eexists. split; [reflexivity|]. split.
  - apply NoDup_keys_dict_update; [distinct_keys | assumption].
  - intros k. now apply dict_get_dict_update.
Qed.

(** X7: the short form lists "id", "type", "barcode", "countries" and
    "source_image" first, in this order, then the other keys of the row's
    data in the order data has them. *)
Theorem serialize_short_keys (self : row) members :
  ProductInsight.data self = JObj members ->
  NoDup (keys members) ->
  exists o,
    serialize self false = inr o
    /\ keys o
       = [u "id"; u "type"; u "barcode"; u "countries"; u "source_image"]
           ++ filter (fun k =>
                        negb (has_key [u "id"; u "type"; u "barcode";
                                       u "countries"; u "source_image"] k))
                     (keys members).
Proof.
  intros Edata Hnd. unfold ProductInsight.serialize. rewrite Edata.
  rewrite short_entries_display. eexists. split; [reflexivity|].
  now rewrite keys_dict_update.
Qed.

End ProductInsightProps.

Lemma serialize_short_lookup_witness :
  exists o,
    ProductInsight.serialize (fun x : str => x) (fun x : str => x)
                             example_insight false = inr o
    /\ NoDup (keys o)
    /\ forall k,
         dict_get k o
         = match dict_get k [(u "type", JStr (u "label"));
                             (u "version", JStr (u "1"))] with
           | Some v => Some v
           | None =>
             dict_get k (ProductInsight.short_entries (fun x : str => x)
                                                      example_insight)
           end.
Proof.
  apply (@serialize_short_lookup unit str str (fun x => x) (fun x => x)
                                 example_insight).
  - reflexivity.
  - distinct_keys.
Defined.

Lemma serialize_short_keys_witness :
  exists o,
    ProductInsight.serialize (fun x : str => x) (fun x : str => x)
                             example_insight false = inr o
    /\ keys o
       = [u "id"; u "type"; u "barcode"; u "countries"; u "source_image";
          u "version"].
Proof.
  apply (@serialize_short_keys unit str str (fun x => x) (fun x => x)
                               example_insight
                               [(u "type", JStr (u "label"));
                                (u "version", JStr (u "1"))]).
  - reflexivity.
  - distinct_keys.
Defined.

(** X9: create_from_latent creates the row from the fields of the latent
    insight with the keyword arguments laid over them: a field named in the
    keyword arguments takes their value, every other field keeps the value
    of the latent insight, and the fields of the latent insight come first,
    in their order. *)
Theorem create_from_latent_values (V Row : Type) (create : dict V -> Row)
        (latent_data kwargs : dict V) :
  NoDup (keys latent_data) -> NoDup (keys kwargs) ->
  exists values,
    ProductInsight.create_from_latent create latent_data kwargs
    = create values
    /\ (forall k,
          dict_get k values
          = match dict_get k kwargs with
            | Some v => Some v
            | None => dict_get k latent_data
            end)
    /\ keys values
       = keys latent_data
           ++ filter (fun k => negb (has_key (keys latent_data) k))
                     (keys kwargs).
Proof.
  intros Hl Hk. unfold ProductInsight.create_from_latent.
  fold (dict_display latent_data). rewrite dict_display_distinct by assumption.
  eexists. split; [reflexivity|]. split.
  - intros k. now apply dict_get_dict_update.
  - now apply keys_dict_update.
Qed.

Lemma create_from_latent_values_witness :
  exists values,
    ProductInsight.create_from_latent
      (fun values : dict Z => values)
      [(u "latent", 1%Z); (u "annotation", 0%Z)] [(u "latent", 0%Z)]
    = values
    /\ (forall k,
          dict_get k values
          = match dict_get k [(u "latent", 0%Z)] with
            | Some v => Some v
            | None => dict_get k [(u "latent", 1%Z); (u "annotation", 0%Z)]
            end)
    /\ keys values = [u "latent"; u "annotation"].
Proof.
  apply (@create_from_latent_values
           Z (dict Z) (fun values => values)
           [(u "latent", 1%Z); (u "annotation", 0%Z)] [(u "latent", 0%Z)]);
    distinct_keys.
Defined.

(** ** More about matches *)

Section MatchParts.

Variable unicode_isalnum : N -> bool.

Notation rmatch := (rmatch unicode_isalnum).
Notation match_of := (match_of unicode_isalnum).
Notation consumes := (consumes unicode_isalnum).
Notation fullmatch := (fullmatch unicode_isalnum).
Notation try_at := (try_at unicode_isalnum).
Notation scan := (scan unicode_isalnum).
Notation finditer := (finditer unicode_isalnum).

Lemma rmatch_consumes r p s c p' s' c' :
  rmatch r p s c p' s' c' ->
  exists w, p' = rev w ++ p /\ s = w ++ s' /\ consumes r w.
Proof.
  intros H. destruct (rmatch_word H) as (w & Ep & Es).
  exists w. repeat split; try assumption.
  exists p, s', c, c'. now rewrite <- Ep, <- Es.
Qed.

Lemma rev_app_inj (w w' p : str) : rev w ++ p = rev w' ++ p -> w = w'.
Proof.
  intros H. apply app_inv_tail in H.
  rewrite <- (rev_involutive w), <- (rev_involutive w'). now f_equal.
Qed.

(** A plain pattern matches its word wherever the word is put. *)
Lemma rmatch_plain_anywhere r p s c p' s' c' :
  rmatch r p s c p' s' c' -> plain r = true ->
  exists w, p' = rev w ++ p /\ s = w ++ s'
            /\ forall q t c0, rmatch r q (w ++ t) c0 (rev w ++ q) t c0.
Proof.
  induction 1; simpl; intros Hp; try discriminate;
    try (apply andb_true_iff in Hp; destruct Hp as [Hp1 Hp2]).
  - exists []. repeat split. intros. constructor.
  - exists [x]. repeat split. intros. constructor.
  - exists [x]. repeat split. intros. now constructor.
  - destruct (IHrmatch1 Hp1) as (w1 & -> & -> & K1).
    destruct (IHrmatch2 Hp2) as (w2 & -> & -> & K2).
    exists (w1 ++ w2). split; [list_norm; reflexivity|].
    split; [list_norm; reflexivity|].
    intros q t c0. rewrite rev_app_distr, <- !app_assoc.
    eapply RM_Cat; [apply K1 | apply K2].
  - destruct (IHrmatch Hp1) as (w & -> & -> & K).
    exists w. repeat split. intros. apply RM_AltL. apply K.
  - destruct (IHrmatch Hp2) as (w & -> & -> & K).
    exists w. repeat split. intros. apply RM_AltR. apply K.
  - destruct (IHrmatch Hp) as (w & -> & -> & K).
    exists w. repeat split. intros. apply RM_OptSome. apply K.
  - exists []. repeat split. intros. apply RM_OptNone.
  - exists []. repeat split. intros. apply RM_StarNil.
  - destruct (IHrmatch1 Hp) as (w1 & -> & -> & K1).
    destruct (IHrmatch2 Hp) as (w2 & -> & -> & K2).
    exists (w1 ++ w2). split; [list_norm; reflexivity|].
    split; [list_norm; reflexivity|].
    intros q t c0. rewrite rev_app_distr, <- !app_assoc.
    eapply RM_StarCons; [apply K1 | apply K2].
  - destruct (IHrmatch1 Hp) as (w1 & -> & -> & K1).
    destruct (IHrmatch2 Hp) as (w2 & -> & -> & K2).
    exists (w1 ++ w2). split; [list_norm; reflexivity|].
    split; [list_norm; reflexivity|].
    intros q t c0. rewrite rev_app_distr, <- !app_assoc.
    eapply RM_Plus; [apply K1 | apply K2].
Qed.

Lemma consumes_plain_fullmatch r w :
  plain r = true -> consumes r w -> fullmatch r w.
Proof.
  intros Hp (p & s & c & c' & H).
  destruct (rmatch_plain_anywhere H Hp) as (w' & E & _ & K).
  apply rev_app_inj in E. subst w'.
  exists []. specialize (K [] [] []). now rewrite !app_nil_r in K.
Qed.

Lemma rmatch_alt_inv r1 r2 p s c p' s' c' :
  rmatch (Alt r1 r2) p s c p' s' c' ->
  rmatch r1 p s c p' s' c' \/ rmatch r2 p s c p' s' c'.
Proof. inversion 1; subst; auto. Qed.

Lemma rmatch_union_inv rs : forall p s c p' s' c',
  rs <> [] ->
  rmatch (union rs) p s c p' s' c' ->
  exists r, In r rs /\ rmatch r p s c p' s' c'.
Proof.
  induction rs as [|r rs IH]; intros p s c p' s' c' Hne H; [congruence|].
  destruct rs as [|r2 rs].
  - exists r. split; [now left | exact H].
  - simpl in H. apply rmatch_alt_inv in H. destruct H as [H|H].
    + exists r. split; [now left | assumption].
    + destruct (IH _ _ _ _ _ _ ltac:(discriminate) H) as (r0 & Hin & Hr0).
      exists r0. split; [now right | assumption].
Qed.

Lemma rmatch_literal_inv w : forall p s c p' s' c',
  rmatch (literal w) p s c p' s' c' ->
  s = w ++ s' /\ p' = rev w ++ p /\ c' = c.
Proof.
  unfold literal.
  induction w as [|x w IH]; intros p s c p' s' c' H.
  - inversion H; subst. auto.
  - destruct w as [|y w].
    + inversion H; subst. auto.
    + simpl in H. apply rmatch_cat_inv in H.
      destruct H as (p1 & s1 & c1 & Hx & Hrest).
      inversion Hx; subst.
      apply IH in Hrest. destruct Hrest as (-> & -> & ->).
      repeat split. list_norm. reflexivity.
Qed.

(** The word a union of literals takes is one of the literals. *)
Lemma consumes_literals units w :
  units <> [] -> consumes (union (map literal units)) w -> In w units.
Proof.
  intros Hne (p & s & c & c' & H).
  apply rmatch_union_inv in H; [|now destruct units].
  destruct H as (r & Hin & Hr). apply in_map_iff in Hin.
  destruct Hin as (unit & <- & Hunit).
  apply rmatch_literal_inv in Hr. destruct Hr as (E & _ & _).
  apply app_inv_tail in E. now subst.
Qed.

Lemma consumes_union rs w :
  rs <> [] -> consumes (union rs) w -> exists r, In r rs /\ consumes r w.
Proof.
  intros Hne (p & s & c & c' & H).
  apply rmatch_union_inv in H; [|assumption].
  destruct H as (r & Hin & Hr). exists r. split; [assumption|].
  now exists p, s, c, c'.
Qed.

Lemma rmatch_opt_chr_inv x p s c p' s' c' :
  rmatch (Opt (Chr x)) p s c p' s' c' ->
  c' = c /\ exists w, (w = [] \/ w = [x]) /\ p' = rev w ++ p /\ s = w ++ s'.
Proof.
  inversion 1 as [| | | | | |? ? ? ? ? ? ? Hc| | | | | | |]; subst.
  - inversion Hc; subst. split; [reflexivity|]. exists [x]. auto.
  - split; [reflexivity|]. exists []. auto.
Qed.

Lemma rmatch_separator_inv p s c p' s' c' :
  rmatch (Opt (Cat (Cls [CChar 58; CChar 45]) (Opt (Chr 32)))) p s c p' s' c' ->
  c' = c
  /\ exists w,
       (w = [] \/ exists x, (x = 58%N \/ x = 45%N) /\ (w = [x] \/ w = [x; 32%N]))
       /\ p' = rev w ++ p /\ s = w ++ s'.
Proof.
  inversion 1 as [| | | | | |? ? ? ? ? ? ? Hc| | | | | | |]; subst.
  - apply rmatch_cat_inv in Hc. destruct Hc as (p1 & s1 & c1 & Hx & Hsp).
    inversion Hx as [| |? x ? ? ? Hin| | | | | | | | | | |]; subst.
    apply rmatch_opt_chr_inv in Hsp.
    destruct Hsp as (-> & w & Hw & -> & ->).
    split; [reflexivity|]. exists (x :: w). split; [|split].
    + right. exists x. split.
      * unfold in_cset in Hin. simpl in Hin. rewrite orb_false_r in Hin.
        apply orb_true_iff in Hin.
        destruct Hin as [E|E]; apply N.eqb_eq in E; auto.
      * destruct Hw as [->| ->]; auto.
    + list_norm. reflexivity.
    + reflexivity.
  - split; [reflexivity|]. exists []. auto.
Qed.

Lemma slice_at (text a w b : str) (n m : nat) :
  text = a ++ w ++ b -> n = List.length a -> m = n + List.length w ->
  slice text n m = w.
Proof. intros -> -> ->. apply slice_middle. Qed.

(** The parts of a match of the value pattern: the mention, at most one
    space, at most one separator with at most one space after it, the
    number, at most one space, the unit. *)
Lemma value_match_parts a us text mo :
  groups us = [] ->
  match_of (value_matcher a us) text mo ->
  exists before w1 sp1 sepw num sp2 unitw after,
    text = before ++ (w1 ++ sp1 ++ sepw ++ num ++ sp2 ++ unitw) ++ after
    /\ m_start mo = List.length before
    /\ group0 mo = w1 ++ sp1 ++ sepw ++ num ++ sp2 ++ unitw
    /\ group mo 2 = Some num
    /\ group mo 3 = Some unitw
    /\ consumes a w1
    /\ consumes us unitw
    /\ number_shape [44; 46]%N num
    /\ (sp1 = [] \/ sp1 = [32%N])
    /\ (sepw = []
        \/ exists x, (x = 58%N \/ x = 45%N)
                     /\ (sepw = [x] \/ sepw = [x; 32%N]))
    /\ (sp2 = [] \/ sp2 = [32%N]).
Proof.
  intros Hg (p0 & s0 & p1 & s1 & Et & Hr & Hs & He & Hstr).
  unfold value_matcher in Hr; simpl in Hr.
  apply rmatch_cat_inv in Hr. destruct Hr as (pa & sa & ca & Hnb & Hr).
  apply rmatch_not_behind_inv in Hnb. destruct Hnb as (-> & -> & -> & _).
  apply rmatch_cat_inv in Hr. destruct Hr as (pb & sb & cb & Hg1 & Hr).
  apply rmatch_cat_inv in Hr. destruct Hr as (pc & sc & cc & Ho1 & Hr).
  apply rmatch_cat_inv in Hr. destruct Hr as (pd & sd & cd & Ho2 & Hr).
  apply rmatch_cat_inv in Hr. destruct Hr as (pe & se & ce & Hg2 & Hr).
  apply rmatch_cat_inv in Hr. destruct Hr as (pf & sf & cf & Ho3 & Hr).
  apply rmatch_cat_inv in Hr. destruct Hr as (pg & sg & cg & Hg3 & Hna).
  apply rmatch_not_ahead_inv in Hna. destruct Hna as (Ep1 & Es1 & Ec & _).
  apply rmatch_grp_inv in Hg1. destruct Hg1 as (c1 & Ha & Ecb).
  apply rmatch_consumes in Ha. destruct Ha as (w1 & Epb & Es0 & Hw1).
  apply rmatch_opt_chr_inv in Ho1.
  destruct Ho1 as (Ecc & sp1 & Hsp1 & Epc & Esb).
  apply rmatch_separator_inv in Ho2.
  destruct Ho2 as (Ecd & sepw & Hsepw & Epd & Esc).
  apply rmatch_grp_inv in Hg2. destruct Hg2 as (c2 & Hnum & Ece).
  apply rmatch_number in Hnum.
  destruct Hnum as (_ & num & Epe & Esd & Hshape).
  apply rmatch_opt_chr_inv in Ho3.
  destruct Ho3 as (Ecf & sp2 & Hsp2 & Epf & Ese).
  apply rmatch_grp_inv in Hg3. destruct Hg3 as (c3 & Hus & Ecg).
  pose proof (rmatch_caps_same Hus Hg) as Ec3.
  apply rmatch_consumes in Hus. destruct Hus as (unitw & Epg & Esf & Hunit).
  assert (Hcap2 : cap_get 2 (m_caps mo)
                  = Some (List.length pd, List.length pe))
    by (rewrite Ec, Ecg, Ec3, Ecf, Ece; reflexivity).
  assert (Hcap3 : cap_get 3 (m_caps mo)
                  = Some (List.length pf, List.length pg))
    by (rewrite Ec, Ecg; reflexivity).
  assert (Etext : text = rev p0 ++ w1 ++ sp1 ++ sepw ++ num ++ sp2
                               ++ unitw ++ s1)
    by (rewrite <- Et, Es0, Esb, Esc, Esd, Ese, Esf, Es1; reflexivity).
  exists (rev p0), w1, sp1, sepw, num, sp2, unitw, s1.
  split; [rewrite Etext; list_norm; reflexivity|].
  split; [now rewrite length_rev|].
  split; [|split; [|split; [|repeat split; assumption]]].
  - unfold group0. rewrite Hstr, Hs, He.
    apply slice_at with (a := rev p0) (b := s1).
    + rewrite Etext. list_norm. reflexivity.
    + now rewrite length_rev.
    + rewrite Ep1, Epg, Epf, Epe, Epd, Epc, Epb. list_norm. lia.
  - unfold group. rewrite Hcap2, Hstr. f_equal.
    apply slice_at with (a := rev p0 ++ w1 ++ sp1 ++ sepw)
                        (b := sp2 ++ unitw ++ s1).
    + rewrite Etext. list_norm. reflexivity.
    + rewrite Epd, Epc, Epb. list_norm. lia.
    + rewrite Epe, Epd, Epc, Epb. list_norm. lia.
  - unfold group. rewrite Hcap3, Hstr. f_equal.
    apply slice_at with (a := rev p0 ++ w1 ++ sp1 ++ sepw ++ num ++ sp2)
                        (b := s1).
    + rewrite Etext. list_norm. reflexivity.
    + rewrite Epf, Epe, Epd, Epc, Epb. list_norm. lia.
    + rewrite Epg, Epf, Epe, Epd, Epc, Epb. list_norm. lia.
Qed.

(** The parts of a match of the mention pattern. *)
Lemma mention_match_parts a text mo :
  match_of (mention_matcher a) text mo ->
  exists before w after,
    text = before ++ w ++ after
    /\ m_start mo = List.length before
    /\ m_end mo = List.length before + List.length w
    /\ group0 mo = w
    /\ consumes a w.
Proof.
  intros (p0 & s0 & p1 & s1 & Et & Hr & Hs & He & Hstr).
  unfold mention_matcher in Hr; simpl in Hr.
  apply rmatch_cat_inv in Hr. destruct Hr as (pa & sa & ca & Hnb & Hr).
  apply rmatch_not_behind_inv in Hnb. destruct Hnb as (-> & -> & -> & _).
  apply rmatch_cat_inv in Hr. destruct Hr as (pb & sb & cb & Hg1 & Hna).
  apply rmatch_not_ahead_inv in Hna. destruct Hna as (Ep1 & Es1 & _ & _).
  apply rmatch_grp_inv in Hg1. destruct Hg1 as (c1 & Ha & _).
  apply rmatch_consumes in Ha. destruct Ha as (w & Epb & Es0 & Hw).
  exists (rev p0), w, s1.
  assert (Etext : text = rev p0 ++ w ++ s1)
    by (rewrite <- Et, Es0, Es1; reflexivity).
  split; [assumption|]. split; [now rewrite length_rev|].
  split; [rewrite He, Ep1, Epb; list_norm; lia|].
  split; [|assumption].
  unfold group0. rewrite Hstr, Hs, He.
  apply slice_at with (a := rev p0) (b := s1).
  - assumption.
  - now rewrite length_rev.
  - rewrite Ep1, Epb. list_norm. lia.
Qed.

End MatchParts.

(** ** More about the tables of matchers *)

Lemma groups_literal w : groups (literal w) = [].
Proof.
  unfold literal. induction w as [|x w IH]; [reflexivity|].
  destruct w as [|y w]; [reflexivity|]. simpl in *. exact IH.
Qed.

Lemma groups_union_literals units : groups (union (map literal units)) = [].
Proof.
  induction units as [|w units IH]; [reflexivity|].
  destruct units as [|w' units]; [apply groups_literal|].
  change (groups (literal w) ++ groups (union (map literal (w' :: units)))
          = []).
  now rewrite groups_literal, IH.
Qed.

Lemma Forall2_In_r {A B} (R : A -> B -> Prop) l l' y :
  Forall2 R l l' -> In y l' -> exists x, In x l /\ R x y.
Proof.
  induction 1 as [|x0 y0 l l' Hxy _ IH]; simpl; [contradiction|].
  intros [<-|Hin].
  - exists x0. auto.
  - destruct (IH Hin) as (x & Hx & Hr). exists x. auto.
Qed.

(** What a matcher of the value table is made of: the fragments of its
    kind, each compiled on its own to a plain pattern, and the units of its
    kind. *)
Lemma values_regex_parts :
  Forall (fun item : str * OCRRegex =>
            exists mentions alts units,
              dict_get (fst item) NUTRIENT_MENTION = Some mentions
              /\ Forall2 (fun m a => re_compile (fst m) = ret a)
                         mentions alts
              /\ forallb plain alts = true
              /\ alts <> []
              /\ dict_get (fst item) NUTRIENT_UNITS = Some units
              /\ units <> []
              /\ regex (snd item)
                 = value_matcher (union alts) (union (map literal units)))
         NUTRIENT_VALUES_REGEX.
Proof.
  unfold NUTRIENT_VALUES_REGEX.
  repeat (apply Forall_cons;
          [eexists; eexists; eexists;
           split; [vm_compute; reflexivity|];
           split; [compile_fragments|];
           split; [reflexivity|];
           split; [discriminate|];
           split; [vm_compute; reflexivity|];
           split; [discriminate | reflexivity]|]).
  apply Forall_nil.
Qed.

Lemma mentions_regex_parts :
  Forall (fun item : str * OCRRegex =>
            exists mentions alts,
              dict_get (fst item) NUTRIENT_MENTION = Some mentions
              /\ Forall2 (fun m a => re_compile (fst m) = ret a)
                         mentions alts
              /\ forallb plain alts = true
              /\ alts <> []
              /\ regex (snd item) = mention_matcher (union alts))
         NUTRIENT_MENTIONS_REGEX.
Proof.
  unfold NUTRIENT_MENTIONS_REGEX.
  repeat (apply Forall_cons;
          [eexists; eexists;
           split; [vm_compute; reflexivity|];
           split; [compile_fragments|];
           split; [reflexivity|];
           split; [discriminate | reflexivity]|]).
  apply Forall_nil.
Qed.

(** ** More about find_nutrient_values and find_nutrient_mentions *)

Section ExtractionMore.

Variable unicode_isalnum : N -> bool.
Variable Content : Type.
Variable get_text : Content -> OCRRegex -> option str.

Notation finditer := (finditer unicode_isalnum).
Notation match_of := (match_of unicode_isalnum).
Notation consumes := (consumes unicode_isalnum).
Notation fullmatch := (fullmatch unicode_isalnum).
Notation find_nutrient_values :=
  (find_nutrient_values unicode_isalnum get_text).
Notation find_nutrient_mentions :=
  (find_nutrient_mentions unicode_isalnum get_text).
Notation matches_in := (matches_in unicode_isalnum get_text).
Notation values_found := (values_found unicode_isalnum get_text).
Notation mentions_found := (mentions_found unicode_isalnum get_text).

(** Where an entry of the result comes from. *)
Lemma value_in_output content out env k l vm :
  find_nutrient_values content = ret out ->
  In env out -> In (k, l) (payload env) -> In vm l ->
  exists r text mo,
    In (k, r) NUTRIENT_VALUES_REGEX
    /\ get_text content r = Some text
    /\ match_of (regex r) text mo
    /\ vm = value_of k mo.
Proof.
  rewrite find_nutrient_values_spec. intros Hout Henv Hkl Hvm.
  apply ret_inj in Hout. subst out.
  apply in_assemble in Henv. destruct Henv as (_ & Ep & _ & _).
  rewrite Ep in Hkl. apply collect_keys in Hkl.
  destruct Hkl as (r & Hr & El & _). subst l.
  apply in_map_iff in Hvm. destruct Hvm as (mo & Evm & Hmo).
  apply matches_in_sound in Hmo.
  destruct Hmo as (text & Et & _ & _ & Hm).
  exists r, text, mo. repeat split; try assumption. now symmetry.
Qed.

Lemma mention_in_output content out env k l mm :
  find_nutrient_mentions content = ret out ->
  In env out -> In (k, l) (payload env) -> In mm l ->
  exists r text mo,
    In (k, r) NUTRIENT_MENTIONS_REGEX
    /\ get_text content r = Some text
    /\ match_of (regex r) text mo
    /\ mm = mention_of mo.
Proof.
  rewrite find_nutrient_mentions_spec. intros Hout Henv Hkl Hmm.
  apply ret_inj in Hout. subst out.
  apply in_assemble in Henv. destruct Henv as (_ & Ep & _ & _).
  rewrite Ep in Hkl. apply collect_keys in Hkl.
  destruct Hkl as (r & Hr & El & _). subst l.
  apply in_map_iff in Hmm. destruct Hmm as (mo & Emm & Hmo).
  apply matches_in_sound in Hmo.
  destruct Hmo as (text & Et & _ & _ & Hm).
  exists r, text, mo. repeat split; try assumption. now symmetry.
Qed.

(** X10: when the adapter has no text, or an empty one, for every matcher,
    both functions return the empty sequence. *)
Theorem no_text_no_result content :
  (forall k r,
      In (k, r) NUTRIENT_VALUES_REGEX \/ In (k, r) NUTRIENT_MENTIONS_REGEX ->
      get_text content r = None \/ get_text content r = Some []) ->
  find_nutrient_values content = ret []
  /\ find_nutrient_mentions content = ret [].
Proof.
  intros Hno.
  assert (Hnone : forall k r,
             In (k, r) NUTRIENT_VALUES_REGEX
             \/ In (k, r) NUTRIENT_MENTIONS_REGEX ->
             matches_in content r = []).
  { intros k r Hin. unfold matches_in.
    destruct (Hno k r Hin) as [-> | ->]; reflexivity. }
  rewrite find_nutrient_values_spec, find_nutrient_mentions_spec.
  split; f_equal; apply assemble_nil, collect_nil; intros k r Hin.
  - unfold values_found. now rewrite (Hnone k r) by now left.
  - unfold mentions_found. now rewrite (Hnone k r) by now right.
Qed.

(** X11: the unit of every ValueMatch is present, it is one of the unit
    tokens the catalog lists for the kind, and the raw text ends with it. *)
Theorem value_unit_in_catalog content out env k l vm :
  find_nutrient_values content = ret out ->
  In env out -> In (k, l) (payload env) -> In vm l ->
  exists units unit front,
    dict_get k NUTRIENT_UNITS = Some units
    /\ vm_unit vm = Some unit
    /\ In unit units
    /\ vm_raw vm = front ++ unit.
Proof.
  intros Hout Henv Hkl Hvm.
  destruct (value_in_output _ _ _ _ _ Hout Henv Hkl Hvm)
    as (r & text & mo & Hr & Et & Hm & ->).
  pose proof values_regex_parts as Hparts.
  rewrite Forall_forall in Hparts. specialize (Hparts _ Hr).
  destruct Hparts as (mentions & alts & units & _ & _ & _ & _
                      & Eu & Hune & Er).
  cbn [fst snd] in Eu, Er. rewrite Er in Hm.
  apply value_match_parts in Hm; [|apply groups_union_literals].
  destruct Hm as (before & w1 & sp1 & sepw & num & sp2 & unitw & after
                  & _ & _ & Eraw & _ & Eg3 & _ & Hunit & _).
  exists units, unitw, (w1 ++ sp1 ++ sepw ++ num ++ sp2).
  split; [assumption|]. split; [exact Eg3|]. split.
  - eapply consumes_literals; eassumption.
  - simpl. rewrite Eraw. list_norm. reflexivity.
Qed.

(** X12: the raw text of every ValueMatch stands in the searched text and
    is made of exactly these parts, in this order: a mention, which is a
    text of one of the fragments the mention dictionary lists for the kind;
    at most one space; at most one separator ':' or '-' with at most one
    space after it; the number, whose normalisation is the value; at most
    one space; and the unit, one of the unit tokens the catalog lists for
    the kind. *)
Theorem value_raw_parts content out env k l vm :
  find_nutrient_values content = ret out ->
  In env out -> In (k, l) (payload env) -> In vm l ->
  exists r text before after mention sp1 sepw num sp2 unit
         mentions fragment a units,
    In (k, r) NUTRIENT_VALUES_REGEX
    /\ get_text content r = Some text
    /\ text = before ++ vm_raw vm ++ after
    /\ vm_raw vm = mention ++ sp1 ++ sepw ++ num ++ sp2 ++ unit
    /\ vm_value vm = replace_char 44 46 num
    /\ vm_unit vm = Some unit
    /\ number_shape [44; 46]%N num
    /\ (sp1 = [] \/ sp1 = [32%N])
    /\ (sepw = []
        \/ exists x, (x = 58%N \/ x = 45%N)
                     /\ (sepw = [x] \/ sepw = [x; 32%N]))
    /\ (sp2 = [] \/ sp2 = [32%N])
    /\ dict_get k NUTRIENT_MENTION = Some mentions
    /\ In fragment mentions
    /\ re_compile (fst fragment) = ret a
    /\ fullmatch a mention
    /\ dict_get k NUTRIENT_UNITS = Some units
    /\ In unit units.
Proof.
  intros Hout Henv Hkl Hvm.
  destruct (value_in_output _ _ _ _ _ Hout Henv Hkl Hvm)
    as (r & text & mo & Hr & Et & Hm & ->).
  pose proof values_regex_parts as Hparts.
  rewrite Forall_forall in Hparts. specialize (Hparts _ Hr).
  destruct Hparts as (mentions & alts & units & Em & Hc & Hplain & Hne
                      & Eu & Hune & Er).
  cbn [fst snd] in Em, Eu, Er. rewrite Er in Hm.
  apply value_match_parts in Hm; [|apply groups_union_literals].
  destruct Hm as (before & w1 & sp1 & sepw & num & sp2 & unitw & after
                  & Etext & _ & Eraw & Eg2 & Eg3 & Hw1 & Hunit & Hnum
                  & Hsp1 & Hsep & Hsp2).
  apply consumes_union in Hw1; [|assumption].
  destruct Hw1 as (a & Ha & Hw1).
  destruct (@Forall2_In_r _ _ _ _ _ _ Hc Ha) as (fragment & Hf & Hcomp).
  rewrite forallb_forall in Hplain.
  exists r, text, before, after, w1, sp1, sepw, num, sp2, unitw,
         mentions, fragment, a, units.
  unfold value_of. cbn [vm_raw vm_value vm_unit]. rewrite Eraw, Eg2.
  repeat (split; [first [assumption | reflexivity]|]).
  split; [apply consumes_plain_fullmatch; [now apply Hplain | assumption]|].
  split; [assumption|].
  eapply consumes_literals; eassumption.
Qed.

(** X13: the raw text of every ValueMatch begins with a text of one of the
    fragments the mention dictionary lists for the kind. *)
Theorem value_raw_begins_with_mention content out env k l vm :
  find_nutrient_values content = ret out ->
  In env out -> In (k, l) (payload env) -> In vm l ->
  exists mentions fragment a mention rest,
    dict_get k NUTRIENT_MENTION = Some mentions
    /\ In fragment mentions
    /\ re_compile (fst fragment) = ret a
    /\ fullmatch a mention
    /\ vm_raw vm = mention ++ rest.
Proof.
  intros Hout Henv Hkl Hvm.
  destruct (value_in_output _ _ _ _ _ Hout Henv Hkl Hvm)
    as (r & text & mo & Hr & Et & Hm & ->).
  pose proof values_regex_parts as Hparts.
  rewrite Forall_forall in Hparts. specialize (Hparts _ Hr).
  destruct Hparts as (mentions & alts & units & Em & Hc & Hplain & Hne
                      & _ & _ & Er).
  cbn [fst snd] in Em, Er. rewrite Er in Hm.
  apply value_match_parts in Hm; [|apply groups_union_literals].
  destruct Hm as (before & w1 & sp1 & sepw & num & sp2 & unitw & after
                  & _ & _ & Eraw & _ & _ & Hw1 & _).
  apply consumes_union in Hw1; [|assumption].
  destruct Hw1 as (a & Ha & Hw1).
  destruct (@Forall2_In_r _ _ _ _ _ _ Hc Ha) as (fragment & Hf & Hcomp).
  rewrite forallb_forall in Hplain.
  exists mentions, fragment, a, w1, (sp1 ++ sepw ++ num ++ sp2 ++ unitw).
  repeat split; try assumption.
  apply consumes_plain_fullmatch; [now apply Hplain | assumption].
Qed.

(** X14: the raw text of every MentionMatch is a text of one of the
    fragments the mention dictionary lists for the kind. *)
Theorem mention_raw_is_fragment content out env k l mm :
  find_nutrient_mentions content = ret out ->
  In env out -> In (k, l) (payload env) -> In mm l ->
  exists mentions fragment a,
    dict_get k NUTRIENT_MENTION = Some mentions
    /\ In fragment mentions
    /\ re_compile (fst fragment) = ret a
    /\ fullmatch a (mm_raw mm).
Proof.
  intros Hout Henv Hkl Hmm.
  destruct (mention_in_output _ _ _ _ _ Hout Henv Hkl Hmm)
    as (r & text & mo & Hr & Et & Hm & ->).
  pose proof mentions_regex_parts as Hparts.
  rewrite Forall_forall in Hparts. specialize (Hparts _ Hr).
  destruct Hparts as (mentions & alts & Em & Hc & Hplain & Hne & Er).
  cbn [fst snd] in Em, Er. rewrite Er in Hm.
  apply mention_match_parts in Hm.
  destruct Hm as (before & w & after & _ & _ & _ & Eraw & Hw).
  apply consumes_union in Hw; [|assumption].
  destruct Hw as (a & Ha & Hw).
  destruct (@Forall2_In_r _ _ _ _ _ _ Hc Ha) as (fragment & Hf & Hcomp).
  rewrite forallb_forall in Hplain.
  exists mentions, fragment, a. simpl. rewrite Eraw.
  repeat split; try assumption.
  apply consumes_plain_fullmatch; [now apply Hplain | assumption].
Qed.

End ExtractionMore.

(** ** The order of the matches *)

Section MatchOrder.

Variable unicode_isalnum : N -> bool.

Notation rmatch := (rmatch unicode_isalnum).
Notation match_of := (match_of unicode_isalnum).
Notation try_at := (try_at unicode_isalnum).
Notation scan := (scan unicode_isalnum).
Notation finditer := (finditer unicode_isalnum).

Lemma rmatch_min_len r p s c p' s' c' :
  rmatch r p s c p' s' c' ->
  List.length p + min_len r <= List.length p'.
Proof.
  induction 1; simpl in *; try lia.
Qed.

Lemma match_of_bounds r text mo :
  match_of r text mo ->
  m_start mo + min_len r <= m_end mo /\ m_end mo <= List.length text.
Proof.
  intros (p0 & s0 & p1 & s1 & Et & Hr & Hs & He & _).
  pose proof (rmatch_min_len Hr) as Hmin.
  destruct (rmatch_word Hr) as (w & Ep & Es).
  split; [lia|]. rewrite He, <- Et, Ep, Es. list_norm. lia.
Qed.

Lemma try_at_inv r text b p s mo :
  try_at r text b p s = Some mo ->
  m_start mo = List.length p
  /\ List.length p <= m_end mo
  /\ (b = true -> m_end mo <> List.length p).
Proof.
  intros H. unfold try_at in H. apply exec_sound in H.
  destruct H as (p1 & s1 & c1 & Hr & Hk).
  destruct (rmatch_word Hr) as (w & Ep & _).
  destruct (b && (List.length p1 =? List.length p)) eqn:Eb; [discriminate|].
  inversion Hk; subst mo; clear Hk. simpl.
  split; [reflexivity|]. split; [rewrite Ep; list_norm; lia|].
  intros ->. simpl in Eb. now apply Nat.eqb_neq in Eb.
Qed.

Lemma ordered_from_weaken lo lo' l :
  lo' <= lo -> ordered_from lo l -> ordered_from lo' l.
Proof.
  destruct l as [|mo l]; simpl; [trivial|].
  intros Hle (H1 & H2 & H3). repeat split; try assumption. lia.
Qed.

(** The scan lists its matches from left to right, each one starting at or
    after the end of the one before. *)
Lemma scan_ordered r text : forall s p skip,
  ordered_from (List.length p + skip) (scan r text p s skip).
Proof.
  induction s as [|x s IH]; intros p skip; rewrite scan_eq.
  - destruct skip; [|exact I].
    destruct (try_at r text false p []) as [m0|] eqn:E0; [|exact I].
    destruct (try_at_inv _ _ _ _ _ E0) as (Hs0 & He0 & _).
    destruct (m_end m0 - m_start m0) eqn:Elen.
    + simpl. split; [lia|]. split; [lia|].
      destruct (try_at r text true p []) as [m1|] eqn:E1; [|exact I].
      destruct (try_at_inv _ _ _ _ _ E1) as (Hs1 & He1 & _).
      simpl. repeat split; lia.
    + simpl. repeat split; lia.
  - destruct skip as [|skip].
    + destruct (try_at r text false p (x :: s)) as [m0|] eqn:E0.
      * destruct (try_at_inv _ _ _ _ _ E0) as (Hs0 & He0 & _).
        destruct (m_end m0 - m_start m0) as [|n] eqn:Elen.
        -- simpl. split; [lia|]. split; [lia|].
           destruct (try_at r text true p (x :: s)) as [m1|] eqn:E1.
           ++ destruct (try_at_inv _ _ _ _ _ E1) as (Hs1 & He1 & Hadv).
              specialize (Hadv eq_refl).
              simpl. split; [lia|]. split; [lia|].
              eapply ordered_from_weaken; [|apply IH]. simpl. lia.
           ++ eapply ordered_from_weaken; [|apply IH]. simpl. lia.
        -- simpl. split; [lia|]. split; [lia|].
           eapply ordered_from_weaken; [|apply IH]. simpl. lia.
      * eapply ordered_from_weaken; [|apply IH]. simpl. lia.
    + eapply ordered_from_weaken; [|apply IH]. simpl. lia.
Qed.

Lemma finditer_ordered r text : ordered_from 0 (finditer r text).
Proof. exact (scan_ordered r text text [] 0). Qed.

(** Ordered matches that are not empty give spans that follow one another
    without overlap. *)
Lemma spans_of_ordered hi : forall mos lo,
  ordered_from lo mos ->
  Forall (fun mo => m_start mo < m_end mo /\ m_end mo <= hi) mos ->
  spans_from lo hi (map mention_of mos).
Proof.
  induction mos as [|mo mos IH]; intros lo Hord Hall; simpl; [exact I|].
  destruct Hord as (H1 & H2 & H3).
  inversion Hall as [|? ? (Hlt & Hhi) Hall']; subst.
  exists (m_start mo), (m_end mo). repeat split; try assumption.
  now apply IH.
Qed.

End MatchOrder.

Lemma mentions_regex_not_empty :
  forallb (fun item : str * OCRRegex => 1 <=? min_len (regex (snd item)))
          NUTRIENT_MENTIONS_REGEX = true.
Proof. vm_compute. reflexivity. Qed.

(** X15: the entries listed for a kind by find_nutrient_mentions come from
    left to right: every span is non-empty and lies within the searched
    text, and no span begins before the end of the one listed before it. *)
Theorem mention_spans_ordered
        (unicode_isalnum : N -> bool) (Content : Type)
        (get_text : Content -> OCRRegex -> option str)
        (content : Content) out env k l :
  find_nutrient_mentions unicode_isalnum get_text content = ret out ->
  In env out -> In (k, l) (payload env) ->
  exists r text,
    In (k, r) NUTRIENT_MENTIONS_REGEX
    /\ get_text content r = Some text
    /\ spans_from 0 (List.length text) l.
Proof.
  rewrite find_nutrient_mentions_spec. intros Hout Henv Hkl.
  apply ret_inj in Hout. subst out.
  apply in_assemble in Henv. destruct Henv as (_ & Ep & _ & _).
  rewrite Ep in Hkl. apply collect_keys in Hkl.
  destruct Hkl as (r & Hr & El & Hne). subst l.
  unfold mentions_found, matches_in in *.
  destruct (get_text content r) as [[|c t]|] eqn:Et;
    try (simpl in Hne; congruence).
  exists r, (c :: t). split; [assumption|]. split; [exact Et|].
  apply spans_of_ordered.
  - apply finditer_ordered.
  - apply Forall_forall. intros mo Hmo. apply finditer_sound in Hmo.
    apply match_of_bounds in Hmo.
    pose proof mentions_regex_not_empty as Hmin.
    rewrite forallb_forall in Hmin. specialize (Hmin _ Hr).
    apply Nat.leb_le in Hmin. cbn [snd] in Hmin. lia.
Qed.

(** ** The import of the module, for any two tables and any [re.compile] *)

Section TableLoop.

Variable A V : Type.
Variable key : A -> str.
Variable build : A -> result V.

Notation comprehension := (comprehension key build).

Lemma comprehension_ok items : forall acc t,
  foldM comprehension items acc = ret t ->
  NoDup (map key items) ->
  (forall x, In x items -> ~ In (key x) (keys acc)) ->
  exists built,
    t = acc ++ built
    /\ Forall2 (fun item kv => fst kv = key item /\ build item = ret (snd kv))
               items built.
Proof.
  induction items as [|x items IH]; intros acc t Hrun Hnd Hfresh;
    simpl in Hrun.
  - apply ret_inj in Hrun. subst t. exists []. split; [|constructor].
    now rewrite app_nil_r.
  - unfold comprehension at 1 in Hrun.
    destruct (build x) as [e|v] eqn:Eb; [discriminate|]. simpl in Hrun.
    inversion Hnd as [|? ? Hx Hnd']; subst.
    unfold setitem in Hrun.
    rewrite (dict_get_None (key x) acc) in Hrun by (apply Hfresh; now left).
    apply IH in Hrun; [|assumption|].
    + destruct Hrun as (built & -> & Hbuilt).
      exists ((key x, v) :: built). split; [now rewrite <- app_assoc|].
      constructor; [split; [reflexivity | assumption] | assumption].
    + intros y Hy. unfold keys. rewrite map_app, in_app_iff. simpl.
      intros [H|[H|[]]].
      * apply (Hfresh y); [now right | assumption].
      * apply Hx. rewrite H. now apply in_map.
Qed.

(** The loop stops at the first item whose entry cannot be built. *)
Lemma comprehension_raises items : forall acc e,
  foldM comprehension items acc = raise e ->
  exists before x after,
    items = before ++ x :: after
    /\ build x = raise e
    /\ Forall (fun y => exists v, build y = ret v) before.
Proof.
  induction items as [|x items IH]; intros acc e Hrun; simpl in Hrun;
    [discriminate|].
  unfold comprehension at 1 in Hrun.
  destruct (build x) as [e0|v] eqn:Eb; simpl in Hrun.
  - exists [], x, items. split; [reflexivity|]. split; [|constructor].
    unfold raise in *. congruence.
  - apply IH in Hrun. destruct Hrun as (before & y & after & -> & Ey & Hb).
    exists (x :: before), y, after. split; [reflexivity|].
    split; [assumption|]. constructor; [eauto | assumption].
Qed.

End TableLoop.

Lemma getitem_ret_inv {V} (d : dict V) k v :
  getitem d k = ret v -> dict_get k d = Some v.
Proof.
  unfold getitem. destruct (dict_get k d); [|discriminate].
  intros H. apply ret_inj in H. now subst.
Qed.

Lemma getitem_raise_inv {V} (d : dict V) k e :
  getitem d k = raise e -> dict_get k d = None /\ e = KeyError k.
Proof.
  unfold getitem. destruct (dict_get k d); [discriminate|].
  unfold raise. intros H. split; [reflexivity | congruence].
Qed.

Lemma In_dict_get {V} (d : dict V) k v :
  NoDup (keys d) -> In (k, v) d -> dict_get k d = Some v.
Proof.
  induction d as [|[k0 v0] d IH]; simpl; intros Hnd Hin; [contradiction|].
  inversion Hnd as [|? ? Hk Hnd']; subst.
  destruct Hin as [E|Hin].
  - inversion E; subst. now rewrite str_eqb_refl.
  - destruct (str_eqb k0 k) eqn:Ek; [|now apply IH].
    apply str_eqb_eq in Ek. subst k0. exfalso. apply Hk.
    change k with (fst (k, v)). now apply in_map.
Qed.

Lemma Forall2_keys {A V} (key : A -> str) (P : A -> V -> Prop)
      items (built : dict V) :
  Forall2 (fun item kv => fst kv = key item /\ P item (snd kv))
          items built ->
  keys built = map key items
  /\ forall k r, In (k, r) built ->
                 exists item, In item items /\ key item = k /\ P item r.
Proof.
  induction 1 as [|x [k0 r0] items built [Hk Hp] _ [IHk IHin]]; simpl.
  - split; [reflexivity | contradiction].
  - simpl in Hk, Hp. split; [now rewrite Hk, IHk|].
    intros k r [E|Hin].
    + inversion E; subst. exists x. auto.
    + destruct (IHin k r Hin) as (item & Hi & Ek & Hr).
      exists item. auto.
Qed.

Section ImportProps.

Variable Compiled : Type.
Variable re_compile : str -> result Compiled.

Notation generate_nutrient_regex :=
  (WithCompile.generate_nutrient_regex re_compile).
Notation generate_nutrient_mention_regex :=
  (WithCompile.generate_nutrient_mention_regex re_compile).
Notation values_regex_table := (WithCompile.values_regex_table re_compile).
Notation mentions_regex_table := (WithCompile.mentions_regex_table re_compile).
Notation module_init := (WithCompile.module_init re_compile).
Notation value_entry_of := (WithCompile.value_entry_of re_compile).
Notation mention_entry_of := (WithCompile.mention_entry_of re_compile).

Lemma values_regex_table_comprehension mention units_catalog :
  values_regex_table mention units_catalog
  = foldM (comprehension fst (value_entry_of mention)) units_catalog [].
Proof.
  unfold WithCompile.values_regex_table. apply foldM_ext.
  intros table [k us].
  unfold comprehension, WithCompile.value_entry_of. cbn [fst snd].
  destruct (getitem mention k) as [e|ms]; [reflexivity|]. cbn [bind].
  now destruct (generate_nutrient_regex ms us).
Qed.

Lemma mentions_regex_table_comprehension mention :
  mentions_regex_table mention
  = foldM (comprehension (fun k => k) (mention_entry_of mention))
          (keys mention) [].
Proof.
  unfold WithCompile.mentions_regex_table. apply foldM_ext. intros table k.
  unfold comprehension, WithCompile.mention_entry_of.
  destruct (getitem mention k) as [e|ms]; [reflexivity|]. cbn [bind].
  now destruct (generate_nutrient_mention_regex ms).
Qed.

(** X16: when the import goes through, the table of value matchers has
    the kinds of the unit catalog, in its order, and the table of mention
    matchers the kinds of the mention dictionary, in its order; the matcher
    of a kind is the one the generating function builds from the entries
    of that kind, for the contiguous full text, in lower case.  This holds
    whatever [re.compile] accepts. *)
Theorem module_init_tables mention units_catalog tables :
  module_init mention units_catalog = ret tables ->
  NoDup (keys mention) -> NoDup (keys units_catalog) ->
  keys (WithCompile.values_regex tables) = keys units_catalog
  /\ keys (WithCompile.mentions_regex tables) = keys mention
  /\ (forall k r,
        In (k, r) (WithCompile.values_regex tables) ->
        exists nutrient_mentions units,
          dict_get k mention = Some nutrient_mentions
          /\ dict_get k units_catalog = Some units
          /\ generate_nutrient_regex nutrient_mentions units
             = ret (WithCompile.regex r)
          /\ WithCompile.field r = full_text_contiguous
          /\ WithCompile.lowercase r = true)
  /\ (forall k r,
        In (k, r) (WithCompile.mentions_regex tables) ->
        exists nutrient_mentions,
          dict_get k mention = Some nutrient_mentions
          /\ generate_nutrient_mention_regex nutrient_mentions
             = ret (WithCompile.regex r)
          /\ WithCompile.field r = full_text_contiguous
          /\ WithCompile.lowercase r = true).
Proof.
  intros Hinit Hm Hu. unfold WithCompile.module_init in Hinit.
  apply bind_ret_inv in Hinit. destruct Hinit as (vt & Ev & Hinit).
  apply bind_ret_inv in Hinit. destruct Hinit as (mt & Em & Hinit).
  apply ret_inj in Hinit. subst tables.
  cbn [WithCompile.values_regex WithCompile.mentions_regex].
  rewrite values_regex_table_comprehension in Ev.
  rewrite mentions_regex_table_comprehension in Em.
  apply comprehension_ok in Ev; [|exact Hu | auto].
  apply comprehension_ok in Em;
    [|unfold keys in Hm; now rewrite map_id | auto].
  destruct Ev as (vb & -> & Hvb). destruct Em as (mb & -> & Hmb).
  rewrite !app_nil_l.
  apply (Forall2_keys fst (fun item r => value_entry_of mention item = ret r))
    in Hvb.
  apply (Forall2_keys (fun k => k)
                      (fun k r => mention_entry_of mention k = ret r))
    in Hmb.
  destruct Hvb as [Hvk Hvin]. destruct Hmb as [Hmk Hmin].
  split; [exact Hvk|]. split; [now rewrite Hmk, map_id|]. split.
  - intros k r Hin. destruct (Hvin k r Hin) as ([k0 us] & Hi & Ek & Hb).
    cbn [fst] in Ek. subst k0. unfold WithCompile.value_entry_of in Hb.
    cbn [fst snd] in Hb.
    apply bind_ret_inv in Hb. destruct Hb as (ms & Hget & Hb).
    apply bind_ret_inv in Hb. destruct Hb as (g & Hgen & Hb).
    apply ret_inj in Hb. subst r. apply getitem_ret_inv in Hget.
    exists ms, us. split; [exact Hget|].
    split; [now apply In_dict_get|]. split; [exact Hgen|].
    split; reflexivity.
  - intros k r Hin. destruct (Hmin k r Hin) as (k0 & Hi & Ek & Hb).
    subst k0. unfold WithCompile.mention_entry_of in Hb.
    apply bind_ret_inv in Hb. destruct Hb as (ms & Hget & Hb).
    apply bind_ret_inv in Hb. destruct Hb as (g & Hgen & Hb).
    apply ret_inj in Hb. subst r. apply getitem_ret_inv in Hget.
    exists ms. split; [exact Hget|]. split; [exact Hgen|].
    split; reflexivity.
Qed.

Section NoKeyError.

Hypothesis re_compile_no_key_error :
  forall pattern key, re_compile pattern <> raise (KeyError key).

Lemma compile_format_no_key_error template args key :
  WithCompile.compile_format re_compile template args
  <> raise (KeyError key).
Proof.
  unfold WithCompile.compile_format.
  destruct (format template args) as [pattern|];
    [apply re_compile_no_key_error | discriminate].
Qed.

Lemma value_entry_key_error mention item key :
  value_entry_of mention item = raise (KeyError key) ->
  key = fst item /\ dict_get key mention = None.
Proof.
  unfold WithCompile.value_entry_of. intros Hb.
  apply bind_raise_inv in Hb. destruct Hb as [Hget|(ms & _ & Hb)].
  - apply getitem_raise_inv in Hget. destruct Hget as [Hnone E].
    assert (key = fst item) by congruence. subst key. auto.
  - apply bind_raise_inv in Hb. destruct Hb as [Hgen|(g & _ & Hb)];
      [|discriminate].
    exfalso. exact (compile_format_no_key_error _ _ Hgen).
Qed.

Lemma mention_entry_key_error mention nutrient key :
  mention_entry_of mention nutrient = raise (KeyError key) ->
  dict_get nutrient mention = None.
Proof.
  unfold WithCompile.mention_entry_of. intros Hb.
  apply bind_raise_inv in Hb. destruct Hb as [Hget|(ms & _ & Hb)].
  - apply getitem_raise_inv in Hget. tauto.
  - apply bind_raise_inv in Hb. destruct Hb as [Hgen|(g & _ & Hb)];
      [|discriminate].
    exfalso. exact (compile_format_no_key_error _ _ Hgen).
Qed.

Lemma value_entry_built mention item v :
  value_entry_of mention item = ret v -> In (fst item) (keys mention).
Proof.
  unfold WithCompile.value_entry_of. intros Hb.
  apply bind_ret_inv in Hb. destruct Hb as (ms & Hget & _).
  apply getitem_ret_inv in Hget. apply dict_get_Some_keys. congruence.
Qed.

End NoKeyError.

(** X17: provided [re.compile] itself raises no KeyError, a KeyError at
    import comes from [NUTRIENT_MENTION[nutrient]] in the comprehension over
    the unit catalog: it names the first kind of the unit catalog that the
    mention dictionary does not list.  The comprehension over the mention
    dictionary raises none. *)
Theorem module_init_key_error mention units_catalog k :
  (forall pattern key, re_compile pattern <> raise (KeyError key)) ->
  module_init mention units_catalog = raise (KeyError k) ->
  exists before units after,
    units_catalog = before ++ (k, units) :: after
    /\ ~ In k (keys mention)
    /\ Forall (fun item => In (fst item) (keys mention)) before.
Proof.
  intros Hcompile Hinit. unfold WithCompile.module_init in Hinit.
  apply bind_raise_inv in Hinit. destruct Hinit as [Ev|(vt & _ & Hinit)].
  - rewrite values_regex_table_comprehension in Ev.
    apply comprehension_raises in Ev.
    destruct Ev as (before & [k0 us] & after & -> & Hb & Hbefore).
    apply (value_entry_key_error Hcompile) in Hb.
    cbn [fst] in Hb. destruct Hb as [-> Hnone].
    exists before, us, after. split; [reflexivity|]. split.
    + intros Hin. apply dict_get_Some_keys in Hin. congruence.
    + eapply Forall_impl; [|exact Hbefore].
      intros item (v & Hv). exact (value_entry_built _ _ Hv).
  - apply bind_raise_inv in Hinit. destruct Hinit as [Em|(mt & _ & Hinit)];
      [|discriminate].
    rewrite mentions_regex_table_comprehension in Em.
    apply comprehension_raises in Em.
    destruct Em as (before & k0 & after & Ek & Hb & _).
    apply (mention_entry_key_error Hcompile) in Hb.
    exfalso. assert (Hin : In k0 (keys mention))
      by (rewrite Ek, in_app_iff; right; now left).
    apply dict_get_Some_keys in Hin. congruence.
Qed.

End ImportProps.

(** The parser of this file in the place of [re.compile] gives the import
    as it is held above. *)
Lemma dict_get_as_table k table :
  dict_get k (as_table table) = option_map as_OCRRegex (dict_get k table).
Proof.
  induction table as [|[k0 v] table IH]; simpl; [reflexivity|].
  now destruct (str_eqb k0 k).
Qed.

Lemma setitem_as_table k v table :
  as_table (setitem k v table) = setitem k (as_OCRRegex v) (as_table table).
Proof.
  unfold setitem. rewrite dict_get_as_table.
  destruct (dict_get k table) as [v0|]; simpl.
  - clear v0. induction table as [|[k0 v0] table IH]; simpl; [reflexivity|].
    destruct (str_eqb k0 k); simpl; [reflexivity | now rewrite IH].
  - unfold as_table. now rewrite map_app.
Qed.

Lemma foldM_map {A S T} (f : S -> T) (body : S -> A -> result S)
      (body' : T -> A -> result T) items :
  (forall s x, body' (f s) x = (s' <- body s x ;; ret (f s'))) ->
  forall s, foldM body' items (f s) = (s' <- foldM body items s ;; ret (f s')).
Proof.
  intros Hstep. induction items as [|x items IH]; intros s; simpl;
    [reflexivity|].
  rewrite Hstep. destruct (body s x) as [e|s']; simpl; [reflexivity|].
  apply IH.
Qed.

Lemma compile_format_with_parser template args :
  WithCompile.compile_format re_compile template args
  = compile_format template args.
Proof. reflexivity. Qed.

Lemma generate_with_parser nutrient_mentions units :
  WithCompile.generate_nutrient_regex re_compile nutrient_mentions units
  = generate_nutrient_regex nutrient_mentions units.
Proof. exact (compile_format_with_parser _ _). Qed.

Lemma generate_mention_with_parser nutrient_mentions :
  WithCompile.generate_nutrient_mention_regex re_compile nutrient_mentions
  = generate_nutrient_mention_regex nutrient_mentions.
Proof. exact (compile_format_with_parser _ _). Qed.

Lemma turn_with_parser (c : result Pattern) nutrient table :
  (r <- c ;;
   ret (setitem nutrient
                {| regex := r; field := full_text_contiguous;
                   lowercase := true |} (as_table table)))
  = (t <- (r <- c ;;
           ret (setitem nutrient
                        {| WithCompile.regex := r;
                           WithCompile.field := full_text_contiguous;
                           WithCompile.lowercase := true |} table)) ;;
     ret (as_table t)).
Proof.
  destruct c as [e|r]; cbn [bind ret]; [reflexivity|].
  rewrite setitem_as_table. reflexivity.
Qed.

Lemma value_turn_with_parser mention table (item : str * list str) :
  (let (nutrient, units) := item in
   nutrient_mentions <- getitem mention nutrient ;;
   r <- generate_nutrient_regex nutrient_mentions units ;;
   ret (setitem nutrient
                {| regex := r; field := full_text_contiguous;
                   lowercase := true |} (as_table table)))
  = (t <- (let (nutrient, units) := item in
           nutrient_mentions <- getitem mention nutrient ;;
           r <- WithCompile.generate_nutrient_regex
                  re_compile nutrient_mentions units ;;
           ret (setitem nutrient
                        {| WithCompile.regex := r;
                           WithCompile.field := full_text_contiguous;
                           WithCompile.lowercase := true |} table)) ;;
     ret (as_table t)).
Proof.
  destruct item as [k us].
  destruct (getitem mention k) as [e|ms]; cbn [bind]; [reflexivity|].
  generalize (generate_with_parser ms us).
  generalize (generate_nutrient_regex ms us).
  generalize (WithCompile.generate_nutrient_regex re_compile ms us).
  intros c c' ->. apply turn_with_parser.
Qed.

Lemma mention_turn_with_parser mention table (nutrient : str) :
  (nutrient_mentions <- getitem mention nutrient ;;
   r <- generate_nutrient_mention_regex nutrient_mentions ;;
   ret (setitem nutrient
                {| regex := r; field := full_text_contiguous;
                   lowercase := true |} (as_table table)))
  = (t <- (nutrient_mentions <- getitem mention nutrient ;;
           r <- WithCompile.generate_nutrient_mention_regex
                  re_compile nutrient_mentions ;;
           ret (setitem nutrient
                        {| WithCompile.regex := r;
                           WithCompile.field := full_text_contiguous;
                           WithCompile.lowercase := true |} table)) ;;
     ret (as_table t)).
Proof.
  destruct (getitem mention nutrient) as [e|ms]; cbn [bind]; [reflexivity|].
  generalize (generate_mention_with_parser ms).
  generalize (generate_nutrient_mention_regex ms).
  generalize (WithCompile.generate_nutrient_mention_regex re_compile ms).
  intros c c' ->. apply turn_with_parser.
Qed.

Lemma module_init_with_parser mention units_catalog :
  module_init mention units_catalog
  = (t <- WithCompile.module_init re_compile mention units_catalog ;;
     ret (as_Tables t)).
Proof.
  assert (Hv : values_regex_table mention units_catalog
               = (t <- WithCompile.values_regex_table
                         re_compile mention units_catalog ;;
                  ret (as_table t))).
  { unfold values_regex_table, WithCompile.values_regex_table.
    change (@nil (str * OCRRegex)) with (as_table []).
    apply foldM_map. intros table item. apply value_turn_with_parser. }
  assert (Hm : mentions_regex_table mention
               = (t <- WithCompile.mentions_regex_table re_compile mention ;;
                  ret (as_table t))).
  { unfold mentions_regex_table, WithCompile.mentions_regex_table.
    change (@nil (str * OCRRegex)) with (as_table []).
    apply foldM_map. intros table k. apply mention_turn_with_parser. }
  unfold module_init, WithCompile.module_init. rewrite Hv, Hm.
  destruct (WithCompile.values_regex_table re_compile mention units_catalog)
    as [e|vt]; [reflexivity|]. cbn [bind].
  destruct (WithCompile.mentions_regex_table re_compile mention)
    as [e|mt]; reflexivity.
Qed.

(** ** The further theorems at work *)

Lemma no_text_no_result_witness :
  find_nutrient_values ascii_isalnum str_get_text (u "") = ret []
  /\ find_nutrient_mentions ascii_isalnum str_get_text (u "") = ret [].
Proof.
  apply (@no_text_no_result ascii_isalnum str str_get_text (u "")).
  intros k r _. right. unfold str_get_text.
  destruct (lowercase r); reflexivity.
Defined.

Lemma value_unit_in_catalog_witness :
  exists units unit front,
    dict_get (u "salt") NUTRIENT_UNITS = Some units
    /\ vm_unit salt_value = Some unit
    /\ In unit units
    /\ vm_raw salt_value = front ++ unit.
Proof.
  apply (@value_unit_in_catalog
           ascii_isalnum str str_get_text (u "Sel 0,1g")
           [salt_values_envelope] salt_values_envelope
           (u "salt") [salt_value] salt_value
           ltac:(vm_compute; reflexivity)
           ltac:(simpl; auto) ltac:(simpl; auto) ltac:(simpl; auto)).
Defined.

Lemma value_raw_parts_witness :
  exists r text before after mention sp1 sepw num sp2 unit
         mentions fragment a units,
    In (u "salt", r) NUTRIENT_VALUES_REGEX
    /\ str_get_text (u "Sel 0,1g") r = Some text
    /\ text = before ++ vm_raw salt_value ++ after
    /\ vm_raw salt_value = mention ++ sp1 ++ sepw ++ num ++ sp2 ++ unit
    /\ vm_value salt_value = replace_char 44 46 num
    /\ vm_unit salt_value = Some unit
    /\ number_shape [44; 46]%N num
    /\ (sp1 = [] \/ sp1 = [32%N])
    /\ (sepw = []
        \/ exists x, (x = 58%N \/ x = 45%N)
                     /\ (sepw = [x] \/ sepw = [x; 32%N]))
    /\ (sp2 = [] \/ sp2 = [32%N])
    /\ dict_get (u "salt") NUTRIENT_MENTION = Some mentions
    /\ In fragment mentions
    /\ re_compile (fst fragment) = ret a
    /\ fullmatch ascii_isalnum a mention
    /\ dict_get (u "salt") NUTRIENT_UNITS = Some units
    /\ In unit units.
Proof.
  apply (@value_raw_parts
           ascii_isalnum str str_get_text (u "Sel 0,1g")
           [salt_values_envelope] salt_values_envelope
           (u "salt") [salt_value] salt_value
           ltac:(vm_compute; reflexivity)
           ltac:(simpl; auto) ltac:(simpl; auto) ltac:(simpl; auto)).
Defined.

Lemma value_raw_begins_with_mention_witness :
  exists mentions fragment a mention rest,
    dict_get (u "salt") NUTRIENT_MENTION = Some mentions
    /\ In fragment mentions
    /\ re_compile (fst fragment) = ret a
    /\ fullmatch ascii_isalnum a mention
    /\ vm_raw salt_value = mention ++ rest.
Proof.
  apply (@value_raw_begins_with_mention
           ascii_isalnum str str_get_text (u "Sel 0,1g")
           [salt_values_envelope] salt_values_envelope
           (u "salt") [salt_value] salt_value
           ltac:(vm_compute; reflexivity)
           ltac:(simpl; auto) ltac:(simpl; auto) ltac:(simpl; auto)).
Defined.

Lemma mention_raw_is_fragment_witness :
  exists mentions fragment a,
    dict_get (u "salt") NUTRIENT_MENTION = Some mentions
    /\ In fragment mentions
    /\ re_compile (fst fragment) = ret a
    /\ fullmatch ascii_isalnum a (mm_raw salt_mention).
Proof.
  apply (@mention_raw_is_fragment
           ascii_isalnum str str_get_text (u "Sel 0,1g")
           [salt_mentions_envelope] salt_mentions_envelope
           (u "salt") [salt_mention] salt_mention
           ltac:(vm_compute; reflexivity)
           ltac:(simpl; auto) ltac:(simpl; auto) ltac:(simpl; auto)).
Defined.

Lemma mention_spans_ordered_witness :
  exists r text,
    In (u "salt", r) NUTRIENT_MENTIONS_REGEX
    /\ str_get_text (u "Sel fin, sel gris") r = Some text
    /\ spans_from 0 (List.length text) sel_fin_sel_gris.
Proof.
  apply (@mention_spans_ordered
           ascii_isalnum str str_get_text (u "Sel fin, sel gris")
           [sel_fin_sel_gris_envelope] sel_fin_sel_gris_envelope
           (u "salt") sel_fin_sel_gris
           ltac:(vm_compute; reflexivity)
           ltac:(simpl; auto) ltac:(simpl; auto)).
Defined.

Lemma module_init_tables_witness :
  keys (WithCompile.values_regex tables_s_l) = keys units_salt
  /\ keys (WithCompile.mentions_regex tables_s_l) = keys mention_s_l.
Proof.
  destruct (@module_init_tables
              str accept_all mention_s_l units_salt tables_s_l
              ltac:(vm_compute; reflexivity)
              ltac:(distinct_keys) ltac:(distinct_keys))
    as (Hv & Hm & _).
  split; assumption.
Defined.

Lemma module_init_key_error_witness :
  exists before units after,
    units_salt_zinc = before ++ (u "zinc", units) :: after
    /\ ~ In (u "zinc") (keys mention_s_l)
    /\ Forall (fun item => In (fst item) (keys mention_s_l)) before.
Proof.
  apply (@module_init_key_error
           str accept_all mention_s_l units_salt_zinc (u "zinc")).
  - intros pattern key. discriminate.
  - vm_compute. reflexivity.
Defined.
